(** * pypmc.cluster.variational: the variational-Bayes Gaussian-mixture engine

    A shallow embedding of [GaussianInference] and [VBMerge]
    (src/pypmc/cluster/variational.py) and the properties of its
    parameter validation, E/M updates, pruning, convergence loop and
    output builder.

    Numbers.  Python floats and numpy float64 entries are embedded as
    rationals [Q] with exact [+ - * /]; NaN and the infinities have no
    counterpart, so the one place where the code can divide by zero on
    the convergence path is written out ([rel_test]).  The transcendental
    functions ([exp], [log], [digamma]) and the LAPACK routines ([inv],
    [det]) are parameters of the development. *)

From Stdlib Require Import QArith Qabs Lqa ZArith String.
From stdpp Require Import base option list strings gmap.

Local Open Scope string_scope.
Local Open Scope nat_scope.
Local Open Scope list_scope.

(** ** Exceptions and the error monad *)

(** Arguments of a [%]-formatted message. *)
Inductive fmt_arg :=
| AStr (s : string)
| AInt (n : nat)
| ANum (q : Q)
| AVec (v : list Q)
| AShape (sh : list nat).

(** The exceptions the engine raises, with the message template of the
    source and the values formatted into it. *)
Inductive exn :=
| ValueError (template : string) (args : list fmt_arg)
| TypeError (template : string)
| AttributeError (attr : string)
| AssertionError (template : string)
| IndexError
| LinAlgError
| UnboundLocalError (name : string).

Inductive result (A : Type) :=
| OK (a : A)
| Raise (e : exn).
Arguments OK {A} a.
Arguments Raise {A} e.

#[global] Instance result_ret : MRet result := fun A a => OK a.
#[global] Instance result_bind : MBind result := fun A B k c =>
  match c with
  | OK a => k a
  | Raise e => Raise e
  end.

(** [for x in xs: body] threading a state. *)
Fixpoint foldM {A St} (body : A -> St -> result St) (xs : list A) (st : St)
  : result St :=
  match xs with
  | [] => OK st
  | x :: rest => st' ← body x st; foldM body rest st'
  end.

Fixpoint mapM {A B} (f : A -> result B) (xs : list A) : result (list B) :=
  match xs with
  | [] => OK []
  | x :: rest => y ← f x; ys ← mapM f rest; OK (y :: ys)
  end.

(** ** Numbers *)

Definition Qltb (x y : Q) : bool := negb (Qle_bool y x).

Definition of_nat (n : nat) : Q := inject_Z (Z.of_nat n).

(** ** Arrays: vectors, matrices, stacks of matrices *)

Abbreviation vector := (list Q).
Abbreviation matrix := (list (list Q)).

Definition vsum (v : vector) : Q := foldr Qplus 0%Q v.
Definition dot (u v : vector) : Q := vsum (zip_with Qmult u v).
Definition vsub (u v : vector) : vector := zip_with Qminus u v.
Definition vadd (u v : vector) : vector := zip_with Qplus u v.
Definition vscale (c : Q) (v : vector) : vector := map (Qmult c) v.
Definition madd (a b : matrix) : matrix := zip_with vadd a b.
Definition mscale (c : Q) (a : matrix) : matrix := map (vscale c) a.
Definition outer (u v : vector) : matrix := map (fun x => vscale x v) u.
Definition vec_mat (u : vector) (a : matrix) : vector :=
  foldr vadd (repeat 0%Q (length (hd [] a))) (zip_with vscale u a).
Definition mat_mul (a b : matrix) : matrix := map (fun row => vec_mat row b) a.
Definition trace (a : matrix) : Q :=
  vsum (imap (fun i row => default 0%Q (row !! i)) a).
Definition zeros (n : nat) : vector := repeat 0%Q n.
Definition ones (n : nat) : vector := repeat 1%Q n.
Definition eye (n : nat) : matrix :=
  map (fun i => map (fun j => if Nat.eqb i j then 1%Q else 0%Q) (seq 0 n)) (seq 0 n).

(** [a[k]]: numpy raises IndexError out of range. *)
Definition index {A} (a : list A) (k : nat) : result A :=
  match a !! k with
  | Some x => OK x
  | None => Raise IndexError
  end.

(** [a[k] = x] in place. *)
Definition setitem {A} (a : list A) (k : nat) (x : A) : result (list A) :=
  if decide (k < length a) then OK (<[k := x]> a) else Raise IndexError.

(** Elementwise binary operation of two 1-d arrays under numpy's
    broadcasting: equal extents, or one operand of extent 1. *)
Definition bcast (f : Q -> Q -> Q) (u v : vector) : result vector :=
  if decide (length u = length v) then OK (zip_with f u v)
  else match u, v with
       | [x], _ => OK (map (f x) v)
       | _, [y] => OK (map (fun x => f x y) u)
       | _, _ => Raise (ValueError "operands could not be broadcast together" [])
       end.

(** In-place [row op= v]: the left operand keeps its extent. *)
Definition bcast_into (f : Q -> Q -> Q) (row v : vector) : result vector :=
  if decide (length row = length v) then OK (zip_with f row v)
  else match v with
       | [y] => OK (map (fun x => f x y) row)
       | _ => Raise (ValueError "operands could not be broadcast together" [])
       end.

(** ** The engine's state

    The attributes of a [GaussianInference] object.  The sixteen
    per-component arrays that [prune] lists by name are grouped by rank
    and looked up by attribute name, as [getattr(self, name)] does. *)

(** Length-K vectors. *)
Inductive KVec :=
| alpha0 | alpha | beta0 | beta
| expectation_det_ln_lambda | expectation_ln_pi
| N_comp | nu0 | nu.

(** K x D matrices. *)
Inductive KMat := m0 | m | x_mean_comp.

(** K x D x D stacks of matrices ([S_] is the attribute [S]). *)
Inductive KTen := S_ | W0 | inv_W0 | W.

(** N x K matrices (L x K in [VBMerge]). *)
Inductive NKMat := expectation_gauss_exponent | r.

#[global] Instance KVec_eq_dec : EqDecision KVec.
Proof. solve_decision. Defined.
#[global] Instance KMat_eq_dec : EqDecision KMat.
Proof. solve_decision. Defined.
#[global] Instance KTen_eq_dec : EqDecision KTen.
Proof. solve_decision. Defined.
#[global] Instance NKMat_eq_dec : EqDecision NKMat.
Proof. solve_decision. Defined.

(** Array objects of rank three live in a store and attributes hold
    references to them: [set_variational_parameters] binds [W0] and [W]
    to the arrays the caller passes, without copying, and [_update_W] and
    [prune] then write into them in place.  Every other array attribute
    is bound to an array the engine has just created ([np.array],
    [np.ones], [np.vstack], [np.zeros], the result of an arithmetic
    expression), so it is held by value. *)
Abbreviation loc := nat.
Abbreviation store := (list (list matrix)).

Definition alloc (a : list matrix) (h : store) : loc * store :=
  (length h, h ++ [a]).

(** What the engine is fitted to: the samples of [GaussianInference]
    with their normalized weights, or the input mixture of [VBMerge]
    (the means [mu], the covariances [sigma] and [Nomega]). *)
Inductive Source :=
| Samples (data : matrix) (weights : option vector)
| Mixture (mu : list vector) (sigma : list matrix) (Nomega : vector).

Record State := {
  K : nat;
  dim : nat;
  source : Source;
  vec : KVec -> vector;
  mat : KMat -> matrix;
  ten : KTen -> loc;
  heap : store;
  nk : NKMat -> matrix;
  inv_N_comp : vector;
  log_rho : matrix;
}.

Definition set_K (k : nat) (s : State) : State :=
  {| K := k; dim := dim s; source := source s; vec := vec s; mat := mat s;
     ten := ten s; heap := heap s; nk := nk s; inv_N_comp := inv_N_comp s;
     log_rho := log_rho s |}.

Definition set_vec (a : KVec) (v : vector) (s : State) : State :=
  {| K := K s; dim := dim s; source := source s;
     vec := fun b => if decide (b = a) then v else vec s b;
     mat := mat s; ten := ten s; heap := heap s; nk := nk s;
     inv_N_comp := inv_N_comp s; log_rho := log_rho s |}.

Definition set_mat (a : KMat) (x : matrix) (s : State) : State :=
  {| K := K s; dim := dim s; source := source s; vec := vec s;
     mat := fun b => if decide (b = a) then x else mat s b;
     ten := ten s; heap := heap s; nk := nk s;
     inv_N_comp := inv_N_comp s; log_rho := log_rho s |}.

(** Rebind a rank-three attribute to another array object. *)
Definition set_ten (a : KTen) (l : loc) (s : State) : State :=
  {| K := K s; dim := dim s; source := source s; vec := vec s; mat := mat s;
     ten := fun b => if decide (b = a) then l else ten s b;
     heap := heap s; nk := nk s;
     inv_N_comp := inv_N_comp s; log_rho := log_rho s |}.

Definition set_heap (h : store) (s : State) : State :=
  {| K := K s; dim := dim s; source := source s; vec := vec s; mat := mat s;
     ten := ten s; heap := h; nk := nk s;
     inv_N_comp := inv_N_comp s; log_rho := log_rho s |}.

Definition set_nk (a : NKMat) (x : matrix) (s : State) : State :=
  {| K := K s; dim := dim s; source := source s; vec := vec s; mat := mat s;
     ten := ten s; heap := heap s;
     nk := fun b => if decide (b = a) then x else nk s b;
     inv_N_comp := inv_N_comp s; log_rho := log_rho s |}.

Definition set_inv_N_comp (v : vector) (s : State) : State :=
  {| K := K s; dim := dim s; source := source s; vec := vec s; mat := mat s;
     ten := ten s; heap := heap s; nk := nk s;
     inv_N_comp := v; log_rho := log_rho s |}.

Definition set_log_rho (x : matrix) (s : State) : State :=
  {| K := K s; dim := dim s; source := source s; vec := vec s; mat := mat s;
     ten := ten s; heap := heap s; nk := nk s;
     inv_N_comp := inv_N_comp s; log_rho := x |}.

(** The array object an attribute is bound to. *)
Definition deref (h : store) (l : loc) : list matrix := default [] (h !! l).

(** [getattr(self, a)] for a rank-three attribute: the current contents. *)
Definition tensor (s : State) (a : KTen) : list matrix := deref (heap s) (ten s a).

(** A write into the array object the attribute [a] is bound to; every
    attribute bound to the same object sees it. *)
Definition write_ten (a : KTen) (t : list matrix) (s : State) : State :=
  set_heap (<[ten s a := t]> (heap s)) s.

(** A fresh array object bound to the attribute [a]. *)
Definition new_ten (a : KTen) (t : list matrix) (s : State) : State :=
  let '(l, h) := alloc t (heap s) in set_ten a l (set_heap h s).

(** ** Values a caller can pass as a keyword argument *)

(** [None], a Python float, and numpy arrays of rank 0 to 3.  An array of
    rank three is an object in the store: the engine keeps the reference
    it is given. *)
Inductive pyval :=
| PyNone
| PyFloat (x : Q)
| Nd0 (x : Q)
| Nd1 (v : vector)
| Nd2 (a : matrix)
| Nd3 (l : loc).

Definition shape2 (a : matrix) : list nat := [length a; length (hd [] a)].
Definition shape3 (t : list matrix) : list nat :=
  [length t; length (hd [] t); length (hd [] (hd [] t))].

(** [v.shape]; a float and [None] have no such attribute. *)
Definition shape (h : store) (v : pyval) : result (list nat) :=
  match v with
  | PyNone | PyFloat _ => Raise (AttributeError "shape")
  | Nd0 _ => OK []
  | Nd1 x => OK [length x]
  | Nd2 a => OK (shape2 a)
  | Nd3 l => OK (shape3 (deref h l))
  end.

(** [**kwargs]: a dictionary from parameter names to values. *)
Abbreviation kwargs := (gmap string pyval).

(** [kwargs.pop(name, default)] *)
Definition pop (name : string) (dflt : pyval) (kw : kwargs) : pyval * kwargs :=
  (default dflt (kw !! name), delete name kw).

(** [np.linspace(-1., 1., n)] *)
Definition linspace (n : nat) : vector :=
  match n with
  | 0 => []
  | 1 => [(-1)%Q]
  | _ => map (fun i => (of_nat i * (2 / of_nat (n - 1)) + -1)%Q) (seq 0 (n - 1))
           ++ [1%Q]
  end.

(** [v.reshape((rows, cols))] of a vector of [rows * cols] entries. *)
Definition reshape2 (rows cols : nat) (v : vector) : matrix :=
  map (fun i => take cols (drop (i * cols) v)) (seq 0 rows).

(** ** The mixture value types *)

(** Modelled from the spec: the classes [Gauss] and [MixtureDensity] of
    pypmc/importance_sampling/proposal.py are not among the sources.  The
    spec has them as value types: a mixture is an "ordered sequence of
    Gaussian components, each with mean vector, covariance matrix, and a
    weight", and the weights are "renormalized by the consuming mixture
    constructor", not by the engine. *)
Record Gauss := {
  mu : vector;
  sigma : matrix;
}.

Record MixtureDensity := {
  components : list Gauss;
  weights : list Q;
}.

(** What [make_mixture] prints. *)
Inductive report :=
| zero_weight (k : nat)
| mode_not_defined (k : nat)
| could_not_create (k : nat) (error : exn)
| have_been_skipped (ks : list nat).

Section Engine.

(** [numpy.linalg.inv]: raises [LinAlgError] on a singular matrix. *)
Variable inv : matrix -> result matrix.
(** [numpy.linalg.det] *)
Variable det : matrix -> Q.
(** [scipy.special.digamma], [math.log] / [numpy.log], [numpy.exp] *)
Variables digamma ln exp : Q -> Q.
(** [numpy.pi] *)
Variable pi : Q.
(** [numpy.finfo('d').tiny], the smallest positive normal double. *)
Variable tiny : Q.

(** *** Parameter validation *)

(** [_check_K_vector(name, min)], with [v = getattr(self, name)] passed
    by the caller.  On success the model hands back the entries of the
    vector that was checked. *)
Definition _check_K_vector (h : store) (K : nat) (name : string)
    (v : pyval) (min : Q) : result vector :=
  sh ← shape h v;
  match v with
  | Nd1 x =>
      if negb (length x =? K)
      then Raise (ValueError "len(%s)=%d does not match K=%d"
                    [AStr name; AInt (length x); AInt K])
      else if negb (forallb (Qltb min) x)
      then Raise (ValueError "All elements of %s must exceed %g. %s=%s"
                    [AStr name; ANum min; AStr name; AVec x])
      else OK x
  | _ => Raise (ValueError "%s is not a vector but has shape %s"
                  [AStr name; AShape sh])
  end.

(** The prior vectors [alpha0], [beta0], [nu0]:
<<
    self.alpha0 = kwargs.pop('alpha0', 1e-5)
    if not _np.iterable(self.alpha0):
        self.alpha0 = self.alpha0 * _np.ones(self.K)
    else:
        self.alpha0 = _np.array(self.alpha0)
    self._check_K_vector('alpha0')
>>
    A float times [ones(K)] is K copies of that float. *)
Definition prior_K_vector (name : string) (dflt min : Q) (s : State)
    (kw : kwargs) : result (vector * kwargs) :=
  let '(v, kw) := pop name (PyFloat dflt) kw in
  v ← match v with
      | PyFloat x | Nd0 x => OK (Nd1 (repeat x (K s)))
      | PyNone => Raise (TypeError "unsupported operand type(s) for *")
      | arr => OK arr
      end;
  x ← _check_K_vector (heap s) (K s) name v min;
  OK (x, kw).

(** The posterior vectors [alpha], [beta], [nu]:
<<
    self.alpha = kwargs.pop('alpha', _np.ones(self.K) * self.alpha0)
    self._check_K_vector('alpha')
    self.alpha = _np.array(self.alpha)
>>
    The value is checked as it was passed. *)
Definition posterior_K_vector (name : string) (prior : vector) (min : Q)
    (s : State) (kw : kwargs) : result (vector * kwargs) :=
  let '(v, kw) := pop name (Nd1 prior) kw in
  x ← _check_K_vector (heap s) (K s) name v min;
  OK (x, kw).

(** [self.m0 = _np.array(kwargs.pop('m0', _np.zeros(self.dim)))] and the
    promotion of a single D-vector to K rows. *)
Definition m0_param (s : State) (kw : kwargs) : result (pyval * kwargs) :=
  let '(v, kw) := pop "m0" (Nd1 (zeros (dim s))) kw in
  match v with
  | PyNone | PyFloat _ | Nd0 _ => Raise (TypeError "len() of unsized object")
  | Nd1 x =>
      if length x =? dim s
      then if K s =? 0
           then Raise (ValueError "need at least one array to concatenate" [])
           else OK (Nd2 (repeat x (K s)), kw)
      else OK (Nd1 x, kw)
  | arr => OK (arr, kw)
  end.

(** [self.m = kwargs.pop('m', None)], by default spread over [-1, 1],
    otherwise [_np.array(self.m)]. *)
Definition m_param (s : State) (kw : kwargs) : pyval * kwargs :=
  let '(v, kw) := pop "m" PyNone kw in
  match v with
  | PyNone => (Nd2 (reshape2 (K s) (dim s) (linspace (K s * dim s))), kw)
  | PyFloat x => (Nd0 x, kw)
  | arr => (arr, kw)
  end.

(** One round of [for name in ('m0', 'm')]; the message prints
    [self.m.shape] for either name. *)
Definition check_mean_shape (s : State) (name : string) (v mval : pyval)
    : result matrix :=
  sh ← shape (heap s) v;
  msh ← shape (heap s) mval;
  match v with
  | Nd2 a =>
      if decide (sh = [K s; dim s]) then OK a
      else Raise (ValueError "Shape of %s %s does not match (K,d)=%s"
                    [AStr name; AShape msh; AShape [K s; dim s]])
  | _ => Raise (ValueError "Shape of %s %s does not match (K,d)=%s"
                  [AStr name; AShape msh; AShape [K s; dim s]])
  end.

Definition W0_error (s : State) : exn :=
  ValueError "W0 is neither None, nor a %s array, nor a %s array."
    [AShape [dim s; dim s]; AShape [K s; dim s; dim s]].

(** The block that sets [W0] and [inv_W0]. *)
Definition W0_param (s : State) (kw : kwargs) : result (State * kwargs) :=
  let '(v, kw) := pop "W0" PyNone kw in
  match v with
  | PyNone =>
      OK (new_ten inv_W0 (repeat (eye (dim s)) (K s))
            (new_ten W0 (repeat (eye (dim s)) (K s)) s), kw)
  | PyFloat _ => Raise (AttributeError "shape")
  | Nd0 _ | Nd1 _ => Raise (W0_error s)
  | Nd2 a =>
      if decide (shape2 a = [dim s; dim s])
      then ia ← inv a;
           OK (new_ten inv_W0 (repeat ia (K s))
                 (new_ten W0 (repeat a (K s)) s), kw)
      else Raise (W0_error s)
  | Nd3 l =>
      if decide (shape3 (deref (heap s) l) = [K s; dim s; dim s])
      then ia ← mapM inv (deref (heap s) l);
           OK (new_ten inv_W0 ia (set_ten W0 l s), kw)
      else Raise (W0_error s)
  end.

(** [self.W = kwargs.pop('W', self.W0.copy())] and its shape check.
    The default is evaluated, hence allocated, in either case. *)
Definition W_param (s : State) (kw : kwargs) : result (State * kwargs) :=
  let '(cp, h) := alloc (tensor s W0) (heap s) in
  let s := set_heap h s in
  let '(v, kw) := pop "W" (Nd3 cp) kw in
  sh ← shape (heap s) v;
  match v with
  | Nd3 l =>
      if decide (sh = [K s; dim s; dim s]) then OK (set_ten W l s, kw)
      else Raise (ValueError "Shape of W %s does not match (K, d, d)=%s"
                    [AShape sh; AShape [K s; dim s; dim s]])
  | _ => Raise (ValueError "Shape of W %s does not match (K, d, d)=%s"
                  [AShape sh; AShape [K s; dim s; dim s]])
  end.

Definition set_variational_parameters (args : list pyval) (kw : kwargs)
    (s : State) : result State :=
  if negb (bool_decide (args = [])) then Raise (TypeError "keyword args only")
  else
  '(a0, kw) ← prior_K_vector "alpha0" (1 # 100000) 0 s kw;
  '(a, kw) ← posterior_K_vector "alpha" a0 0 s kw;
  '(b0, kw) ← prior_K_vector "beta0" (1 # 100000) 0 s kw;
  '(b, kw) ← posterior_K_vector "beta" b0 0 s kw;
  let nu_min := (of_nat (dim s) - 1)%Q in
  '(n0, kw) ← prior_K_vector "nu0" (nu_min + (1 # 100000))%Q nu_min s kw;
  '(n, kw) ← posterior_K_vector "nu" n0 nu_min s kw;
  '(vm0, kw) ← m0_param s kw;
  let '(vm, kw) := m_param s kw in
  xm0 ← check_mean_shape s "m0" vm0 vm;
  xm ← check_mean_shape s "m" vm vm;
  let s := set_vec alpha0 a0 (set_vec alpha a (set_vec beta0 b0
            (set_vec beta b (set_vec nu0 n0 (set_vec nu n
            (set_mat m0 xm0 (set_mat m xm s))))))) in
  '(s, kw) ← W0_param s kw;
  '(s, kw) ← W_param s kw;
  if negb (bool_decide (kw = ∅)) then Raise (TypeError "unexpected keyword(s): ")
  else OK s.

(** *** E-step *)

(** Modelled from the spec: [regularize] of pypmc/tools/_regularize.py,
    which is not among the sources.  It is the "regularization step"
    that floors entries "to avoid zero entries before any subsequent
    logarithm": every entry equal to zero is replaced, in place, by the
    smallest positive double; the array is also returned. *)
Definition regularize (v : vector) : vector :=
  map (fun x => if Qeq_bool x 0 then tiny else x) v.

Definition half : Q := 1 # 2.

Definition not_pd : exn :=
  AssertionError "Some precision matrix is not positive definite in %s".

Definition _update_expectation_det_ln_lambda (s : State) : result State :=
  let dets := map det (tensor s W) in
  if negb (forallb (Qltb 0) dets) then Raise not_pd
  else
    let res :=
      foldl (fun res i =>
               zip_with Qplus res
                 (map (fun x => digamma ((x + (1 - of_nat i)) * half)%Q)
                    (vec s nu)))
            (map (fun _ => 0%Q) (vec s nu)) (seq 1 (dim s)) in
    let res := map (fun x => (x + of_nat (dim s) * ln 2)%Q) res in
    res ← bcast_into Qplus res (map ln dets);
    OK (set_vec expectation_det_ln_lambda res s).

(** [a[n, k] = x] *)
Definition setitem2 (a : matrix) (n k : nat) (x : Q) : result matrix :=
  row ← index a n;
  row ← setitem row k x;
  setitem a n row.

(** The quadratic form [tmp.dot(W).dot(tmp)]. *)
Definition quad (tmp : vector) (w : matrix) : Q := dot (vec_mat tmp w) tmp.

Definition _update_expectation_gauss_exponent (s : State) : result State :=
  match source s with
  | Samples data _ =>
      _ ← index data 0;
      e ← foldM (fun k e =>
             foldM (fun n e =>
                x ← index data n;
                mk ← index (mat s m) k;
                bk ← index (vec s beta) k;
                nuk ← index (vec s nu) k;
                wk ← index (tensor s W) k;
                let tmp := vsub x mk in
                setitem2 e n k (of_nat (dim s) / bk + nuk * quad tmp wk)%Q)
               (seq 0 (length data)) e)
           (seq 0 (K s)) (nk s expectation_gauss_exponent);
      OK (set_nk expectation_gauss_exponent e s)
  | Mixture mu sigma _ =>
      e ← foldM (fun '(k, wk) e =>
             foldM (fun '(l, (mul, sigmal)) e =>
                mk ← index (mat s m) k;
                bk ← index (vec s beta) k;
                nuk ← index (vec s nu) k;
                let tmp := vsub mul mk in
                setitem2 e l k
                  (of_nat (dim s) / bk
                   + nuk * (trace (mat_mul wk sigmal) + quad tmp wk))%Q)
               (imap pair (zip mu sigma)) e)
           (imap pair (tensor s W)) (nk s expectation_gauss_exponent);
      OK (set_nk expectation_gauss_exponent e s)
  end.

Definition _update_expectation_ln_pi (s : State) : State :=
  set_vec expectation_ln_pi
    (map (fun a => (digamma a - digamma (vsum (vec s alpha)))%Q) (vec s alpha)) s.

(** [einsum('l,lk->lk', w, a)]: row [l] of [a] scaled by [w[l]]. *)
Definition einsum_l_lk (w : vector) (a : matrix) : result matrix :=
  if decide (length w = length a) then OK (zip_with vscale w a)
  else Raise (ValueError "operands could not be broadcast together" []).

Definition _update_log_rho (s : State) : result State :=
  match source s with
  | Samples _ _ =>
      let lr := map (map (Qmult (- half))) (nk s expectation_gauss_exponent) in
      lr ← mapM (fun row => bcast_into Qplus row (vec s expectation_ln_pi)) lr;
      lr ← mapM (fun row => bcast_into Qplus row
                    (map (Qmult half) (vec s expectation_det_ln_lambda))) lr;
      let c := (half * of_nat (dim s) * ln (2 * pi))%Q in
      OK (set_log_rho (map (map (fun x => x - c)%Q) lr) s)
  | Mixture _ _ Nomega =>
      let tmp_k := map (Qmult 2) (vec s expectation_ln_pi) in
      tmp_k ← bcast_into Qplus tmp_k (vec s expectation_det_ln_lambda);
      let tmp_k := map (fun x => x - of_nat (dim s) * ln (2 * pi))%Q tmp_k in
      let lr := map (fun w => vscale w tmp_k) Nomega in
      second ← einsum_l_lk Nomega (nk s expectation_gauss_exponent);
      lr ← (if decide (length lr = length second)
            then mapM (fun '(row, row2) => bcast_into Qminus row row2)
                   (zip lr second)
            else Raise (ValueError "operands could not be broadcast together" []));
      OK (set_log_rho (map (map (fun x => x / 2)%Q) lr) s)
  end.

Definition qmax (x y : Q) : Q := if Qle_bool x y then y else x.

(** [row.max()]; a reduction over no entries raises. *)
Definition row_max (row : vector) : result Q :=
  match row with
  | [] => Raise (ValueError
            "zero-size array to reduction operation maximum which has no identity" [])
  | x :: rest => OK (foldl qmax x rest)
  end.

(** One row of [rho]: shifted by its maximum, exponentiated. *)
Definition rho_row (row : vector) : result vector :=
  mx ← row_max row;
  OK (map (fun x => exp (x - mx)) row).

(** One row of [rho / normalization_rho]. *)
Definition normalize_row (row : vector) : vector :=
  map (fun x => (x / vsum row)%Q) row.

Definition _update_r (s : State) : result State :=
  s ← _update_log_rho s;
  rho ← mapM rho_row (log_rho s);
  OK (set_nk r (map regularize (map normalize_row rho)) s).

(** The sums over the sample axis of [einsum('nk->k', r)] and, with a
    factor per sample, of [einsum('n,nk->k', w, r)], written into an
    output array of the extent of [out]. *)
Definition col_sums (rows : matrix) (out : vector) : result vector :=
  if forallb (fun row => length row =? length out) rows
  then OK (foldr vadd (map (fun _ => 0%Q) out) rows)
  else Raise (ValueError "output has wrong dimensions" []).

Definition weighted_col_sums (w : vector) (rows : matrix) (out : vector)
    : result vector :=
  if decide (length w = length rows)
  then col_sums (zip_with vscale w rows) out
  else Raise (ValueError "operands could not be broadcast together" []).

(** [_update_N_comp], [_update_N_comp_weighted] and
    [VBMerge._update_N_comp]: [regularize] floors [N_comp] itself. *)
Definition _update_N_comp (s : State) : result State :=
  n ← match source s with
      | Samples _ None => col_sums (nk s r) (vec s N_comp)
      | Samples _ (Some weights) => weighted_col_sums weights (nk s r) (vec s N_comp)
      | Mixture _ _ Nomega => weighted_col_sums Nomega (nk s r) (vec s N_comp)
      end;
  let n := regularize n in
  OK (set_inv_N_comp (map (fun x => 1 / x)%Q n) (set_vec N_comp n s)).

Definition at_ (v : vector) (k : nat) : Q := default 0%Q (v !! k).

(** [einsum('k,nk,ni->ki', a, r, x, out=out)] and, with a factor per
    sample, [einsum('k,n,nk,ni->ki', a, w, r, x, out=out)]. *)
Definition einsum_ki (a : vector) (w : option vector) (rr x : matrix)
    (out : matrix) : matrix :=
  imap (fun k orow =>
    imap (fun i _ =>
      vsum (imap (fun n xn =>
              match w with
              | None => at_ a k * at_ (default [] (rr !! n)) k * at_ xn i
              | Some w =>
                  at_ a k * at_ w n * at_ (default [] (rr !! n)) k * at_ xn i
              end%Q) x)) orow) out.

Definition _update_x_mean_comp (s : State) : State :=
  match source s with
  | Samples data weights =>
      set_mat x_mean_comp
        (einsum_ki (inv_N_comp s) weights (nk s r) data (mat s x_mean_comp)) s
  | Mixture mu _ Nomega =>
      set_mat x_mean_comp
        (einsum_ki (inv_N_comp s) (Some Nomega) (nk s r) mu (mat s x_mean_comp)) s
  end.

(** [a[n, k]] *)
Definition index2 (a : matrix) (n k : nat) : result Q :=
  row ← index a n; index row k.

(** [_update_S], [_update_S_weighted] and [VBMerge._update_S]: each
    [S[k]] is zeroed, accumulated and rescaled in place. *)
Definition _update_S (s : State) : result State :=
  foldM (fun k s =>
    sk ← index (tensor s S_) k;
    let zero := map (map (fun _ => 0%Q)) sk in
    acc ← match source s with
          | Samples data weights =>
              foldM (fun '(n, x) acc =>
                 xk ← index (mat s x_mean_comp) k;
                 let tmpv := vsub x xk in
                 rnk ← index2 (nk s r) n k;
                 c ← match weights with
                     | None => OK rnk
                     | Some w => wn ← index w n; OK (rnk * wn)%Q
                     end;
                 OK (madd acc (mscale c (outer tmpv tmpv))))
                (imap pair data) zero
          | Mixture mu sigma Nomega =>
              foldM (fun l acc =>
                 mul ← index mu l;
                 xk ← index (mat s x_mean_comp) k;
                 let tmp := vsub mul xk in
                 nl ← index Nomega l;
                 rlk ← index2 (nk s r) l k;
                 sl ← index sigma l;
                 OK (madd acc (mscale (nl * rlk)%Q (madd (outer tmp tmp) sl))))
                (seq 0 (length mu)) zero
          end;
    ik ← index (inv_N_comp s) k;
    t ← setitem (tensor s S_) k (mscale ik acc);
    OK (write_ten S_ t s))
  (seq 0 (K s)) s.

(** [E_step]: the order of the seven updates is fixed. *)
Definition E_step (s : State) : result State :=
  s ← _update_expectation_det_ln_lambda s;
  s ← _update_expectation_gauss_exponent s;
  let s := _update_expectation_ln_pi s in
  s ← _update_r s;
  s ← _update_N_comp s;
  let s := _update_x_mean_comp s in
  _update_S s.

(** *** M-step *)

Definition _update_m (s : State) : result State :=
  foldM (fun k s =>
    bk ← index (vec s beta) k;
    b0k ← index (vec s beta0) k;
    m0k ← index (mat s m0) k;
    nk_ ← index (vec s N_comp) k;
    xk ← index (mat s x_mean_comp) k;
    mm ← setitem (mat s m) k
           (vscale (1 / bk)%Q (vadd (vscale b0k m0k) (vscale nk_ xk)));
    OK (set_mat m mm s))
  (seq 0 (K s)) s.

(** [_update_W]: [self.W[k] = inv(cov)] writes into the array object
    that [W] is bound to. *)
Definition _update_W (s : State) : result State :=
  foldM (fun k s =>
    xk ← index (mat s x_mean_comp) k;
    m0k ← index (mat s m0) k;
    b0k ← index (vec s beta0) k;
    nk_ ← index (vec s N_comp) k;
    sk ← index (tensor s S_) k;
    iw0k ← index (tensor s inv_W0) k;
    let tmp := vsub xk m0k in
    let cov := outer tmp tmp in
    let cov := mscale (b0k / (b0k + nk_))%Q cov in
    let cov := madd cov sk in
    let cov := mscale nk_ cov in
    let cov := madd cov iw0k in
    wk ← inv cov;
    t ← setitem (tensor s W) k wk;
    OK (write_ten W t s))
  (seq 0 (K s)) s.

Definition M_step (s : State) : result State :=
  v ← bcast Qplus (vec s nu0) (vec s N_comp);
  let s := set_vec nu v s in
  v ← bcast Qplus (vec s alpha0) (vec s N_comp);
  let s := set_vec alpha v s in
  v ← bcast Qplus (vec s beta0) (vec s N_comp);
  let s := set_vec beta v s in
  s ← _update_m s;
  _update_W s.

(** [update]: one M-step, then one E-step. *)
Definition update (s : State) : result State :=
  s ← M_step s;
  E_step s.

(** *** Pruning *)

(** The names in [vmembers], in the order of the source, and those in
    [mmembers]. *)
Inductive vmember :=
| V (a : KVec)
| M (a : KMat)
| T (a : KTen).

Definition vmembers : list vmember :=
  [V alpha0; V alpha; V beta0; V beta; V expectation_det_ln_lambda;
   V expectation_ln_pi; V N_comp; V nu0; V nu; M m0; M m; T S_; T W0;
   T inv_W0; T W; M x_mean_comp].

Definition mmembers : list NKMat := [expectation_gauss_exponent; r].

(** [_np.where(self.N_comp >= threshold)[0]], counting from index [k]. *)
Fixpoint where_ge (threshold : Q) (n : vector) (k : nat) : list nat :=
  match n with
  | [] => []
  | x :: rest =>
      if Qle_bool threshold x then k :: where_ge threshold rest (S k)
      else where_ge threshold rest (S k)
  end.

Definition components_to_survive (threshold : Q) (s : State) : list nat :=
  where_ge threshold (vec s N_comp) 0.

(** [a[k_new] = a[k_old]] *)
Definition move {A} (k_new k_old : nat) (a : list A) : result (list A) :=
  x ← index a k_old;
  setitem a k_new x.

(** [m = getattr(self, m); m[k_new] = m[k_old]] *)
Definition move_vmember (k_new k_old : nat) (mb : vmember) (s : State)
    : result State :=
  match mb with
  | V a => v ← move k_new k_old (vec s a); OK (set_vec a v s)
  | M a => x ← move k_new k_old (mat s a); OK (set_mat a x s)
  | T a => t ← move k_new k_old (tensor s a); OK (write_ten a t s)
  end.

(** [m = getattr(self, m); m[:, k_new] = m[:, k_old]] *)
Definition move_mmember (k_new k_old : nat) (a : NKMat) (s : State)
    : result State :=
  x ← mapM (move k_new k_old) (nk s a);
  OK (set_nk a x s).

(** The body of [for k_old in components_to_survive], with the counter
    [k_new] threaded along. *)
Definition shift_survivor (k_old : nat) (st : nat * State)
    : result (nat * State) :=
  let '(k_new, s) := st in
  s ← (if decide (k_old ≠ k_new)
       then s ← foldM (move_vmember k_new k_old) vmembers s;
            foldM (move_mmember k_new k_old) mmembers s
       else OK s);
  OK (S k_new, s).

(** [setattr(self, m, getattr(self, m)[:self.K])].  For an array object
    in the store the slice is a view of its first K entries; the tail
    stays out of reach of every attribute, so the object is cut. *)
Definition cut_vmember (mb : vmember) (s : State) : State :=
  match mb with
  | V a => set_vec a (take (K s) (vec s a)) s
  | M a => set_mat a (take (K s) (mat s a)) s
  | T a => write_ten a (take (K s) (tensor s a)) s
  end.

(** [setattr(self, m, getattr(self, m)[:, :self.K])] *)
Definition cut_mmember (a : NKMat) (s : State) : State :=
  set_nk a (map (take (K s)) (nk s a)) s.

(** Everything [prune] does before its closing [E_step]. *)
Definition compact (threshold : Q) (s : State) : result State :=
  let survivors := components_to_survive threshold s in
  let s := set_K (length survivors) s in
  '(_, s) ← foldM shift_survivor survivors (0, s);
  let s := foldl (fun s mb => cut_vmember mb s) s vmembers in
  OK (foldl (fun s a => cut_mmember a s) s mmembers).

Definition prune (threshold : Q) (s : State) : result State :=
  if Qeq_bool threshold 0 then OK s
  else s ← compact threshold s; E_step s.

(** *** The convergence loop *)

(** [likelihood_bound]: the sum of the seven closed-form expectation
    terms.  It reads the state and leaves it as it is, apart from its
    own result caches, which nothing else reads; [math.log] of a
    non-positive determinant raises. *)
Variable likelihood_bound : State -> result Q.

(** Which [return] of the loop body fires, if any. *)
Inductive verdict := exact | approximate | not_yet.

(** [abs(diff / bound) < rel_tol].  Both are [numpy.float64]: a positive
    [diff] over a zero [bound] is [inf], which is below no tolerance. *)
Definition rel_test (diff bound rel_tol : Q) : bool :=
  if Qeq_bool bound 0 then false else Qltb (Qabs (diff / bound)) rel_tol.

(** Lines 292-305 of [run]. *)
Definition convergence_test (bound old_bound rel_tol abs_tol : Q) : verdict :=
  if Qeq_bool bound old_bound then exact
  else
    let diff := (bound - old_bound)%Q in
    if Qltb 0 diff then
      if Qltb (Qabs bound) abs_tol then
        if Qltb (Qabs diff) abs_tol then approximate else not_yet
      else
        if rel_test diff bound rel_tol then approximate else not_yet
    else not_yet.

(** The loop variables: [old_K], the local [bound] (unbound before the
    first pass) and the engine. *)
Record loop_vars := {
  old_K : option nat;
  bound : option Q;
  self : State;
}.

(** Lines 276-281: the baseline [old_bound]. *)
Definition baseline (lv : loop_vars) : result Q :=
  if decide (Some (K (self lv)) = old_K lv)
  then match bound lv with
       | Some b => OK b
       | None => Raise (UnboundLocalError "bound")
       end
  else likelihood_bound (self lv).

Inductive outcome :=
| Return (i : nat) (how : verdict) (s : State)
| Next (lv : loop_vars).

(** One pass of the loop body, for the iteration count [i]. *)
Definition iteration (prune_ rel_tol abs_tol : Q) (i : nat) (lv : loop_vars)
    : result outcome :=
  old_bound ← baseline lv;
  s ← update (self lv);
  b ← likelihood_bound s;
  match convergence_test b old_bound rel_tol abs_tol with
  | not_yet =>
      let k := K s in
      s ← prune prune_ s;
      OK (Next {| old_K := Some k; bound := Some b; self := s |})
  | how => OK (Return i how s)
  end.

Fixpoint run_loop (prune_ rel_tol abs_tol : Q) (range : list nat)
    (lv : loop_vars) : result (option nat * State) :=
  match range with
  | [] => OK (None, self lv)
  | i :: rest =>
      o ← iteration prune_ rel_tol abs_tol i lv;
      match o with
      | Return i _ s => OK (Some i, s)
      | Next lv => run_loop prune_ rel_tol abs_tol rest lv
      end
  end.

(** [run(iterations, prune, rel_tol, abs_tol)]: the value returned and
    the engine as the call leaves it. *)
Definition run (iterations : nat) (prune_ rel_tol abs_tol : Q) (s : State)
    : result (option nat * State) :=
  run_loop prune_ rel_tol abs_tol (seq 1 iterations)
    {| old_K := None; bound := None; self := s |}.

(** *** The output builder *)

(** The accumulators of the loop of [make_mixture] and what it has
    printed so far. *)
Record builder := {
  b_components : list Gauss;
  b_weights : list Q;
  skipped : list nat;
  printed : list report;
}.

Definition skip (k : nat) (why : report) (b : builder) : builder :=
  {| b_components := b_components b; b_weights := b_weights b;
     skipped := skipped b ++ [k]; printed := printed b ++ [why] |}.

(** The [try] block: the scaled precision, its inverse, the component. *)
Definition mode_component (s : State) (k : nat) (nuk : Q) (w : matrix)
    : result Gauss :=
  cov ← inv (mscale (nuk - of_nat (dim s))%Q w);
  mk ← index (mat s m) k;
  OK {| mu := mk; sigma := cov |}.

(** The body of [for k, W in enumerate(self.W)]. *)
Definition make_component (s : State) (kw : nat * matrix) (b : builder)
    : result builder :=
  let '(k, w) := kw in
  ak ← index (vec s alpha) k;
  let pi_ := (ak - 1)%Q in
  if Qle_bool pi_ 0 then OK (skip k (zero_weight k) b)
  else
    nuk ← index (vec s nu) k;
    if Qle_bool nuk (of_nat (dim s)) then OK (skip k (mode_not_defined k) b)
    else
      match mode_component s k nuk w with
      | Raise error => OK (skip k (could_not_create k error) b)
      | OK g =>
          OK {| b_components := b_components b ++ [g];
                b_weights := b_weights b ++ [pi_];
                skipped := skipped b; printed := printed b |}
      end.

Definition make_mixture (s : State) : result (MixtureDensity * list report) :=
  b ← foldM (make_component s) (imap pair (tensor s W))
        {| b_components := []; b_weights := []; skipped := []; printed := [] |};
  OK ({| components := b_components b; weights := b_weights b |},
      match skipped b with
      | [] => printed b
      | ks => printed b ++ [have_been_skipped ks]
      end).

(** *** Construction *)

Definition _initialize_output (s : State) : State :=
  let s := set_mat x_mean_comp (repeat (zeros (dim s)) (K s)) s in
  let s := set_vec N_comp (zeros (K s)) s in
  let s := new_ten S_ (map (map (map (fun _ => 0%Q))) (tensor s W)) s in
  match source s with
  | Samples _ _ => s
  | Mixture mu _ _ =>
      set_nk expectation_gauss_exponent (repeat (zeros (K s)) (length mu)) s
  end.

(** An object none of whose attributes is set yet; the store holds the
    arrays of the caller. *)
Definition blank (components_ dim_ : nat) (src : Source) (h : store) : State :=
  {| K := components_; dim := dim_; source := src;
     vec := fun _ => []; mat := fun _ => []; ten := fun _ => 0; heap := h;
     nk := fun _ => []; inv_N_comp := []; log_rho := [] |}.


(** [GaussianInference.__init__(data, components, weights, **kwargs)] *)
Definition GaussianInference_init (data : matrix) (components_ : nat)
    (weights_ : option vector) (kw : kwargs) (h : store) : result State :=
  let n := length data in
  w ← match weights_ with
      | None => OK None
      | Some w =>
          if decide (length w = n)
          then OK (Some (map (fun x => (of_nat n * x / vsum w)%Q) w))
          else Raise (AssertionError
            "The number of samples (%s) does not match the number of weights (%s)")
      end;
  let s := blank components_ (length (hd [] data)) (Samples data w) h in
  s ← set_variational_parameters [] kw s;
  let s := _initialize_output s in
  let s := set_nk expectation_gauss_exponent (repeat (zeros (K s)) n) s in
  E_step s.


(** The loop variables after [n] passes of the loop body none of which
    returned or raised, that is, on entry to iteration [n + 1]. *)
Fixpoint passes (prune_ rel_tol abs_tol : Q) (n : nat) (s : State)
  : option loop_vars :=
  match n with
  | 0 => Some {| old_K := None; bound := None; self := s |}
  | S n' =>
      match passes prune_ rel_tol abs_tol n' s with
      | Some lv =>
          match iteration prune_ rel_tol abs_tol n lv with
          | OK (Next lv') => Some lv'
          | _ => None
          end
      | None => None
      end
  end.

(** The output mixture in the words of the spec (4.6): component [k] is
    in the mixture when its Dirichlet mode weight [alpha_k - 1] is
    positive, [nu_k > D] and [(nu_k - D) W_k] has an inverse; it then has
    that weight, the mean [m_k] and that inverse as covariance. *)
Definition mode_of (s : State) (kw : nat * matrix) : option (Gauss * Q) :=
  let '(k, w) := kw in
  ak ← vec s alpha !! k;
  nuk ← vec s nu !! k;
  mk ← mat s m !! k;
  if Qltb 0 (ak - 1) && Qltb (of_nat (dim s)) nuk
  then match inv (mscale (nuk - of_nat (dim s))%Q w) with
       | OK cov => Some ({| mu := mk; sigma := cov |}, (ak - 1)%Q)
       | Raise _ => None
       end
  else None.

Definition mode_mixture (s : State) : list (Gauss * Q) :=
  omap (mode_of s) (imap pair (tensor s W)).

(** The components that are not in it. *)
Definition left_out (s : State) : list nat :=
  omap (fun kw => match mode_of s kw with Some _ => None | None => Some kw.1 end)
    (imap pair (tensor s W)).







(** Compaction in the words of the spec: the entries of an array at the
    surviving indices, in the order of the indices. *)
Definition select {A} (ks : list nat) (a : list A) : list A :=
  omap (fun k => a !! k) ks.

(** Every per-component array has [n] entries, and the responsibilities
    and the exponents [n] columns. *)
Definition extent (n : nat) (s : State) : Prop :=
  (forall a, length (vec s a) = n) /\
  (forall a, length (mat s a) = n) /\
  (forall a, length (tensor s a) = n) /\
  (forall a, Forall (fun row => length row = n) (nk s a)).

(** The arrays have an entry, or a column, per component. *)
Definition aligned (s : State) : Prop := extent (K s) s.

(** The array that [S] is bound to is bound to no other attribute:
    [_initialize_output] creates it. *)
Definition S_private (s : State) : Prop :=
  forall a, a <> S_ -> ten s a <> ten s S_.

(** What one pass of the loop over the survivors does to one array. *)
Definition shift1 {A} (k_new k_old : nat) (a : list A) : list A :=
  if decide (k_old = k_new) then a
  else match a !! k_old with
       | Some x => <[k_new := x]> a
       | None => a
       end.

(** What the whole loop does to one array. *)
Fixpoint shift_all {A} (ks : list nat) (k_new : nat) (a : list A) : list A :=
  match ks with
  | [] => a
  | k_old :: ks => shift_all ks (S k_new) (shift1 k_new k_old a)
  end.

(** The state with a function applied to the arrays named in a list. *)
Definition app_vmember (f : forall A : Type, list A -> list A) (mb : vmember)
    (s : State) : State :=
  match mb with
  | V a => set_vec a (f _ (vec s a)) s
  | M a => set_mat a (f _ (mat s a)) s
  | T a => write_ten a (f _ (tensor s a)) s
  end.

Definition app_mmember (f : forall A : Type, list A -> list A) (a : NKMat)
    (s : State) : State :=
  set_nk a (map (f _) (nk s a)) s.

(** [s'] is [s] with [f] applied to every per-component array, along the
    component axis. *)
Definition arrays_map (f : forall A : Type, list A -> list A) (s s' : State) : Prop :=
  dim s' = dim s /\ source s' = source s /\ ten s' = ten s /\
  inv_N_comp s' = inv_N_comp s /\ log_rho s' = log_rho s /\
  (forall a, vec s' a = f _ (vec s a)) /\
  (forall a, mat s' a = f _ (mat s a)) /\
  (forall a, tensor s' a = f _ (tensor s a)) /\
  (forall a, nk s' a = map (f _) (nk s a)).


(** A list of indices in strictly ascending order, none below [k]. *)
Fixpoint ascending_from (k : nat) (ks : list nat) : Prop :=
  match ks with
  | [] => True
  | x :: ks => k <= x /\ ascending_from (S x) ks
  end.


(** * Properties *)

(** ** The error monad and comparisons *)

Lemma bind_OK {A B} (c : result A) (k : A -> result B) b :
  c ≫= k = OK b -> exists a, c = OK a /\ k a = OK b.
Proof. destruct c as [a|e]; simpl; [eauto | discriminate]. Qed.

Lemma mapM_OK_Forall2 {A B} (f : A -> result B) xs ys :
  mapM f xs = OK ys -> Forall2 (fun x y => f x = OK y) xs ys.
Proof.
  revert ys; induction xs as [|x xs IH]; simpl; intros ys H.
  - injection H as <-. constructor.
  - apply bind_OK in H as (y & Hy & H).
    apply bind_OK in H as (ys' & Hys & H). injection H as <-.
    constructor; auto.
Qed.

Lemma mapM_length {A B} (f : A -> result B) xs ys :
  mapM f xs = OK ys -> length ys = length xs.
Proof. intros H. apply mapM_OK_Forall2 in H. symmetry. eapply Forall2_length, H. Qed.

Lemma Qltb_lt x y : Qltb x y = true <-> (x < y)%Q.
Proof.
  unfold Qltb. rewrite negb_true_iff, <- not_true_iff_false, Qle_bool_iff.
  split; [apply Qnot_le_lt | apply Qlt_not_le].
Qed.

Lemma Qltb_ge x y : Qltb x y = false <-> (y <= x)%Q.
Proof. unfold Qltb. rewrite negb_false_iff. apply Qle_bool_iff. Qed.

Lemma Qeqb_eq x y : Qeq_bool x y = true <-> (x == y)%Q.
Proof. apply Qeq_bool_iff. Qed.

Lemma Qeqb_neq x y : Qeq_bool x y = false <-> ~ (x == y)%Q.
Proof. rewrite <- Qeq_bool_iff. destruct (Qeq_bool x y); intuition congruence. Qed.

(** ** The convergence loop *)

Section Loop.

Variables prune_ rel_tol abs_tol : Q.

Lemma run_loop_passes n k s lv :
  passes prune_ rel_tol abs_tol n s = Some lv ->
  run (n + k) prune_ rel_tol abs_tol s
  = run_loop prune_ rel_tol abs_tol (seq (S n) k) lv.
Proof.
  revert k lv. induction n as [|n IH]; intros k lv H.
  - simpl in H. injection H as <-. reflexivity.
  - simpl in H.
    destruct (passes prune_ rel_tol abs_tol n s) as [lv0|] eqn:E0; [|discriminate].
    destruct (iteration prune_ rel_tol abs_tol (S n) lv0) as [[|lv1]|] eqn:E1;
      try discriminate.
    injection H as <-.
    replace (S n + k) with (n + S k) by lia.
    rewrite (IH (S k) lv0 eq_refl). simpl. rewrite E1. reflexivity.
Qed.

(** The local [bound] is bound whenever [old_K] is a number: it is never
    read before it is assigned. *)
Lemma passes_bound n s lv :
  passes prune_ rel_tol abs_tol n s = Some lv ->
  match old_K lv with
  | None => n = 0 /\ self lv = s
  | Some _ => is_Some (bound lv)
  end.
Proof.
  destruct n as [|n]; simpl.
  - intros [= <-]. simpl. auto.
  - destruct (passes prune_ rel_tol abs_tol n s) as [lv0|]; [|discriminate].
    unfold iteration.
    destruct (baseline lv0) as [ob|]; simpl; [|discriminate].
    destruct (update (self lv0)) as [s1|]; simpl; [|discriminate].
    destruct (likelihood_bound s1) as [b|]; simpl; [|discriminate].
    destruct (convergence_test b ob rel_tol abs_tol); simpl; try discriminate.
    destruct (prune prune_ s1) as [s2|]; simpl; [|discriminate].
    intros [= <-]. simpl. eauto.
Qed.


Lemma iteration_eq i lv ob s1 b :
  baseline lv = OK ob ->
  update (self lv) = OK s1 ->
  likelihood_bound s1 = OK b ->
  iteration prune_ rel_tol abs_tol i lv
  = match convergence_test b ob rel_tol abs_tol with
    | not_yet =>
        s ← prune prune_ s1;
        OK (Next {| old_K := Some (K s1); bound := Some b; self := s |})
    | how => OK (Return i how s1)
    end.
Proof.
  intros Hob Hs1 Hb. unfold iteration. rewrite Hob. cbn. rewrite Hs1. cbn.
  rewrite Hb. reflexivity.
Qed.

Lemma convergence_test_approximate b ob :
  convergence_test b ob rel_tol abs_tol = approximate
  <-> (0 < b - ob
       /\ ((Qabs b < abs_tol /\ Qabs (b - ob) < abs_tol)
           \/ (abs_tol <= Qabs b /\ ~ b == 0 /\ Qabs ((b - ob) / b) < rel_tol)))%Q.
Proof.
  unfold convergence_test, rel_test.
  destruct (Qeq_bool b ob) eqn:Eeq.
  { apply Qeqb_eq in Eeq. split; [discriminate|]. intros [Hd _]. lra. }
  destruct (Qltb 0 (b - ob)) eqn:Ed.
  2:{ apply Qltb_ge in Ed. split; [discriminate|]. intros [Hd _]. lra. }
  apply Qltb_lt in Ed.
  destruct (Qltb (Qabs b) abs_tol) eqn:Ea.
  - apply Qltb_lt in Ea.
    destruct (Qltb (Qabs (b - ob)) abs_tol) eqn:Eb.
    + apply Qltb_lt in Eb. split; auto.
    + apply Qltb_ge in Eb. split; [discriminate|].
      intros [_ [[_ H]|[H _]]]; exfalso; lra.
  - apply Qltb_ge in Ea.
    destruct (Qeq_bool b 0) eqn:Ez.
    + apply Qeqb_eq in Ez. split; [discriminate|].
      intros [_ [[H _]|[_ [H _]]]]; [exfalso; lra | contradiction].
    + apply Qeqb_neq in Ez.
      destruct (Qltb (Qabs ((b - ob) / b)) rel_tol) eqn:Er.
      * apply Qltb_lt in Er. split; auto 6.
      * apply Qltb_ge in Er. split; [discriminate|].
        intros [_ [[H _]|[_ [_ H]]]]; exfalso; lra.
Qed.

(** C1 (amended). In [run], approximate convergence is declared at
    iteration [i] exactly when the bound increased ([diff = new bound -
    baseline > 0]) and either the new bound is within [abs_tol] of zero and
    [|diff| < abs_tol], or the new bound is not within [abs_tol] of zero and
    [|diff / new bound| < rel_tol] (a new bound of zero never passes the
    relative test).  The tests look at the bound computed after the update
    of iteration [i], not at the baseline, and the relative test is tried
    only when the absolute one does not apply. *)
Theorem approximate_convergence_rule i lv ob s1 b :
  baseline lv = OK ob ->
  update (self lv) = OK s1 ->
  likelihood_bound s1 = OK b ->
  iteration prune_ rel_tol abs_tol i lv = OK (Return i approximate s1)
  <-> (0 < b - ob
       /\ ((Qabs b < abs_tol /\ Qabs (b - ob) < abs_tol)
           \/ (abs_tol <= Qabs b /\ ~ b == 0 /\ Qabs ((b - ob) / b) < rel_tol)))%Q.
Proof.
  intros Hob Hs1 Hb.
  rewrite (iteration_eq i lv ob s1 b Hob Hs1 Hb), <- convergence_test_approximate.
  destruct (convergence_test b ob rel_tol abs_tol); split; try congruence.
  destruct (prune prune_ s1); discriminate.
Qed.


(** C6. [run] returns the iteration count [i], with [1 <= i <=
    iterations], when in iteration [i] the new bound equals the baseline;
    and when in every iteration the calls return and no convergence
    condition is met, [run] returns [None]. *)
Theorem run_returns iterations s :
  (forall i lv ob s1 b,
     1 <= i <= iterations ->
     passes prune_ rel_tol abs_tol (i - 1) s = Some lv ->
     baseline lv = OK ob ->
     update (self lv) = OK s1 ->
     likelihood_bound s1 = OK b ->
     (b == ob)%Q ->
     run iterations prune_ rel_tol abs_tol s = OK (Some i, s1))
  /\ ((forall i lv,
        1 <= i <= iterations ->
        passes prune_ rel_tol abs_tol (i - 1) s = Some lv ->
        exists ob s1 b s2,
          baseline lv = OK ob /\ update (self lv) = OK s1 /\
          likelihood_bound s1 = OK b /\
          convergence_test b ob rel_tol abs_tol = not_yet /\
          prune prune_ s1 = OK s2) ->
      exists s', run iterations prune_ rel_tol abs_tol s = OK (None, s')).
Proof.
  split.
  - intros i lv ob s1 b Hi Hlv Hob Hs1 Hb Heq.
    destruct i as [|n]; [lia|]. replace (S n - 1) with n in Hlv by lia.
    replace iterations with (n + S (iterations - S n)) by lia.
    rewrite (run_loop_passes n _ s lv Hlv). simpl.
    rewrite (iteration_eq (S n) lv ob s1 b Hob Hs1 Hb).
    unfold convergence_test. apply Qeqb_eq in Heq. rewrite Heq. reflexivity.
  - intros H.
    assert (Hall : forall n, n <= iterations ->
              exists lv, passes prune_ rel_tol abs_tol n s = Some lv).
    { induction n as [|n IH]; intros Hn; [simpl; eauto|].
      destruct IH as [lv Hlv]; [lia|].
      destruct (H (S n) lv) as (ob & s1 & b & s2 & Hob & Hs1 & Hb & Ht & Hp).
      { lia. } { replace (S n - 1) with n by lia. exact Hlv. }
      simpl. rewrite Hlv, (iteration_eq (S n) lv ob s1 b Hob Hs1 Hb), Ht, Hp.
      simpl. eauto. }
    destruct (Hall iterations) as [lv Hlv]; [lia|].
    exists (self lv). replace iterations with (iterations + 0) at 1 by lia.
    rewrite (run_loop_passes iterations 0 s lv Hlv). reflexivity.
Qed.


End Loop.
(** ** Parameter validation *)

Lemma check_K_vector_len h k name x min :
  length x <> k ->
  _check_K_vector h k name (Nd1 x) min
  = Raise (ValueError "len(%s)=%d does not match K=%d"
             [AStr name; AInt (length x); AInt k]).
Proof.
  intros H. unfold _check_K_vector. cbn.
  destruct (Nat.eqb_spec (length x) k); [contradiction | reflexivity].
Qed.

Lemma forallb_Qltb_false min x :
  Exists (fun e => e <= min)%Q x -> forallb (Qltb min) x = false.
Proof.
  induction 1 as [e x He|e x _ IH]; simpl.
  - apply Qltb_ge in He. rewrite He. reflexivity.
  - rewrite IH. apply andb_false_r.
Qed.

Lemma check_K_vector_min h k name x min :
  length x = k -> Exists (fun e => e <= min)%Q x ->
  _check_K_vector h k name (Nd1 x) min
  = Raise (ValueError "All elements of %s must exceed %g. %s=%s"
             [AStr name; ANum min; AStr name; AVec x]).
Proof.
  intros H Hx. unfold _check_K_vector. cbn.
  rewrite (proj2 (Nat.eqb_eq _ _) H). cbn.
  rewrite (forallb_Qltb_false _ _ Hx). reflexivity.
Qed.

Lemma check_K_vector_ok h k name x min :
  length x = k -> Forall (fun e => min < e)%Q x ->
  _check_K_vector h k name (Nd1 x) min = OK x.
Proof.
  intros H Hx. unfold _check_K_vector. cbn.
  rewrite (proj2 (Nat.eqb_eq _ _) H). cbn.
  replace (forallb (Qltb min) x) with true; [reflexivity|].
  symmetry. apply forallb_forall. intros e He.
  apply Qltb_lt. rewrite Forall_forall in Hx. apply Hx.
  apply list_elem_of_In. exact He.
Qed.

Lemma pop_absent name dflt (kw : kwargs) :
  kw !! name = None -> pop name dflt kw = (dflt, kw).
Proof. intros H. unfold pop. rewrite H. simpl. f_equal. apply delete_id, H. Qed.

Lemma prior_K_vector_default name dflt min s (kw : kwargs) :
  kw !! name = None -> (min < dflt)%Q ->
  prior_K_vector name dflt min s kw = OK (repeat dflt (K s), kw).
Proof.
  intros H Hd. unfold prior_K_vector. rewrite (pop_absent _ _ _ H).
  cbn -[_check_K_vector].
  rewrite check_K_vector_ok; [reflexivity | apply repeat_length |].
  apply Forall_forall. intros e He. apply list_elem_of_In, repeat_spec in He.
  subst. exact Hd.
Qed.

Lemma posterior_K_vector_default name prior min s (kw : kwargs) :
  kw !! name = None -> length prior = K s -> Forall (fun e => min < e)%Q prior ->
  posterior_K_vector name prior min s kw = OK (prior, kw).
Proof.
  intros H Hl Hp. unfold posterior_K_vector. rewrite (pop_absent _ _ _ H).
  rewrite check_K_vector_ok; auto.
Qed.

(** The error [_check_K_vector] raises for a vector [x] that does not
    have [k] entries, all above [min]. *)
Definition K_vector_error (k : nat) (name : string) (min : Q) (x : vector) : exn :=
  if length x =? k
  then ValueError "All elements of %s must exceed %g. %s=%s"
         [AStr name; ANum min; AStr name; AVec x]
  else ValueError "len(%s)=%d does not match K=%d"
         [AStr name; AInt (length x); AInt k].

Definition offending (k : nat) (min : Q) (x : vector) : Prop :=
  length x <> k \/ Exists (fun e => e <= min)%Q x.

Lemma check_K_vector_offending h k name x min :
  offending k min x ->
  _check_K_vector h k name (Nd1 x) min = Raise (K_vector_error k name min x).
Proof.
  intros Hx. unfold K_vector_error.
  destruct (Nat.eqb_spec (length x) k) as [E|E].
  - destruct Hx as [Hx|Hx]; [contradiction|]. apply check_K_vector_min; auto.
  - apply check_K_vector_len, E.
Qed.

Lemma prior_K_vector_offending name dflt min s (kw : kwargs) x :
  kw !! name = Some (Nd1 x) -> offending (K s) min x ->
  prior_K_vector name dflt min s kw = Raise (K_vector_error (K s) name min x).
Proof.
  intros H Hx. unfold prior_K_vector, pop. rewrite H. cbn -[_check_K_vector].
  rewrite check_K_vector_offending; auto.
Qed.

Lemma posterior_K_vector_offending name prior min s (kw : kwargs) x :
  kw !! name = Some (Nd1 x) -> offending (K s) min x ->
  posterior_K_vector name prior min s kw = Raise (K_vector_error (K s) name min x).
Proof.
  intros H Hx. unfold posterior_K_vector, pop. rewrite H. cbn -[_check_K_vector].
  rewrite check_K_vector_offending; auto.
Qed.

(** The six vectors that [set_variational_parameters] checks, in the order
    of the checks, each with the bound its entries must exceed. *)
Definition K_vector_params (s : State) : list (string * Q) :=
  [("alpha0", 0%Q); ("alpha", 0%Q); ("beta0", 0%Q); ("beta", 0%Q);
   ("nu0", (of_nat (dim s) - 1)%Q); ("nu", (of_nat (dim s) - 1)%Q)].

Lemma Forall_repeat_lt (min x : Q) n :
  (min < x)%Q -> Forall (fun e => min < e)%Q (repeat x n).
Proof.
  intros H. apply Forall_forall. intros e He.
  apply list_elem_of_In, repeat_spec in He. subst. exact H.
Qed.

Ltac svp_step :=
  cbn -[prior_K_vector posterior_K_vector m0_param m_param check_mean_shape
       W0_param W_param].

Lemma set_variational_parameters_offending s (kw : kwargs) pre name min post x :
  K_vector_params s = pre ++ (name, min) :: post ->
  (forall n, n ∈ pre.*1 -> kw !! n = None) ->
  kw !! name = Some (Nd1 x) ->
  offending (K s) min x ->
  set_variational_parameters [] kw s = Raise (K_vector_error (K s) name min x).
Proof.
  intros Hp Hpre Hn Hx. unfold set_variational_parameters. svp_step.
  assert (H5 : (0 < 1 # 100000)%Q) by reflexivity.
  assert (Hnu : (of_nat (dim s) - 1 < of_nat (dim s) - 1 + (1 # 100000))%Q) by lra.
  unfold K_vector_params in Hp.
  destruct pre as [|p1 pre]; simplify_eq/=.
  { rewrite (prior_K_vector_offending _ _ _ _ _ _ Hn Hx). reflexivity. }
  rewrite prior_K_vector_default by (auto; apply Hpre; set_solver). svp_step.
  destruct pre as [|p2 pre]; simplify_eq/=.
  { rewrite (posterior_K_vector_offending _ _ _ _ _ _ Hn Hx). reflexivity. }
  rewrite posterior_K_vector_default
    by (try apply repeat_length; try apply Forall_repeat_lt; auto;
        apply Hpre; set_solver). svp_step.
  destruct pre as [|p3 pre]; simplify_eq/=.
  { rewrite (prior_K_vector_offending _ _ _ _ _ _ Hn Hx). reflexivity. }
  rewrite prior_K_vector_default by (auto; apply Hpre; set_solver). svp_step.
  destruct pre as [|p4 pre]; simplify_eq/=.
  { rewrite (posterior_K_vector_offending _ _ _ _ _ _ Hn Hx). reflexivity. }
  rewrite posterior_K_vector_default
    by (try apply repeat_length; try apply Forall_repeat_lt; auto;
        apply Hpre; set_solver). svp_step.
  destruct pre as [|p5 pre]; simplify_eq/=.
  { rewrite (prior_K_vector_offending _ _ _ _ _ _ Hn Hx). reflexivity. }
  rewrite prior_K_vector_default by (auto; apply Hpre; set_solver). svp_step.
  destruct pre as [|p6 pre]; simplify_eq/=.
  { rewrite (posterior_K_vector_offending _ _ _ _ _ _ Hn Hx). reflexivity. }
  destruct pre; discriminate.
Qed.


(** C5. Validation fails with an error that names the offending array: a
    vector whose length differs from K is rejected with its name, its
    length and K; a vector of length K with an entry that does not exceed
    the bound (0 for [alpha0], [alpha], [beta0], [beta]; [D - 1] for [nu0],
    [nu]) is rejected with its name.  So it is at each of the six checks of
    [set_variational_parameters], and an [alpha0] of a wrong length fails
    the construction that way. *)
Theorem validation_names_offending_array :
  (forall h k name x min,
     length x <> k ->
     _check_K_vector h k name (Nd1 x) min
     = Raise (ValueError "len(%s)=%d does not match K=%d"
                [AStr name; AInt (length x); AInt k]))
  /\ (forall h k name x min,
        length x = k -> Exists (fun e => e <= min)%Q x ->
        _check_K_vector h k name (Nd1 x) min
        = Raise (ValueError "All elements of %s must exceed %g. %s=%s"
                   [AStr name; ANum min; AStr name; AVec x]))
  /\ (forall s (kw : kwargs) pre name min post x,
        K_vector_params s = pre ++ (name, min) :: post ->
        (forall n, n ∈ pre.*1 -> kw !! n = None) ->
        kw !! name = Some (Nd1 x) ->
        offending (K s) min x ->
        set_variational_parameters [] kw s
        = Raise (K_vector_error (K s) name min x))
  /\ (forall data k weights_ (kw : kwargs) h x,
        (forall w, weights_ = Some w -> length w = length data) ->
        kw !! "alpha0" = Some (Nd1 x) ->
        length x <> k ->
        GaussianInference_init data k weights_ kw h
        = Raise (ValueError "len(%s)=%d does not match K=%d"
                   [AStr "alpha0"; AInt (length x); AInt k])).
Proof.
  split; [exact check_K_vector_len|].
  split; [exact check_K_vector_min|].
  split; [exact set_variational_parameters_offending|].
  intros data k weights_ kw h x Hw Hkw Hx.
  unfold GaussianInference_init.
  assert (E : forall s, K s = k ->
            set_variational_parameters [] kw s
            = Raise (ValueError "len(%s)=%d does not match K=%d"
                       [AStr "alpha0"; AInt (length x); AInt k])).
  { intros s Hk.
    rewrite (set_variational_parameters_offending s kw [] "alpha0" 0%Q _ x eq_refl);
      auto.
    - unfold K_vector_error. rewrite Hk.
      destruct (Nat.eqb_spec (length x) k); [contradiction | reflexivity].
    - intros n Hn. inversion Hn.
    - left. congruence. }
  destruct weights_ as [w|]; cbn -[set_variational_parameters].
  - destruct (decide (length w = length data)) as [_|Hne];
      [|destruct Hne; auto].
    cbn -[set_variational_parameters]. rewrite E; reflexivity.
  - rewrite E; reflexivity.
Qed.


Lemma posterior_K_vector_float name prior min s (kw : kwargs) x :
  kw !! name = Some (PyFloat x) ->
  posterior_K_vector name prior min s kw = Raise (AttributeError "shape").
Proof. intros H. unfold posterior_K_vector, pop. rewrite H. reflexivity. Qed.

(** C4, at the inputs where the code departs from it.  A float passed for
    a posterior vector ([alpha], [beta] or [nu]) is not promoted to K
    entries: [_check_K_vector] asks for the [shape] that a float does not
    have.  A single D-vector passed for the posterior mean [m] is not
    stacked into K rows: its shape is compared with [(K, D)] as it is. *)
Theorem posterior_values_not_broadcast :
  (forall s x,
     set_variational_parameters [] {["alpha" := PyFloat x]} s
     = Raise (AttributeError "shape"))
  /\ (forall s x,
        set_variational_parameters [] {["beta" := PyFloat x]} s
        = Raise (AttributeError "shape"))
  /\ (forall s x,
        set_variational_parameters [] {["nu" := PyFloat x]} s
        = Raise (AttributeError "shape"))
  /\ (forall x,
        set_variational_parameters [] {["m" := Nd1 [x]]}
          (blank 2 1 (Samples [[0%Q]; [1%Q]] None) [])
        = Raise (ValueError "Shape of %s %s does not match (K,d)=%s"
                   [AStr "m"; AShape [1]; AShape [2; 1]])).
Proof.
  assert (H5 : (0 < 1 # 100000)%Q) by reflexivity.
  assert (Hnu : forall s,
            (of_nat (dim s) - 1 < of_nat (dim s) - 1 + (1 # 100000))%Q)
    by (intros; lra).
  split; [|split; [|split]]; intros.
  - unfold set_variational_parameters. svp_step.
    rewrite prior_K_vector_default by (auto; apply lookup_singleton_ne; discriminate).
    svp_step.
    rewrite (posterior_K_vector_float _ _ _ _ _ x)
      by (apply lookup_singleton_eq).
    reflexivity.
  - unfold set_variational_parameters. svp_step.
    rewrite prior_K_vector_default by (auto; apply lookup_singleton_ne; discriminate).
    svp_step.
    rewrite posterior_K_vector_default
      by (try apply repeat_length; try apply Forall_repeat_lt; auto;
          apply lookup_singleton_ne; discriminate).
    svp_step.
    rewrite prior_K_vector_default by (auto; apply lookup_singleton_ne; discriminate).
    svp_step.
    rewrite (posterior_K_vector_float _ _ _ _ _ x)
      by (apply lookup_singleton_eq).
    reflexivity.
  - unfold set_variational_parameters. svp_step.
    rewrite prior_K_vector_default by (auto; apply lookup_singleton_ne; discriminate).
    svp_step.
    rewrite posterior_K_vector_default
      by (try apply repeat_length; try apply Forall_repeat_lt; auto;
          apply lookup_singleton_ne; discriminate).
    svp_step.
    rewrite prior_K_vector_default by (auto; apply lookup_singleton_ne; discriminate).
    svp_step.
    rewrite posterior_K_vector_default
      by (try apply repeat_length; try apply Forall_repeat_lt; auto;
          apply lookup_singleton_ne; discriminate).
    svp_step.
    rewrite prior_K_vector_default by (auto; apply lookup_singleton_ne; discriminate).
    svp_step.
    rewrite (posterior_K_vector_float _ _ _ _ _ x)
      by (apply lookup_singleton_eq).
    reflexivity.
  - vm_compute. reflexivity.
Qed.

(** The sibling paths do broadcast: a float [alpha0] becomes K entries, a
    single D-vector [m0] becomes K rows, and the default [W0] K copies. *)
Example prior_values_broadcast :
  match set_variational_parameters []
          (<["alpha0" := PyFloat 3%Q]> {["m0" := Nd1 [5%Q]]})
          (blank 2 1 (Samples [[0%Q]; [1%Q]] None) []) with
  | OK s => vec s alpha0 = [3%Q; 3%Q] /\ mat s m0 = [[5%Q]; [5%Q]]
            /\ tensor s W0 = [[[1%Q]]; [[1%Q]]]
  | Raise _ => False
  end.
Proof. vm_compute. auto. Qed.


(** ** The output builder *)

Lemma Qle_bool_ltb x y : Qle_bool x y = negb (Qltb y x).
Proof. unfold Qltb. rewrite negb_involutive. reflexivity. Qed.

Lemma make_component_spec s k w b :
  k < length (vec s alpha) -> k < length (vec s nu) ->
  exists b',
    make_component s (k, w) b = OK b' /\
    match mode_of s (k, w) with
    | Some (g, q) =>
        b_components b' = b_components b ++ [g] /\
        b_weights b' = b_weights b ++ [q] /\
        skipped b' = skipped b /\ printed b' = printed b
    | None =>
        b_components b' = b_components b /\ b_weights b' = b_weights b /\
        skipped b' = skipped b ++ [k] /\
        exists why, printed b' = printed b ++ [why]
    end.
Proof.
  intros Ha Hn.
  apply lookup_lt_is_Some in Ha as [ak Hak], Hn as [nuk Hnuk].
  unfold make_component, mode_of, index, mode_component, index. cbn.
  rewrite !Hak, !Hnuk. cbn. rewrite !Qle_bool_ltb.
  destruct (mat s m !! k) as [mk|] eqn:Em; cbn;
    destruct (Qltb 0 (ak - 1)); cbn; eauto 10;
    destruct (Qltb (of_nat (dim s)) nuk); cbn; eauto 10;
    destruct (inv (mscale (nuk - of_nat (dim s)) w)) as [cov|e]; cbn; eauto 10.
Qed.

Lemma make_mixture_loop s l b :
  Forall (fun kw : nat * matrix =>
            kw.1 < length (vec s alpha) /\ kw.1 < length (vec s nu)) l ->
  exists b',
    foldM (make_component s) l b = OK b' /\
    b_components b' = b_components b ++ (omap (mode_of s) l).*1 /\
    b_weights b' = b_weights b ++ (omap (mode_of s) l).*2 /\
    skipped b' = skipped b
      ++ omap (fun kw => match mode_of s kw with
                         | Some _ => None | None => Some kw.1 end) l /\
    length (printed b') = length (printed b)
      + length (omap (fun kw => match mode_of s kw with
                                | Some _ => None | None => Some kw.1 end) l).
Proof.
  intros Hl. revert b. induction Hl as [|[k w] l [Ha Hn] Hl IH]; intros b.
  - exists b. cbn. rewrite !app_nil_r. auto.
  - destruct (make_component_spec s k w b Ha Hn) as (b1 & E1 & H1).
    destruct (IH b1) as (b' & E' & Hc & Hw & Hs & Hp).
    exists b'. cbn [foldM]. rewrite E1. split; [exact E'|].
    rewrite Hc, Hw, Hs, Hp. cbn -[mode_of].
    destruct (mode_of s (k, w)) as [[g q]|].
    + destruct H1 as (-> & -> & -> & ->). cbn -[mode_of].
      rewrite <- !app_assoc. auto.
    + destruct H1 as (-> & -> & -> & why & ->). cbn -[mode_of].
      rewrite <- !app_assoc, length_app. cbn -[mode_of]. repeat split; auto. lia.
Qed.

(** C9. [make_mixture] puts component [k] into the mixture if and only if
    [alpha_k - 1 > 0], [nu_k > D] and [(nu_k - D) W_k] has an inverse; a
    component that is in has the weight [alpha_k - 1], the mean [m_k] and
    that inverse as covariance; every other component is reported and left
    out, and the call returns. *)
Theorem make_mixture_mode s :
  length (tensor s W) <= length (vec s alpha) ->
  length (tensor s W) <= length (vec s nu) ->
  exists mix out,
    make_mixture s = OK (mix, out) /\
    components mix = (mode_mixture s).*1 /\
    weights mix = (mode_mixture s).*2 /\
    (forall g q,
       (g, q) ∈ mode_mixture s <->
       exists k w ak nuk mk cov,
         tensor s W !! k = Some w /\ vec s alpha !! k = Some ak /\
         vec s nu !! k = Some nuk /\ mat s m !! k = Some mk /\
         (0 < ak - 1)%Q /\ (of_nat (dim s) < nuk)%Q /\
         inv (mscale (nuk - of_nat (dim s))%Q w) = OK cov /\
         g = {| mu := mk; sigma := cov |} /\ q = (ak - 1)%Q) /\
    (left_out s <> [] -> last out = Some (have_been_skipped (left_out s))) /\
    length out = length (left_out s) + (if left_out s is [] then 0 else 1).
Proof.
  intros Ha Hn.
  destruct (make_mixture_loop s (imap pair (tensor s W))
              {| b_components := []; b_weights := []; skipped := [];
                 printed := [] |})
    as (b & E & Hc & Hw & Hs & Hp).
  { apply Forall_forall. intros [k w] Hin.
    apply list_elem_of_lookup in Hin as [i Hi].
    rewrite list_lookup_imap in Hi.
    destruct (tensor s W !! i) as [w'|] eqn:Ei; [|discriminate].
    cbn in Hi. injection Hi as <- <-. apply lookup_lt_Some in Ei. cbn. lia. }
  cbn in Hc, Hw, Hs, Hp.
  eexists _, _. unfold make_mixture. rewrite E. cbn.
  split; [reflexivity|]. cbn. fold (left_out s) in Hs, Hp.
  split; [exact Hc|]. split; [exact Hw|]. split; [|split].
  - intros g q. unfold mode_mixture. rewrite list_elem_of_omap. split.
    + intros ([k w] & Hin & Hm).
      apply list_elem_of_lookup in Hin as [i Hi].
      rewrite list_lookup_imap in Hi.
      destruct (tensor s W !! i) as [w'|] eqn:Ei; [|discriminate].
      cbn in Hi. injection Hi as <- <-.
      unfold mode_of in Hm.
      destruct (vec s alpha !! i) as [ak|] eqn:Eak; [|discriminate].
      destruct (vec s nu !! i) as [nuk|] eqn:Enuk; [|discriminate].
      destruct (mat s m !! i) as [mk|] eqn:Emk; [|discriminate]. cbn in Hm.
      destruct (Qltb 0 (ak - 1)) eqn:E1; [|discriminate].
      destruct (Qltb (of_nat (dim s)) nuk) eqn:E2; [|discriminate]. cbn in Hm.
      destruct (inv (mscale (nuk - of_nat (dim s)) w')) as [cov|] eqn:E3;
        [|discriminate].
      injection Hm as <- <-. apply Qltb_lt in E1, E2.
      exists i, w', ak, nuk, mk, cov. repeat split; auto.
    + intros (k & w & ak & nuk & mk & cov & Hw' & Hak & Hnuk & Hmk & H1 & H2
              & H3 & -> & ->).
      exists (k, w). split.
      * apply list_elem_of_lookup. exists k. rewrite list_lookup_imap, Hw'.
        reflexivity.
      * unfold mode_of. rewrite Hak, Hnuk, Hmk. cbn.
        apply Qltb_lt in H1, H2. rewrite H1, H2. cbn. rewrite H3. reflexivity.
  - intros Hne. rewrite Hs. destruct (left_out s); [contradiction|].
    apply last_snoc.
  - rewrite Hs. destruct (left_out s) as [|k ks] eqn:El.
    + rewrite Hp. reflexivity.
    + rewrite length_app, Hp. cbn. lia.
Qed.


(** ** What each update writes *)

Lemma det_ln_lambda_writes s s1 :
  _update_expectation_det_ln_lambda s = OK s1 ->
  exists v, s1 = set_vec expectation_det_ln_lambda v s.
Proof.
  unfold _update_expectation_det_ln_lambda.
  destruct (negb _); [discriminate|]. intros H.
  apply bind_OK in H as (v & _ & [= <-]). eauto.
Qed.

Lemma foldM_invariant {A St} (P : St -> Prop) (body : A -> St -> result St)
    xs st st' :
  (forall x a b, P a -> body x a = OK b -> P b) ->
  P st -> foldM body xs st = OK st' -> P st'.
Proof.
  intros Hstep. revert st. induction xs as [|x xs IH]; cbn; intros st HP H.
  - injection H as <-. exact HP.
  - apply bind_OK in H as (st1 & H1 & H). eauto.
Qed.

Lemma setitem_length {A} (a : list A) k x a' :
  setitem a k x = OK a' -> length a' = length a.
Proof.
  unfold setitem. case_decide; [|discriminate]. intros [= <-].
  apply length_insert.
Qed.

Lemma setitem2_length a n k x a' :
  setitem2 a n k x = OK a' -> length a' = length a.
Proof.
  unfold setitem2. intros H.
  apply bind_OK in H as (row & _ & H).
  apply bind_OK in H as (row' & _ & H). eapply setitem_length, H.
Qed.

Lemma bcast_into_length f row v row' :
  bcast_into f row v = OK row' -> length row' = length row.
Proof.
  unfold bcast_into. case_decide as E.
  - intros [= <-]. rewrite length_zip_with. lia.
  - destruct v as [|y [|z v]]; try discriminate. intros [= <-].
    apply length_map.
Qed.

Lemma gauss_exponent_writes s s1 :
  _update_expectation_gauss_exponent s = OK s1 ->
  exists e, s1 = set_nk expectation_gauss_exponent e s /\
            length e = length (nk s expectation_gauss_exponent).
Proof.
  unfold _update_expectation_gauss_exponent. destruct (source s); intros H.
  - apply bind_OK in H as (_ & _ & H).
    apply bind_OK in H as (e & He & [= <-]). exists e. split; [reflexivity|].
    revert He.
    apply (foldM_invariant
             (fun e => length e = length (nk s expectation_gauss_exponent)));
      [|reflexivity].
    intros k a b Ha.
    apply (foldM_invariant
             (fun e => length e = length (nk s expectation_gauss_exponent)));
      [|exact Ha].
    intros n a' b' Ha' Hb.
    apply bind_OK in Hb as (? & _ & Hb). apply bind_OK in Hb as (? & _ & Hb).
    apply bind_OK in Hb as (? & _ & Hb). apply bind_OK in Hb as (? & _ & Hb).
    apply bind_OK in Hb as (? & _ & Hb).
    apply setitem2_length in Hb. congruence.
  - apply bind_OK in H as (e & He & [= <-]). exists e. split; [reflexivity|].
    revert He.
    apply (foldM_invariant
             (fun e => length e = length (nk s expectation_gauss_exponent)));
      [|reflexivity].
    intros [k wk] a b Ha.
    apply (foldM_invariant
             (fun e => length e = length (nk s expectation_gauss_exponent)));
      [|exact Ha].
    intros [l [mul sigmal]] a' b' Ha' Hb.
    apply bind_OK in Hb as (? & _ & Hb). apply bind_OK in Hb as (? & _ & Hb).
    apply bind_OK in Hb as (? & _ & Hb).
    apply setitem2_length in Hb. congruence.
Qed.

Lemma log_rho_writes s s1 :
  _update_log_rho s = OK s1 ->
  exists lr, s1 = set_log_rho lr s /\
             length lr = length (nk s expectation_gauss_exponent).
Proof.
  unfold _update_log_rho.
  destruct (source s) as [data w|mu_ sigma_ Nomega]; intros H.
  - apply bind_OK in H as (lr1 & H1 & H).
    apply bind_OK in H as (lr2 & H2 & [= <-]).
    apply mapM_length in H1, H2. eexists. split; [reflexivity|].
    rewrite !length_map in *. congruence.
  - apply bind_OK in H as (t & _ & H).
    apply bind_OK in H as (sec & Hsec & H).
    apply bind_OK in H as (lr & Hlr & [= <-]).
    eexists. split; [reflexivity|].
    unfold einsum_l_lk in Hsec.
    destruct (decide (length Nomega = length (nk s expectation_gauss_exponent)))
      as [E1|]; [|discriminate].
    injection Hsec as <-.
    destruct (decide _) as [E2|] in Hlr; [|discriminate].
    apply mapM_length in Hlr.
    rewrite length_map, Hlr, length_zip, length_zip_with, !length_map. lia.
Qed.

Lemma r_writes s s1 :
  _update_r s = OK s1 ->
  exists lr rho,
    length lr = length (nk s expectation_gauss_exponent) /\
    mapM rho_row lr = OK rho /\
    s1 = set_nk r (map regularize (map normalize_row rho)) (set_log_rho lr s).
Proof.
  unfold _update_r. intros H.
  apply bind_OK in H as (s0 & H0 & H).
  apply log_rho_writes in H0 as (lr & -> & Hlen).
  apply bind_OK in H as (rho & Hrho & [= <-]). cbn in Hrho. eauto.
Qed.

(** The sums that [_update_N_comp] writes into [N_comp], before the floor. *)
Definition N_comp_sums (src : Source) (rr : matrix) (out : vector)
  : result vector :=
  match src with
  | Samples _ None => col_sums rr out
  | Samples _ (Some weights) => weighted_col_sums weights rr out
  | Mixture _ _ Nomega => weighted_col_sums Nomega rr out
  end.

Lemma N_comp_writes s s1 :
  _update_N_comp s = OK s1 ->
  exists n,
    N_comp_sums (source s) (nk s r) (vec s N_comp) = OK n /\
    s1 = set_inv_N_comp (map (fun x => 1 / x)%Q (regularize n))
           (set_vec N_comp (regularize n) s).
Proof.
  unfold _update_N_comp. intros H.
  apply bind_OK in H as (n & Hn & [= <-]). eauto.
Qed.


(** [_update_S] writes into the array object that [S] is bound to, and
    nowhere else. *)
Lemma S_writes s s1 :
  _update_S s = OK s1 ->
  exists h,
    s1 = set_heap h s /\ length h = length (heap s) /\
    forall l, l <> ten s S_ -> h !! l = heap s !! l.
Proof.
  unfold _update_S.
  apply (foldM_invariant
           (fun s1 => exists h, s1 = set_heap h s /\ length h = length (heap s) /\
                      forall l, l <> ten s S_ -> h !! l = heap s !! l)).
  - intros k a b (h & -> & Hlen & Hh) H.
    apply bind_OK in H as (sk & _ & H).
    apply bind_OK in H as (acc & _ & H).
    apply bind_OK in H as (ik & _ & H).
    apply bind_OK in H as (t & _ & [= <-]).
    exists (<[ten s S_ := t]> h). cbn. split; [reflexivity|].
    split; [rewrite length_insert; exact Hlen|].
    intros l Hl. rewrite list_lookup_insert_ne by congruence. auto.
  - exists (heap s). destruct s; cbn; auto.
Qed.

Lemma x_mean_comp_writes s :
  exists x, _update_x_mean_comp s = set_mat x_mean_comp x s.
Proof. unfold _update_x_mean_comp. destruct (source s); eauto. Qed.

(** [E_step] leaves the hyperparameters alone: it writes the expectation
    caches, the responsibilities and the sufficient statistics. *)
Lemma E_step_writes s s' :
  E_step s = OK s' ->
  K s' = K s /\ dim s' = dim s /\ source s' = source s /\ ten s' = ten s /\
  (forall a, a <> expectation_det_ln_lambda -> a <> expectation_ln_pi ->
             a <> N_comp -> vec s' a = vec s a) /\
  (forall a, a <> x_mean_comp -> mat s' a = mat s a) /\
  length (heap s') = length (heap s) /\
  (forall l, l <> ten s S_ -> heap s' !! l = heap s !! l) /\
  length (nk s' r) = length (nk s expectation_gauss_exponent) /\
  exists rho n,
    mapM rho_row (log_rho s') = OK rho /\
    nk s' r = map regularize (map normalize_row rho) /\
    N_comp_sums (source s) (nk s' r) (vec s N_comp) = OK n /\
    vec s' N_comp = regularize n.
Proof.
  unfold E_step. intros H.
  apply bind_OK in H as (s1 & H1 & H). apply det_ln_lambda_writes in H1 as [v1 ->].
  apply bind_OK in H as (s2 & H2 & H).
  apply gauss_exponent_writes in H2 as (e & -> & He).
  apply bind_OK in H as (s3 & H3 & H).
  apply r_writes in H3 as (lr & rho & Hlr & Hrho & ->).
  apply bind_OK in H as (s4 & H4 & H).
  apply N_comp_writes in H4 as (n & Hn & ->).
  apply S_writes in H as (h & -> & Hlen & Hh).
  match type of Hlen with
  | context [_update_x_mean_comp ?t] =>
      destruct (x_mean_comp_writes t) as [x Hx]; rewrite Hx in *
  end.
  unfold _update_expectation_ln_pi in *. cbn in *.
  repeat split; auto.
  - intros a Ha1 Ha2 Ha3. repeat (case_decide; try congruence).
  - intros a Ha. repeat (case_decide; try congruence).
  - apply mapM_length in Hrho. rewrite decide_True by reflexivity.
    rewrite !length_map, Hrho, Hlr. exact He.
  - exists rho, n. auto.
Qed.


(** ** The extents that an E-step keeps *)

Lemma det_ln_lambda_length s s1 :
  _update_expectation_det_ln_lambda s = OK s1 ->
  length (vec s1 expectation_det_ln_lambda) = length (vec s nu).
Proof.
  unfold _update_expectation_det_ln_lambda.
  destruct (negb _); [discriminate|]. intros H.
  apply bind_OK in H as (v & Hv & [= <-]). cbn.
  rewrite decide_True by reflexivity.
  apply bcast_into_length in Hv. rewrite Hv, length_map.
  generalize (seq 1 (dim s)). intros l.
  assert (E : forall init, length init = length (vec s nu) ->
            length (foldl (fun res i =>
                      zip_with Qplus res
                        (map (fun x => digamma ((x + (1 - of_nat i)) * half)%Q)
                           (vec s nu))) init l)
            = length (vec s nu)).
  { induction l as [|i l IH]; intros init Hi; [exact Hi|].
    cbn [foldl]. apply IH. rewrite length_zip_with, length_map. lia. }
  apply E, length_map.
Qed.

Lemma setitem2_rows n a i k x a' :
  setitem2 a i k x = OK a' ->
  Forall (fun row => length row = n) a -> Forall (fun row => length row = n) a'.
Proof.
  unfold setitem2, index. intros H Ha.
  destruct (a !! i) as [row|] eqn:Ei; [|discriminate]. cbn in H.
  apply bind_OK in H as (row' & Hrow' & H).
  unfold setitem in H. case_decide; [|discriminate]. injection H as <-.
  apply Forall_insert; [exact Ha|].
  apply setitem_length in Hrow'. rewrite Hrow'.
  rewrite Forall_forall in Ha. apply Ha. eapply list_elem_of_lookup_2, Ei.
Qed.

Lemma gauss_exponent_rows n s s1 :
  _update_expectation_gauss_exponent s = OK s1 ->
  Forall (fun row => length row = n) (nk s expectation_gauss_exponent) ->
  Forall (fun row => length row = n) (nk s1 expectation_gauss_exponent).
Proof.
  unfold _update_expectation_gauss_exponent. destruct (source s); intros H Hn.
  - apply bind_OK in H as (_ & _ & H).
    apply bind_OK in H as (e & He & [= <-]). cbn.
    rewrite decide_True by reflexivity. revert He.
    apply (foldM_invariant (Forall (fun row => length row = n))); [|exact Hn].
    intros k a b Ha.
    apply (foldM_invariant (Forall (fun row => length row = n))); [|exact Ha].
    intros i a' b' Ha' Hb.
    apply bind_OK in Hb as (? & _ & Hb). apply bind_OK in Hb as (? & _ & Hb).
    apply bind_OK in Hb as (? & _ & Hb). apply bind_OK in Hb as (? & _ & Hb).
    apply bind_OK in Hb as (? & _ & Hb).
    eapply setitem2_rows; eassumption.
  - apply bind_OK in H as (e & He & [= <-]). cbn.
    rewrite decide_True by reflexivity. revert He.
    apply (foldM_invariant (Forall (fun row => length row = n))); [|exact Hn].
    intros [k wk] a b Ha.
    apply (foldM_invariant (Forall (fun row => length row = n))); [|exact Ha].
    intros [l [mul sigmal]] a' b' Ha' Hb.
    apply bind_OK in Hb as (? & _ & Hb). apply bind_OK in Hb as (? & _ & Hb).
    apply bind_OK in Hb as (? & _ & Hb).
    eapply setitem2_rows; eassumption.
Qed.

Lemma mapM_rows {A} n (g : A -> result vector) xs rows :
  (forall x row, x ∈ xs -> g x = OK row -> length row = n) ->
  mapM g xs = OK rows -> Forall (fun row => length row = n) rows.
Proof.
  intros Hg H. apply mapM_OK_Forall2 in H.
  induction H as [|x row xs rows Hx _ IH]; constructor.
  - apply (Hg x); [left | exact Hx].
  - apply IH. intros x' row' Hin. apply Hg. right. exact Hin.
Qed.

Lemma log_rho_rows n s s1 :
  _update_log_rho s = OK s1 ->
  Forall (fun row => length row = n) (nk s expectation_gauss_exponent) ->
  length (vec s expectation_ln_pi) = n ->
  Forall (fun row => length row = n) (log_rho s1).
Proof.
  unfold _update_log_rho.
  destruct (source s) as [data w|mu_ sigma_ Nomega]; intros H He Hpi.
  - apply bind_OK in H as (lr1 & H1 & H).
    apply bind_OK in H as (lr2 & H2 & [= <-]). cbn.
    assert (R1 : Forall (fun row => length row = n) lr1).
    { revert H1. apply mapM_rows. intros x row Hx Hrow.
      apply bcast_into_length in Hrow. rewrite Hrow.
      apply list_elem_of_In, in_map_iff in Hx as (x0 & <- & Hx0).
      rewrite length_map. rewrite Forall_forall in He.
      apply He, list_elem_of_In, Hx0. }
    assert (R2 : Forall (fun row => length row = n) lr2).
    { revert H2. apply mapM_rows. intros x row Hx Hrow.
      apply bcast_into_length in Hrow. rewrite Hrow.
      rewrite Forall_forall in R1. apply R1, Hx. }
    apply Forall_forall. intros row Hrow.
    apply list_elem_of_In, in_map_iff in Hrow as (x0 & <- & Hx0).
    rewrite length_map. rewrite Forall_forall in R2.
    apply R2, list_elem_of_In, Hx0.
  - apply bind_OK in H as (t & Ht & H).
    apply bind_OK in H as (sec & Hsec & H).
    apply bind_OK in H as (lr & Hlr & [= <-]). cbn.
    apply bcast_into_length in Ht. rewrite length_map, Hpi in Ht.
    destruct (decide _) as [E2|] in Hlr; [|discriminate].
    assert (R : Forall (fun row => length row = n) lr).
    { revert Hlr. apply mapM_rows. intros [row row2] row' Hx Hrow.
      apply bcast_into_length in Hrow. rewrite Hrow.
      apply elem_of_zip_l in Hx.
      apply list_elem_of_In, in_map_iff in Hx as (w & <- & _).
      unfold vscale. rewrite !length_map. exact Ht. }
    apply Forall_forall. intros row Hrow.
    apply list_elem_of_In, in_map_iff in Hrow as (x0 & <- & Hx0).
    rewrite length_map. rewrite Forall_forall in R.
    apply R, list_elem_of_In, Hx0.
Qed.

Lemma rho_row_length row rho :
  rho_row row = OK rho -> length rho = length row.
Proof.
  unfold rho_row. intros H. apply bind_OK in H as (mx & _ & [= <-]).
  apply length_map.
Qed.

Lemma r_rows n s s1 :
  _update_r s = OK s1 ->
  Forall (fun row => length row = n) (nk s expectation_gauss_exponent) ->
  length (vec s expectation_ln_pi) = n ->
  Forall (fun row => length row = n) (nk s1 r).
Proof.
  unfold _update_r. intros H He Hpi.
  apply bind_OK in H as (s0 & H0 & H).
  pose proof (log_rho_rows n _ _ H0 He Hpi) as Hlr.
  apply bind_OK in H as (rho & Hrho & [= <-]). cbn.
  rewrite decide_True by reflexivity.
  assert (R : Forall (fun row => length row = n) rho).
  { revert Hrho. apply mapM_rows. intros x row Hx Hrow.
    apply rho_row_length in Hrow. rewrite Hrow.
    rewrite Forall_forall in Hlr. apply Hlr, Hx. }
  apply Forall_forall. intros row Hrow.
  apply list_elem_of_In, in_map_iff in Hrow as (x1 & <- & Hx1).
  apply in_map_iff in Hx1 as (x0 & <- & Hx0).
  unfold regularize, normalize_row. rewrite !length_map.
  rewrite Forall_forall in R. apply R, list_elem_of_In, Hx0.
Qed.

Lemma S_length s s1 :
  _update_S s = OK s1 -> length (tensor s1 S_) = length (tensor s S_).
Proof.
  unfold _update_S.
  apply (foldM_invariant
           (fun s1 => ten s1 = ten s /\
                      length (tensor s1 S_) = length (tensor s S_))).
  - intros k a b [Hten Hlen] H.
    apply bind_OK in H as (sk & _ & H).
    apply bind_OK in H as (acc & _ & H).
    apply bind_OK in H as (ik & _ & H).
    apply bind_OK in H as (t & Ht & [= <-]).
    split; [exact Hten|]. apply setitem_length in Ht.
    unfold tensor, write_ten, deref in *. cbn.
    destruct (decide (ten a S_ < length (heap a))) as [Hl|Hl].
    + rewrite list_lookup_insert_eq by exact Hl. cbn. congruence.
    + rewrite list_insert_ge by lia. exact Hlen.
  - auto.
Qed.


(** ** Sums of rational vectors *)



Lemma vsum_cons x v : vsum (x :: v) = (x + vsum v)%Q.
Proof. reflexivity. Qed.




Lemma vsum_vscale c v : (vsum (vscale c v) == c * vsum v)%Q.
Proof.
  unfold vscale. induction v as [|x v IH]; cbn [map].
  - cbn. ring.
  - rewrite !vsum_cons, IH. ring.
Qed.

Lemma vsum_vadd u v :
  length u = length v -> (vsum (vadd u v) == vsum u + vsum v)%Q.
Proof.
  unfold vadd. revert v. induction u as [|x u IH]; intros [|y v] Hl;
    try discriminate; cbn [zip_with].
  - cbn. lra.
  - injection Hl as Hl. rewrite !vsum_cons, (IH v Hl). ring.
Qed.


(** ** The responsibilities *)

Section Softmax.

(** What is used of [numpy.exp]: it is never negative (it may underflow
    to zero) and [exp(0) = 1]; and of [tiny]: it lies in (0, 1]. *)
Hypothesis exp_nonneg : forall x, (0 <= exp x)%Q.
Hypothesis exp_0 : forall x, (x == 0)%Q -> (exp x == 1)%Q.
Hypothesis tiny_pos : (0 < tiny)%Q.
Hypothesis tiny_le_1 : (tiny <= 1)%Q.













(** ** The effective counts *)

Lemma vsum_zeros {A} (out : list A) : vsum (map (fun _ => 0%Q) out) = 0%Q
  \/ (vsum (map (fun _ => 0%Q) out) == 0)%Q.
Proof.
  right. induction out as [|x out IH]; cbn [map]; [reflexivity|].
  rewrite vsum_cons, IH. ring.
Qed.

Lemma col_sums_spec rows out n :
  col_sums rows out = OK n ->
  length n = length out /\
  Forall (fun row => length row = length out) rows /\
  (vsum n == vsum (map vsum rows))%Q.
Proof.
  unfold col_sums. destruct (forallb _ rows) eqn:E; [|discriminate].
  intros [= <-].
  assert (Hrows : Forall (fun row => length row = length out) rows).
  { apply Forall_forall. intros row Hin. rewrite forallb_forall in E.
    apply Nat.eqb_eq, E, list_elem_of_In, Hin. }
  clear E. induction Hrows as [|row rows Hrow Hrows (IH1 & IH2 & IH3)].
  - cbn [foldr map]. split; [apply length_map|]. split; [constructor|].
    destruct (vsum_zeros out) as [->| ->]; reflexivity.
  - cbn [foldr map]. split; [|split].
    + unfold vadd at 1. rewrite length_zip_with, IH1. lia.
    + constructor; assumption.
    + rewrite vsum_cons, vsum_vadd by congruence. rewrite IH3. reflexivity.
Qed.

(** The weighted sum [sum_n w_n * (sum of row n)]. *)
Definition weighted_total (w : vector) (rows : matrix) : Q :=
  vsum (zip_with (fun x row => x * vsum row)%Q w rows).

Lemma weighted_col_sums_spec w rows out n :
  weighted_col_sums w rows out = OK n ->
  length n = length out /\ length w = length rows /\
  Forall (fun row => length row = length out) rows /\
  (vsum n == weighted_total w rows)%Q.
Proof.
  unfold weighted_col_sums. case_decide as Hl; [|discriminate]. intros H.
  apply col_sums_spec in H as (H1 & H2 & H3).
  split; [exact H1|]. split; [exact Hl|].
  rewrite H3. clear H1 H3 n. unfold weighted_total.
  revert rows Hl H2. induction w as [|x w IH]; intros [|row rows] Hl H2;
    try discriminate.
  - split; [constructor | reflexivity].
  - cbn [zip_with map] in *. apply Forall_cons in H2 as [Hr H2].
    injection Hl as Hl. destruct (IH rows Hl H2) as [IH1 IH2].
    split.
    + constructor; [|exact IH1]. unfold vscale in Hr.
      rewrite length_map in Hr. exact Hr.
    + rewrite !vsum_cons, vsum_vscale, IH2. reflexivity.
Qed.




















End Softmax.


(** ** Compaction of one array *)

Lemma ascending_from_le k k' ks :
  k' <= k -> ascending_from k ks -> ascending_from k' ks.
Proof. destruct ks; cbn; [auto|]. intros ? [? ?]. split; [lia | auto]. Qed.

Lemma ascending_from_Forall k ks :
  ascending_from k ks -> Forall (fun x => k <= x) ks.
Proof.
  revert k. induction ks as [|x ks IH]; cbn; intros k; [constructor|].
  intros [Hk Hks]. constructor; [exact Hk|].
  eapply Forall_impl; [apply (IH _ Hks)|]. cbn. intros; lia.
Qed.

Lemma shift1_length {A} k_new k_old (a : list A) :
  length (shift1 k_new k_old a) = length a.
Proof.
  unfold shift1. case_decide; [reflexivity|].
  destruct (a !! k_old); [apply length_insert | reflexivity].
Qed.

Lemma shift1_nil {A} k_new k_old : shift1 k_new k_old (@nil A) = [].
Proof. unfold shift1. case_decide; reflexivity. Qed.

Lemma shift1_idem {A} k_new k_old (a : list A) :
  shift1 k_new k_old (shift1 k_new k_old a) = shift1 k_new k_old a.
Proof.
  unfold shift1. case_decide as E; [reflexivity|].
  destruct (a !! k_old) as [x|] eqn:Ex; [|rewrite Ex; reflexivity].
  rewrite list_lookup_insert_ne, Ex by congruence.
  apply list_insert_insert_eq.
Qed.

Lemma move_shift1 {A} k_new k_old (a : list A) :
  k_old <> k_new -> k_new < length a -> k_old < length a ->
  move k_new k_old a = OK (shift1 k_new k_old a).
Proof.
  intros Hne Hn Ho. unfold move, index, setitem, shift1.
  apply lookup_lt_is_Some in Ho as [x Hx]. rewrite Hx. cbn.
  rewrite !decide_True by assumption. rewrite decide_False by assumption.
  reflexivity.
Qed.

Lemma select_length {A} ks (a : list A) :
  Forall (fun k => k < length a) ks -> length (select ks a) = length ks.
Proof.
  unfold select. induction 1 as [|k ks Hk _ IH]; [reflexivity|].
  cbn. apply lookup_lt_is_Some in Hk as [x ->]. cbn. congruence.
Qed.

Lemma select_insert_below {A} ks k (x : A) a :
  Forall (fun k' => k < k') ks -> select ks (<[k := x]> a) = select ks a.
Proof.
  unfold select. induction 1 as [|k' ks Hk _ IH]; [reflexivity|].
  cbn. rewrite list_lookup_insert_ne by lia. rewrite IH. reflexivity.
Qed.

(** The loop leaves the survivors in the leading positions, in the order
    of their indices. *)
Lemma shift_all_select {A} ks k_new (a : list A) :
  ascending_from k_new ks -> Forall (fun k => k < length a) ks ->
  take (k_new + length ks) (shift_all ks k_new a) = take k_new a ++ select ks a.
Proof.
  revert k_new a. induction ks as [|k_old ks IH]; intros k_new a Hasc Hin.
  - cbn. rewrite Nat.add_0_r, app_nil_r. reflexivity.
  - destruct Hasc as [Hle Hasc]. apply Forall_cons in Hin as [Ho Hin].
    cbn [shift_all length].
    replace (k_new + S (length ks)) with (S k_new + length ks) by lia.
    rewrite IH.
    + apply lookup_lt_is_Some in Ho as [x Hx].
      unfold select at 2. cbn [omap list_omap]. rewrite Hx. cbn.
      fold (select ks a).
      assert (Hbelow : Forall (fun k' => k_new < k') ks).
      { eapply Forall_impl; [apply ascending_from_Forall, Hasc|]. cbn.
        intros; lia. }
      unfold shift1. case_decide as E.
      * subst k_old. rewrite (take_S_r _ _ _ Hx), <- app_assoc. reflexivity.
      * rewrite Hx. rewrite select_insert_below by exact Hbelow.
        assert (Hn : k_new < length a) by (apply lookup_lt_Some in Hx; lia).
        erewrite take_S_r by (apply list_lookup_insert_eq; exact Hn).
        rewrite take_insert_ge by lia. rewrite <- app_assoc. reflexivity.
    + eapply ascending_from_le; [|exact Hasc]. lia.
    + eapply Forall_impl; [exact Hin|]. cbn. intros k Hk.
      rewrite shift1_length. exact Hk.
Qed.

Lemma compact_select {A} ks (a : list A) :
  ascending_from 0 ks -> Forall (fun k => k < length a) ks ->
  take (length ks) (shift_all ks 0 a) = select ks a.
Proof. intros H1 H2. apply (shift_all_select ks 0 a H1 H2). Qed.

(** Selection at ascending indices keeps the relative order. *)
Lemma select_sublist {A} ks k (a : list A) :
  ascending_from k ks -> select ks a `sublist_of` drop k a.
Proof.
  revert k. induction ks as [|k' ks IH]; intros k Hasc.
  - apply sublist_nil_l.
  - destruct Hasc as [Hle Hasc]. unfold select. cbn [omap list_omap].
    fold (select ks a). specialize (IH _ Hasc).
    destruct (a !! k') as [x|] eqn:Ex; cbn.
    + replace (drop k a) with (take (k' - k) (drop k a) ++ x :: drop (S k') a).
      * apply sublist_inserts_l. constructor. exact IH.
      * rewrite <- (take_drop (k' - k) (drop k a)) at 2. f_equal.
        rewrite drop_drop. replace (k + (k' - k)) with k' by lia.
        symmetry. apply drop_S, Ex.
    + etransitivity; [exact IH|]. 
      replace (S k') with (k + (S k' - k)) by lia.
      rewrite <- drop_drop. apply sublist_drop.
Qed.

(** [where_ge]: the indices of the entries not below the threshold, in
    ascending order. *)
Lemma where_ge_spec threshold n k0 :
  ascending_from k0 (where_ge threshold n k0)
  /\ Forall (fun k => k < k0 + length n) (where_ge threshold n k0)
  /\ forall k, k ∈ where_ge threshold n k0 <->
               exists x, k0 <= k /\ n !! (k - k0) = Some x /\ (threshold <= x)%Q.
Proof.
  revert k0. induction n as [|x n IH]; intros k0; cbn [where_ge length].
  - split; [exact I|]. split; [constructor|]. intros k. split.
    + intros Hk. inversion Hk.
    + intros (y & _ & Hy & _). discriminate.
  - destruct (IH (S k0)) as (IH1 & IH2 & IH3).
    assert (Htail : forall k, k ∈ where_ge threshold n (S k0) ->
              exists y, k0 <= k /\ (x :: n) !! (k - k0) = Some y /\ (threshold <= y)%Q).
    { intros k Hk. apply IH3 in Hk as (y & Hk & Hy & Hty). exists y.
      split; [lia|]. split; [|exact Hty].
      replace (k - k0) with (S (k - S k0)) by lia. exact Hy. }
    assert (Hback : forall k y, k0 < k -> (x :: n) !! (k - k0) = Some y ->
              (threshold <= y)%Q -> k ∈ where_ge threshold n (S k0)).
    { intros k y Hk Hy Hty. apply IH3. exists y. split; [lia|].
      split; [|exact Hty].
      replace (k - k0) with (S (k - S k0)) in Hy by lia. exact Hy. }
    destruct (Qle_bool threshold x) eqn:E.
    + apply Qle_bool_iff in E. split; [|split].
      * cbn. split; [lia | exact IH1].
      * constructor; [lia|]. eapply Forall_impl; [exact IH2|]. cbn. intros; lia.
      * intros k. rewrite elem_of_cons. split.
        -- intros [->|Hk]; [|auto]. exists x. rewrite Nat.sub_diag. auto.
        -- intros (y & Hk & Hy & Hty).
           destruct (decide (k = k0)) as [->|Hne]; [left; reflexivity|].
           right. apply (Hback k y); [lia | assumption..].
    + split; [|split].
      * eapply ascending_from_le; [|exact IH1]. lia.
      * eapply Forall_impl; [exact IH2|]. cbn. intros; lia.
      * intros k. split; [auto|].
        intros (y & Hk & Hy & Hty).
        destruct (decide (k = k0)) as [->|Hne].
        -- rewrite Nat.sub_diag in Hy. injection Hy as <-.
           apply Qle_bool_iff in Hty. congruence.
        -- apply (Hback k y); [lia | assumption..].
Qed.


(** ** Writes through references *)

Lemma deref_write (f : list matrix -> list matrix) (h : store) l l' :
  f [] = [] ->
  deref (<[l := f (deref h l)]> h) l'
  = if decide (l' = l) then f (deref h l) else deref h l'.
Proof.
  intros Hnil. unfold deref. case_decide as E.
  - subst l'. destruct (decide (l < length h)) as [Hl|Hl].
    + rewrite list_lookup_insert_eq by exact Hl. reflexivity.
    + rewrite list_insert_ge by lia.
      rewrite (lookup_ge_None_2 h l) by lia. cbn. symmetry. exact Hnil.
  - rewrite list_lookup_insert_ne by congruence. reflexivity.
Qed.

Section Apply.

Variable f : forall A : Type, list A -> list A.
Hypothesis f_idem : forall A (a : list A), f A (f A a) = f A a.
Hypothesis f_nil : forall A, f A [] = [].

Definition app_vmembers (mbs : list vmember) (s : State) : State :=
  foldl (fun s mb => app_vmember f mb s) s mbs.

Lemma app_vmember_spec mb s :
  let s' := app_vmember f mb s in
  K s' = K s /\ dim s' = dim s /\ source s' = source s /\ ten s' = ten s /\
  inv_N_comp s' = inv_N_comp s /\ log_rho s' = log_rho s /\ nk s' = nk s /\
  (forall a, vec s' a = match mb with
                        | V a0 => if decide (a = a0) then f _ (vec s a)
                                  else vec s a
                        | _ => vec s a
                        end) /\
  (forall a, mat s' a = match mb with
                        | M a0 => if decide (a = a0) then f _ (mat s a)
                                  else mat s a
                        | _ => mat s a
                        end) /\
  (forall l, deref (heap s') l
             = match mb with
               | T a0 => if decide (l = ten s a0) then f _ (deref (heap s) l)
                         else deref (heap s) l
               | _ => deref (heap s) l
               end).
Proof.
  destruct mb as [a0|a0|a0]; cbn; repeat (split; [reflexivity|]).
  - split; [|split; reflexivity].
    intros a. destruct (decide (a = a0)) as [->|Hne]; reflexivity.
  - split; [|reflexivity].
    intros a. destruct (decide (a = a0)) as [->|Hne]; reflexivity.
  - intros l. unfold tensor. rewrite (deref_write (f matrix)) by apply f_nil.
    destruct (decide (l = ten s a0)) as [->|Hne]; reflexivity.
Qed.

(** Applying [f] to the arrays named in a list: an array is hit at least
    once when it is named, and being hit twice (two names bound to one
    array object) is the same as being hit once. *)
Lemma app_vmembers_spec mbs s :
  let s' := app_vmembers mbs s in
  K s' = K s /\ dim s' = dim s /\ source s' = source s /\ ten s' = ten s /\
  inv_N_comp s' = inv_N_comp s /\ log_rho s' = log_rho s /\ nk s' = nk s /\
  (forall a, (vec s' a = vec s a \/ vec s' a = f _ (vec s a)) /\
             (V a ∈ mbs -> vec s' a = f _ (vec s a))) /\
  (forall a, (mat s' a = mat s a \/ mat s' a = f _ (mat s a)) /\
             (M a ∈ mbs -> mat s' a = f _ (mat s a))) /\
  (forall l, (deref (heap s') l = deref (heap s) l
              \/ deref (heap s') l = f _ (deref (heap s) l)) /\
             ((exists a, T a ∈ mbs /\ l = ten s a) ->
              deref (heap s') l = f _ (deref (heap s) l))).
Proof.
  revert s. induction mbs as [|mb mbs IH]; intros s.
  - cbn. repeat (split; [reflexivity|]).
    split; [|split]; intros x; (split; [left; reflexivity|]).
    + intros H; inversion H.
    + intros H; inversion H.
    + intros (a & H & _); inversion H.
  - cbn [app_vmembers foldl]. fold (app_vmembers mbs (app_vmember f mb s)).
    destruct (app_vmember_spec mb s)
      as (A1 & A2 & A3 & A4 & A5 & A6 & A7 & A8 & A9 & A10).
    destruct (IH (app_vmember f mb s))
      as (B1 & B2 & B3 & B4 & B5 & B6 & B7 & B8 & B9 & B10).
    cbn zeta in *.
    split; [congruence|]. split; [congruence|]. split; [congruence|].
    split; [congruence|]. split; [congruence|]. split; [congruence|].
    split; [congruence|]. split; [|split].
    + intros a. destruct (B8 a) as [B8a B8b]. rewrite A8 in B8a, B8b.
      split.
      * destruct mb; try case_decide; destruct B8a as [->| ->];
          rewrite ?f_idem; auto.
      * rewrite elem_of_cons. intros [E|E].
        -- subst mb. rewrite decide_True in B8a by reflexivity.
           destruct B8a as [->| ->]; rewrite ?f_idem; auto.
        -- rewrite (B8b E). destruct mb; try case_decide; rewrite ?f_idem; auto.
    + intros a. destruct (B9 a) as [B9a B9b]. rewrite A9 in B9a, B9b.
      split.
      * destruct mb; try case_decide; destruct B9a as [->| ->];
          rewrite ?f_idem; auto.
      * rewrite elem_of_cons. intros [E|E].
        -- subst mb. rewrite decide_True in B9a by reflexivity.
           destruct B9a as [->| ->]; rewrite ?f_idem; auto.
        -- rewrite (B9b E). destruct mb; try case_decide; rewrite ?f_idem; auto.
    + intros l. destruct (B10 l) as [Ba Bb]. rewrite A10 in Ba, Bb.
      rewrite A4 in Bb. split.
      * destruct mb; try case_decide; destruct Ba as [->| ->];
          rewrite ?f_idem; auto.
      * intros (a & Ha & Hl). apply elem_of_cons in Ha as [E|E].
        -- subst mb l. rewrite decide_True in Ba by reflexivity.
           destruct Ba as [->| ->]; rewrite ?f_idem; auto.
        -- rewrite Bb by eauto.
           destruct mb; try case_decide; rewrite ?f_idem; auto.
Qed.

End Apply.


(** ** The loop over the survivors *)

Definition shiftf (k_new k_old : nat) : forall A : Type, list A -> list A :=
  fun A => shift1 k_new k_old.

Definition takef (k : nat) : forall A : Type, list A -> list A :=
  fun A => take k.

Lemma all_named :
  (forall a, V a ∈ vmembers) /\ (forall a, M a ∈ vmembers)
  /\ (forall a, T a ∈ vmembers).
Proof.
  unfold vmembers.
  split; [|split]; intros []; repeat (first [left | right]).
Qed.

(** Applied to all of [vmembers], [f] reaches every per-component vector,
    matrix and stack of matrices. *)
Lemma app_all_vmembers (f : forall A : Type, list A -> list A) s :
  (forall A (a : list A), f A (f A a) = f A a) ->
  (forall A, f A [] = []) ->
  let s' := app_vmembers f vmembers s in
  K s' = K s /\ dim s' = dim s /\ source s' = source s /\ ten s' = ten s /\
  inv_N_comp s' = inv_N_comp s /\ log_rho s' = log_rho s /\ nk s' = nk s /\
  (forall a, vec s' a = f _ (vec s a)) /\
  (forall a, mat s' a = f _ (mat s a)) /\
  (forall a, tensor s' a = f _ (tensor s a)).
Proof.
  intros Hidem Hnil.
  destruct (app_vmembers_spec f Hidem Hnil vmembers s)
    as (A1 & A2 & A3 & A4 & A5 & A6 & A7 & A8 & A9 & A10).
  destruct all_named as (HV & HM & HT). cbn zeta in *.
  repeat (split; [assumption|]). split; [|split].
  - intros a. apply A8, HV.
  - intros a. apply A9, HM.
  - intros a. unfold tensor. rewrite A4. apply A10. eauto.
Qed.

Lemma move_vmember_app k_new k_old mb s :
  k_old <> k_new -> k_new <= k_old ->
  (forall a, k_old < length (vec s a)) ->
  (forall a, k_old < length (mat s a)) ->
  (forall a, k_old < length (tensor s a)) ->
  move_vmember k_new k_old mb s = OK (app_vmember (shiftf k_new k_old) mb s).
Proof.
  intros Hne Hle Hv Hm Ht. unfold move_vmember, app_vmember, shiftf.
  destruct mb as [a|a|a].
  - rewrite move_shift1; [reflexivity | assumption | specialize (Hv a); lia | auto].
  - rewrite move_shift1; [reflexivity | assumption | specialize (Hm a); lia | auto].
  - rewrite move_shift1; [reflexivity | assumption | specialize (Ht a); lia | auto].
Qed.

Lemma shiftf_idem k_new k_old A (a : list A) :
  shiftf k_new k_old A (shiftf k_new k_old A a) = shiftf k_new k_old A a.
Proof. apply shift1_idem. Qed.

Lemma shiftf_nil k_new k_old A : shiftf k_new k_old A [] = [].
Proof. apply shift1_nil. Qed.

Lemma move_vmembers_app k_new k_old mbs s :
  k_old <> k_new -> k_new <= k_old ->
  (forall a, k_old < length (vec s a)) ->
  (forall a, k_old < length (mat s a)) ->
  (forall a, k_old < length (tensor s a)) ->
  foldM (move_vmember k_new k_old) mbs s
  = OK (app_vmembers (shiftf k_new k_old) mbs s).
Proof.
  intros Hne Hle. revert s. induction mbs as [|mb mbs IH]; intros s Hv Hm Ht.
  - reflexivity.
  - cbn [foldM app_vmembers foldl].
    rewrite move_vmember_app by assumption. cbn.
    destruct (app_vmember_spec (shiftf k_new k_old) (shiftf_nil k_new k_old) mb s)
      as (_ & _ & _ & A4 & _ & _ & _ & A8 & A9 & A10).
    cbn zeta in *. apply IH.
    + intros a. rewrite A8.
      destruct mb; try case_decide; unfold shiftf; rewrite ?shift1_length; auto.
    + intros a. rewrite A9.
      destruct mb; try case_decide; unfold shiftf; rewrite ?shift1_length; auto.
    + intros a. unfold tensor. rewrite A10, A4.
      destruct mb; try case_decide; unfold shiftf; rewrite ?shift1_length;
        apply Ht.
Qed.

Lemma mapM_move k_new k_old (rows : matrix) :
  k_old <> k_new -> k_new <= k_old ->
  Forall (fun row => k_old < length row) rows ->
  mapM (move k_new k_old) rows = OK (map (shift1 k_new k_old) rows).
Proof.
  intros Hne Hle. induction 1 as [|row rows Hrow _ IH]; [reflexivity|].
  cbn [mapM map]. rewrite move_shift1 by (auto; lia). cbn. rewrite IH.
  reflexivity.
Qed.

Lemma move_mmembers_app k_new k_old s :
  k_old <> k_new -> k_new <= k_old ->
  (forall a, Forall (fun row => k_old < length row) (nk s a)) ->
  exists s',
    foldM (move_mmember k_new k_old) mmembers s = OK s' /\
    K s' = K s /\ dim s' = dim s /\ source s' = source s /\ ten s' = ten s /\
    heap s' = heap s /\ vec s' = vec s /\ mat s' = mat s /\
    inv_N_comp s' = inv_N_comp s /\ log_rho s' = log_rho s /\
    forall a, nk s' a = map (shift1 k_new k_old) (nk s a).
Proof.
  intros Hne Hle Hrows. unfold mmembers, move_mmember. cbn [foldM].
  rewrite mapM_move by auto. cbn.
  rewrite mapM_move by (auto; rewrite decide_False by discriminate; auto).
  cbn. eexists. split; [reflexivity|]. cbn. repeat (split; [reflexivity|]).
  intros []; reflexivity.
Qed.


Lemma arrays_map_ext (f g : forall A : Type, list A -> list A) n s s' :
  (forall A (a : list A), length a = n -> f A a = g A a) ->
  extent n s -> arrays_map f s s' -> arrays_map g s s'.
Proof.
  intros E (E1 & E2 & E3 & E4) (H1 & H2 & H3 & H4 & H5 & H6 & H7 & H8 & H9).
  unfold arrays_map. repeat (split; [assumption|]).
  split; [|split; [|split]]; intros a; rewrite <- ?E; auto.
  rewrite H9. apply map_ext_in. intros row Hrow. apply E.
  specialize (E4 a). rewrite Forall_forall in E4.
  apply E4, list_elem_of_In, Hrow.
Qed.

Lemma arrays_map_trans (f g : forall A : Type, list A -> list A) s s1 s2 :
  arrays_map f s s1 -> arrays_map g s1 s2 ->
  arrays_map (fun A a => g A (f A a)) s s2.
Proof.
  intros (H1 & H2 & H3 & H4 & H5 & H6 & H7 & H8 & H9)
         (G1 & G2 & G3 & G4 & G5 & G6 & G7 & G8 & G9).
  unfold arrays_map.
  split; [congruence|]. split; [congruence|]. split; [congruence|].
  split; [congruence|]. split; [congruence|].
  split; [|split; [|split]]; intros a.
  - rewrite G6, H6. reflexivity.
  - rewrite G7, H7. reflexivity.
  - rewrite G8, H8. reflexivity.
  - rewrite G9, H9, map_map. reflexivity.
Qed.

Lemma arrays_map_extent (f : forall A : Type, list A -> list A) n n' s s' :
  (forall A (a : list A), length a = n -> length (f A a) = n') ->
  arrays_map f s s' -> extent n s -> extent n' s'.
Proof.
  intros Hf (_ & _ & _ & _ & _ & H6 & H7 & H8 & H9) (E1 & E2 & E3 & E4).
  unfold extent. split; [|split; [|split]]; intros a.
  - rewrite H6. auto.
  - rewrite H7. auto.
  - rewrite H8. auto.
  - rewrite H9. apply Forall_forall. intros row Hrow.
    apply list_elem_of_In, in_map_iff in Hrow as (row0 & <- & Hin).
    apply Hf. specialize (E4 a). rewrite Forall_forall in E4.
    apply E4, list_elem_of_In, Hin.
Qed.

Lemma bind_ret_l {A B} (a : A) (k : A -> result B) : OK a ≫= k = k a.
Proof. reflexivity. Qed.

Lemma bind_assoc {A B C} (c : result A) (f : A -> result B)
    (g : B -> result C) :
  (c ≫= f) ≫= g = c ≫= (fun x => f x ≫= g).
Proof. destruct c; reflexivity. Qed.

Lemma shift_survivor_moved k_new k_old s :
  k_old <> k_new ->
  shift_survivor k_old (k_new, s)
  = (s1 ← foldM (move_vmember k_new k_old) vmembers s;
     s2 ← foldM (move_mmember k_new k_old) mmembers s1;
     OK (S k_new, s2)).
Proof.
  intros Hne. unfold shift_survivor. rewrite decide_True by exact Hne.
  apply bind_assoc.
Qed.

Lemma move_all_vmembers k_new k_old n s :
  k_old <> k_new -> k_new <= k_old -> k_old < n -> extent n s ->
  exists s1,
    foldM (move_vmember k_new k_old) vmembers s = OK s1 /\
    K s1 = K s /\ dim s1 = dim s /\ source s1 = source s /\ ten s1 = ten s /\
    inv_N_comp s1 = inv_N_comp s /\ log_rho s1 = log_rho s /\ nk s1 = nk s /\
    (forall a, vec s1 a = shift1 k_new k_old (vec s a)) /\
    (forall a, mat s1 a = shift1 k_new k_old (mat s a)) /\
    (forall a, tensor s1 a = shift1 k_new k_old (tensor s a)).
Proof.
  intros Hne Hle Hn (E1 & E2 & E3 & E4).
  exists (app_vmembers (shiftf k_new k_old) vmembers s). split.
  - apply move_vmembers_app; auto; intros a; rewrite ?E1, ?E2, ?E3; exact Hn.
  - exact (app_all_vmembers (shiftf k_new k_old) s
             (shiftf_idem k_new k_old) (shiftf_nil k_new k_old)).
Qed.

Lemma shift_survivor_spec k_new k_old n s :
  k_new <= k_old -> k_old < n -> extent n s ->
  exists s',
    shift_survivor k_old (k_new, s) = OK (S k_new, s') /\
    K s' = K s /\ arrays_map (shiftf k_new k_old) s s' /\ extent n s'.
Proof.
  intros Hle Hn Hext. pose proof Hext as (E1 & E2 & E3 & E4).
  destruct (decide (k_old = k_new)) as [Heq|Hne].
  - exists s. split.
    { unfold shift_survivor. rewrite decide_False by tauto. reflexivity. }
    split; [reflexivity|]. split; [|exact Hext].
    unfold arrays_map. repeat (split; [reflexivity|]).
    split; [|split; [|split]]; intros a; unfold shiftf, shift1;
      rewrite ?decide_True by exact Heq; try reflexivity.
    symmetry. erewrite map_ext; [apply map_id|]. intros row. cbn.
    rewrite decide_True by exact Heq. reflexivity.
  - destruct (move_all_vmembers k_new k_old n s Hne Hle Hn Hext)
      as (s1 & Hs1 & A1 & A2 & A3 & A4 & A5 & A6 & A7 & A8 & A9 & A10).
    destruct (move_mmembers_app k_new k_old s1 Hne Hle)
      as (s' & Hs' & B1 & B2 & B3 & B4 & B5 & B6 & B7 & B8 & B9 & B10).
    { intros a. rewrite A7. eapply Forall_impl; [apply E4|].
      intros row Hrow. cbv beta in Hrow. rewrite Hrow. exact Hn. }
    exists s'. split.
    { rewrite shift_survivor_moved by exact Hne.
      rewrite Hs1, bind_ret_l, Hs', bind_ret_l. reflexivity. }
    assert (Hmap : arrays_map (shiftf k_new k_old) s s').
    { unfold arrays_map.
      split; [rewrite B2; exact A2|]. split; [rewrite B3; exact A3|].
      split; [rewrite B4; exact A4|]. split; [rewrite B8; exact A5|].
      split; [rewrite B9; exact A6|].
      split; [|split; [|split]]; intros a.
      - rewrite B6. apply A8.
      - rewrite B7. apply A9.
      - unfold tensor. rewrite B5, B4. apply A10.
      - rewrite B10, A7. reflexivity. }
    split; [rewrite B1; exact A1|]. split; [exact Hmap|].
    eapply arrays_map_extent; [|exact Hmap | exact Hext].
    intros A a Ha. unfold shiftf. rewrite shift1_length. exact Ha.
Qed.

Lemma survivors_loop ks k_new n s :
  ascending_from k_new ks -> Forall (fun k => k < n) ks -> extent n s ->
  exists s',
    foldM shift_survivor ks (k_new, s) = OK (k_new + length ks, s') /\
    K s' = K s /\ arrays_map (fun A => shift_all ks k_new) s s' /\
    extent n s'.
Proof.
  revert k_new s. induction ks as [|k_old ks IH]; intros k_new s Hasc Hin Hext.
  - exists s. cbn. rewrite Nat.add_0_r. split; [reflexivity|].
    split; [reflexivity|]. split; [|exact Hext].
    unfold arrays_map. repeat (split; [reflexivity|]).
    intros a. symmetry. erewrite map_ext; [apply map_id|]. reflexivity.
  - destruct Hasc as [Hle Hasc]. apply Forall_cons in Hin as [Hn Hin].
    destruct (shift_survivor_spec k_new k_old n s Hle Hn Hext)
      as (s1 & E1 & K1 & M1 & X1).
    destruct (IH (S k_new) s1) as (s' & E' & K' & M' & X'); auto.
    { eapply ascending_from_le; [|exact Hasc]. lia. }
    exists s'. cbn [foldM length]. rewrite E1. cbn.
    replace (k_new + S (length ks)) with (S k_new + length ks) by lia.
    split; [exact E'|]. split; [congruence|]. split; [|exact X'].
    exact (arrays_map_trans _ _ _ _ _ M1 M').
Qed.

Lemma cut_vmembers_app mbs s :
  foldl (fun s mb => cut_vmember mb s) s mbs
  = app_vmembers (takef (K s)) mbs s.
Proof.
  revert s. induction mbs as [|mb mbs IH]; intros s; [reflexivity|].
  cbn [foldl app_vmembers]. rewrite IH.
  assert (E : cut_vmember mb s = app_vmember (takef (K s)) mb s)
    by (destruct mb; reflexivity).
  rewrite E. f_equal. destruct mb; reflexivity.
Qed.

Lemma takef_idem k A (a : list A) : takef k A (takef k A a) = takef k A a.
Proof. unfold takef. rewrite take_take. f_equal. lia. Qed.

Lemma takef_nil k A : takef k A [] = [].
Proof. apply take_nil. Qed.

Lemma cut_all_vmembers s :
  exists s1,
    foldl (fun s mb => cut_vmember mb s) s vmembers = s1 /\
    K s1 = K s /\ dim s1 = dim s /\ source s1 = source s /\ ten s1 = ten s /\
    inv_N_comp s1 = inv_N_comp s /\ log_rho s1 = log_rho s /\ nk s1 = nk s /\
    (forall a, vec s1 a = take (K s) (vec s a)) /\
    (forall a, mat s1 a = take (K s) (mat s a)) /\
    (forall a, tensor s1 a = take (K s) (tensor s a)).
Proof.
  exists (app_vmembers (takef (K s)) vmembers s). split.
  - apply cut_vmembers_app.
  - exact (app_all_vmembers (takef (K s)) s (takef_idem (K s))
             (takef_nil (K s))).
Qed.

Lemma cut_all_mmembers s :
  let s' := foldl (fun s a => cut_mmember a s) s mmembers in
  K s' = K s /\ dim s' = dim s /\ source s' = source s /\ ten s' = ten s /\
  heap s' = heap s /\ vec s' = vec s /\ mat s' = mat s /\
  inv_N_comp s' = inv_N_comp s /\ log_rho s' = log_rho s /\
  forall a, nk s' a = map (take (K s)) (nk s a).
Proof.
  unfold mmembers, cut_mmember. cbn [foldl]. cbn.
  repeat (split; [reflexivity|]). intros []; reflexivity.
Qed.

(** The two loops that cut the arrays to the new [K]. *)
Lemma cut_spec s :
  exists s',
    foldl (fun s a => cut_mmember a s)
      (foldl (fun s mb => cut_vmember mb s) s vmembers) mmembers = s' /\
    K s' = K s /\ arrays_map (takef (K s)) s s'.
Proof.
  destruct (cut_all_vmembers s)
    as (s1 & -> & A1 & A2 & A3 & A4 & A5 & A6 & A7 & A8 & A9 & A10).
  destruct (cut_all_mmembers s1)
    as (B1 & B2 & B3 & B4 & B5 & B6 & B7 & B8 & B9 & B10).
  eexists. split; [reflexivity|]. cbv zeta in *.
  split; [rewrite B1; exact A1|]. unfold arrays_map, takef.
  split; [rewrite B2; exact A2|]. split; [rewrite B3; exact A3|].
  split; [rewrite B4; exact A4|]. split; [rewrite B8; exact A5|].
  split; [rewrite B9; exact A6|].
  split; [|split; [|split]]; intros a.
  - rewrite B6. apply A8.
  - rewrite B7. apply A9.
  - unfold tensor. rewrite B5, B4. apply A10.
  - rewrite B10, A7, A1. reflexivity.
Qed.

Lemma compact_eq threshold s s1 c :
  foldM shift_survivor (components_to_survive threshold s)
    (0, set_K (length (components_to_survive threshold s)) s)
  = OK (0 + length (components_to_survive threshold s), s1) ->
  foldl (fun s a => cut_mmember a s)
    (foldl (fun s mb => cut_vmember mb s) s1 vmembers) mmembers = c ->
  compact threshold s = OK c.
Proof.
  intros H1 H2. unfold compact. rewrite H1, bind_ret_l. rewrite H2.
  reflexivity.
Qed.

(** [compact], the part of [prune] before the closing E-step, keeps of
    every per-component array the entries at the surviving indices, in
    their order. *)
Lemma compact_spec threshold s :
  aligned s ->
  let ks := components_to_survive threshold s in
  exists c,
    compact threshold s = OK c /\ K c = length ks /\
    arrays_map (fun A => select ks) s c /\ aligned c.
Proof.
  intros Hal ks. pose proof Hal as (E1 & E2 & E3 & E4).
  destruct (where_ge_spec threshold (vec s N_comp) 0) as (Hasc & Hin & _).
  fold (components_to_survive threshold s) in Hasc, Hin. fold ks in Hasc, Hin.
  rewrite E1 in Hin. rewrite Nat.add_0_l in Hin.
  assert (Hext0 : extent (K s) (set_K (length ks) s)) by exact Hal.
  destruct (survivors_loop ks 0 (K s) (set_K (length ks) s) Hasc Hin Hext0)
    as (s1 & L1 & L2 & L3 & L4).
  destruct (cut_spec s1) as (c & Hc & C1 & C2).
  assert (HK : K s1 = length ks) by (rewrite L2; reflexivity).
  exists c. split; [exact (compact_eq threshold s s1 c L1 Hc)|].
  split; [rewrite C1; exact HK|].
  assert (Hmap0 : arrays_map (fun A a => takef (K s1) A (shift_all ks 0 a))
                    (set_K (length ks) s) c)
    by exact (arrays_map_trans (fun A => shift_all ks 0) (takef (K s1))
                _ _ _ L3 C2).
  assert (Hmap : arrays_map (fun A => select ks) s c).
  { apply (arrays_map_ext (fun A a => takef (K s1) A (shift_all ks 0 a))
             (fun A => select ks) (K s) s c); [| exact Hal | exact Hmap0].
    intros A a Ha. unfold takef. rewrite HK.
    apply compact_select; [exact Hasc|]. rewrite Ha. exact Hin. }
  split; [exact Hmap|].
  unfold aligned. rewrite C1, HK.
  eapply arrays_map_extent; [|exact Hmap | exact Hal].
  intros A a Ha. apply select_length. rewrite Ha. exact Hin.
Qed.


(** ** The extents across an E-step *)

Lemma x_mean_comp_length s :
  length (mat (_update_x_mean_comp s) x_mean_comp) = length (mat s x_mean_comp).
Proof.
  unfold _update_x_mean_comp, einsum_ki.
  destruct (source s); cbn; rewrite decide_True by reflexivity;
    apply length_imap.
Qed.

Lemma N_comp_length s s1 :
  _update_N_comp s = OK s1 -> length (vec s1 N_comp) = length (vec s N_comp).
Proof.
  intros H. apply N_comp_writes in H as (n & Hn & ->). cbn.
  rewrite decide_True by reflexivity. unfold regularize. rewrite length_map.
  unfold N_comp_sums in Hn.
  destruct (source s) as [data [w|]|mu_ sigma_ Nomega].
  - apply weighted_col_sums_spec in Hn. tauto.
  - apply col_sums_spec in Hn. tauto.
  - apply weighted_col_sums_spec in Hn. tauto.
Qed.

(** An E-step keeps every array as long, and as wide, as it finds it. *)
Lemma E_step_aligned s s' :
  E_step s = OK s' -> aligned s -> S_private s -> aligned s' /\ S_private s'.
Proof.
  unfold E_step. intros H (E1 & E2 & E3 & E4) Hpriv.
  apply bind_OK in H as (s1 & H1 & H).
  pose proof (det_ln_lambda_length _ _ H1) as L1.
  apply det_ln_lambda_writes in H1 as [v1 ->]. cbn in L1.
  rewrite decide_True in L1 by reflexivity.
  apply bind_OK in H as (s2 & H2 & H).
  pose proof (gauss_exponent_rows (K s) _ _ H2 (E4 _)) as L2.
  apply gauss_exponent_writes in H2 as (e & -> & _). cbn in L2.
  rewrite decide_True in L2 by reflexivity.
  apply bind_OK in H as (s4 & H3 & H).
  assert (L3 : Forall (fun row => length row = K s) (nk s4 r)).
  { eapply r_rows; [exact H3 | |].
    - cbn. rewrite decide_True by reflexivity. exact L2.
    - cbn. rewrite decide_True by reflexivity. rewrite length_map.
      rewrite decide_False by discriminate. apply E1. }
  apply r_writes in H3 as (lr & rho & _ & _ & ->).
  apply bind_OK in H as (s5 & H4 & H).
  pose proof (N_comp_length _ _ H4) as L4.
  apply N_comp_writes in H4 as (n & _ & ->).
  pose proof (S_length _ _ H) as L5.
  apply S_writes in H as (h & -> & _ & Hh).
  match type of L5 with
  | context [_update_x_mean_comp ?t] =>
      pose proof (x_mean_comp_length t) as L6;
      destruct (x_mean_comp_writes t) as [x Hx]; rewrite Hx in *
  end.
  unfold _update_expectation_ln_pi in *.
  unfold aligned, extent, S_private, tensor in *. cbn in *.
  rewrite !decide_True in * by reflexivity.
  rewrite ?decide_False in * by discriminate.
  split; [|exact Hpriv]. split; [|split; [|split]].
  - intros a.
    destruct a; repeat (case_decide; try congruence);
      first [ rewrite L4; apply E1 | rewrite length_map; apply E1
            | rewrite L1; apply E1 | apply E1 ].
  - intros a.
    destruct a; repeat (case_decide; try congruence);
      first [ rewrite L6; apply E2 | apply E2 ].
  - intros a. destruct (decide (a = S_)) as [->|Hne].
    + rewrite L5. apply E3.
    + unfold deref. rewrite Hh by (apply Hpriv, Hne). apply E3.
  - intros a.
    destruct a; repeat (case_decide; try congruence); assumption.
Qed.


(** ** Pruning *)

Lemma survivors_spec threshold s :
  aligned s ->
  let ks := components_to_survive threshold s in
  ascending_from 0 ks /\ Forall (fun k => k < K s) ks /\
  (forall k, k ∈ ks <->
             exists x, vec s N_comp !! k = Some x /\ (threshold <= x)%Q) /\
  length ks <= K s /\
  (forall A (a : list A), select ks a `sublist_of` a).
Proof.
  intros (E1 & _) ks.
  destruct (where_ge_spec threshold (vec s N_comp) 0) as (Hasc & Hin & Hiff).
  fold (components_to_survive threshold s) in Hasc, Hin, Hiff.
  fold ks in Hasc, Hin, Hiff. rewrite E1 in Hin. cbn in Hin.
  assert (Hsub : forall A (a : list A), select ks a `sublist_of` a).
  { intros A a. apply (select_sublist ks 0 a Hasc). }
  split; [exact Hasc|]. split; [exact Hin|]. split; [|split; [|exact Hsub]].
  - intros k. rewrite Hiff. rewrite Nat.sub_0_r. split.
    + intros (x & _ & Hx & Ht). eauto.
    + intros (x & Hx & Ht). exists x. split; [lia | auto].
  - pose proof (sublist_length _ _ (Hsub _ (vec s N_comp))) as Hl.
    rewrite select_length, E1 in Hl; [exact Hl|]. rewrite E1. exact Hin.
Qed.

(** One call of [prune] that returns: the state it leaves is aligned
    again, [K] has not grown, and every hyperparameter array is a
    subsequence of what it was. *)
Lemma prune_keeps_order threshold s s1 :
  aligned s -> S_private s -> prune threshold s = OK s1 ->
  aligned s1 /\ S_private s1 /\ K s1 <= K s /\
  (forall a, a <> expectation_det_ln_lambda -> a <> expectation_ln_pi ->
             a <> N_comp -> vec s1 a `sublist_of` vec s a) /\
  (forall a, a <> x_mean_comp -> mat s1 a `sublist_of` mat s a) /\
  (forall a, a <> S_ -> tensor s1 a `sublist_of` tensor s a).
Proof.
  intros Hal Hpriv. unfold prune. destruct (Qeq_bool threshold 0).
  { intros [= <-]. split; [exact Hal|]. split; [exact Hpriv|].
    split; [lia|]. split; [|split]; intros; reflexivity. }
  destruct (compact_spec threshold s Hal) as (c & Hc & HK & Hmap & Halc).
  destruct (survivors_spec threshold s Hal) as (_ & _ & _ & Hle & Hsub).
  cbn zeta in *. rewrite Hc. cbn [mbind result_bind]. intros H.
  destruct Hmap as (M1 & M2 & M3 & M4 & M5 & M6 & M7 & M8 & M9).
  assert (Hprivc : S_private c).
  { unfold S_private. rewrite M3. exact Hpriv. }
  destruct (E_step_aligned c s1 H Halc Hprivc) as [Hal1 Hpriv1].
  apply E_step_writes in H
    as (F1 & _ & _ & F4 & F5 & F6 & _ & F8 & _).
  split; [exact Hal1|]. split; [exact Hpriv1|]. split; [lia|].
  split; [|split].
  - intros a Ha1 Ha2 Ha3. rewrite F5, M6 by assumption. apply Hsub.
  - intros a Ha. rewrite F6, M7 by assumption. apply Hsub.
  - intros a Ha. unfold tensor at 1, deref. rewrite F4, F8 by (apply Hprivc, Ha).
    fold (deref (heap c) (ten c a)). fold (tensor c a). rewrite M8. apply Hsub.
Qed.

(** C3. [prune(threshold)] with a zero threshold returns at once and
    changes nothing.  Otherwise the survivors are exactly the components
    with [N_comp >= threshold]; every per-component array is left with the
    entries (the columns, for [r] and the exponents) of the survivors, in
    ascending order of their original indices, and nothing behind them;
    [K] is their number, so it does not grow; the call ends with a full
    E-step; and across consecutive prunes the components that remain keep
    their relative order. *)
Theorem prune_compacts threshold s :
  aligned s -> S_private s ->
  ((threshold == 0)%Q -> prune threshold s = OK s)
  /\ (~ (threshold == 0)%Q ->
      let ks := components_to_survive threshold s in
      ascending_from 0 ks /\
      (forall k, k ∈ ks <->
                 exists x, vec s N_comp !! k = Some x /\ (threshold <= x)%Q) /\
      exists c,
        compact threshold s = OK c /\ prune threshold s = E_step c /\
        K c = length ks /\ K c <= K s /\
        arrays_map (fun A => select ks) s c /\
        (forall A (a : list A), select ks a `sublist_of` a))
  /\ (forall threshold2 s1 s2,
        prune threshold s = OK s1 -> prune threshold2 s1 = OK s2 ->
        K s2 <= K s1 /\ K s1 <= K s /\
        (forall a, a <> expectation_det_ln_lambda -> a <> expectation_ln_pi ->
                   a <> N_comp ->
                   vec s2 a `sublist_of` vec s1 a /\
                   vec s1 a `sublist_of` vec s a) /\
        (forall a, a <> x_mean_comp ->
                   mat s2 a `sublist_of` mat s1 a /\
                   mat s1 a `sublist_of` mat s a) /\
        (forall a, a <> S_ ->
                   tensor s2 a `sublist_of` tensor s1 a /\
                   tensor s1 a `sublist_of` tensor s a)).
Proof.
  intros Hal Hpriv. split; [|split].
  - intros Hz. unfold prune. apply Qeqb_eq in Hz. rewrite Hz. reflexivity.
  - intros Hnz ks.
    destruct (survivors_spec threshold s Hal) as (S1 & _ & S3 & S4 & S5).
    destruct (compact_spec threshold s Hal) as (c & Hc & HK & Hmap & _).
    cbn zeta in *. fold ks in S1, S3, S4, S5, HK, Hmap.
    split; [exact S1|]. split; [exact S3|].
    exists c. split; [exact Hc|]. split.
    { unfold prune. apply Qeqb_neq in Hnz. rewrite Hnz, Hc. reflexivity. }
    split; [exact HK|]. split; [lia|]. split; [exact Hmap | exact S5].
  - intros threshold2 s1 s2 H1 H2.
    destruct (prune_keeps_order _ _ _ Hal Hpriv H1)
      as (Hal1 & Hpriv1 & K1 & V1 & M1 & T1).
    destruct (prune_keeps_order _ _ _ Hal1 Hpriv1 H2)
      as (_ & _ & K2 & V2 & M2 & T2).
    split; [exact K2|]. split; [exact K1|]. split; [|split]; intros a; auto.
Qed.


(** ** What an update leaves alone *)

Lemma update_m_writes s s1 :
  _update_m s = OK s1 ->
  K s1 = K s /\ dim s1 = dim s /\ source s1 = source s /\ vec s1 = vec s /\
  ten s1 = ten s /\ heap s1 = heap s /\ nk s1 = nk s /\
  inv_N_comp s1 = inv_N_comp s /\ log_rho s1 = log_rho s /\
  forall a, a <> m -> mat s1 a = mat s a.
Proof.
  unfold _update_m.
  apply (foldM_invariant
           (fun s1 => K s1 = K s /\ dim s1 = dim s /\ source s1 = source s /\
                      vec s1 = vec s /\ ten s1 = ten s /\ heap s1 = heap s /\
                      nk s1 = nk s /\ inv_N_comp s1 = inv_N_comp s /\
                      log_rho s1 = log_rho s /\
                      forall a, a <> m -> mat s1 a = mat s a)).
  - intros k a b (I1 & I2 & I3 & I4 & I5 & I6 & I7 & I8 & I9 & I10) H.
    apply bind_OK in H as (? & _ & H). apply bind_OK in H as (? & _ & H).
    apply bind_OK in H as (? & _ & H). apply bind_OK in H as (? & _ & H).
    apply bind_OK in H as (? & _ & H). apply bind_OK in H as (mm & _ & [= <-]).
    cbn. repeat (split; [assumption|]).
    intros c Hc. rewrite decide_False by exact Hc. auto.
  - repeat (split; [reflexivity|]). reflexivity.
Qed.

(** [_update_W] writes into the array object that [W] is bound to, and
    nowhere else. *)
Lemma update_W_writes s s1 :
  _update_W s = OK s1 ->
  exists h,
    s1 = set_heap h s /\ length h = length (heap s) /\
    forall l, l <> ten s W -> h !! l = heap s !! l.
Proof.
  unfold _update_W.
  apply (foldM_invariant
           (fun s1 => exists h, s1 = set_heap h s /\ length h = length (heap s) /\
                      forall l, l <> ten s W -> h !! l = heap s !! l)).
  - intros k a b (h & -> & Hlen & Hh) H.
    apply bind_OK in H as (? & _ & H). apply bind_OK in H as (? & _ & H).
    apply bind_OK in H as (? & _ & H). apply bind_OK in H as (? & _ & H).
    apply bind_OK in H as (? & _ & H). apply bind_OK in H as (? & _ & H).
    apply bind_OK in H as (? & _ & H). apply bind_OK in H as (t & _ & [= <-]).
    exists (<[ten s W := t]> h). cbn. split; [reflexivity|].
    split; [rewrite length_insert; exact Hlen|].
    intros l Hl. rewrite list_lookup_insert_ne by congruence. auto.
  - exists (heap s). destruct s; cbn; auto.
Qed.

Lemma M_step_writes s s' :
  M_step s = OK s' ->
  K s' = K s /\ dim s' = dim s /\ source s' = source s /\ ten s' = ten s /\
  nk s' = nk s /\ inv_N_comp s' = inv_N_comp s /\ log_rho s' = log_rho s /\
  (forall a, a <> nu -> a <> alpha -> a <> beta -> vec s' a = vec s a) /\
  (forall a, a <> m -> mat s' a = mat s a) /\
  length (heap s') = length (heap s) /\
  (forall l, l <> ten s W -> heap s' !! l = heap s !! l).
Proof.
  unfold M_step. intros H.
  apply bind_OK in H as (v1 & _ & H). apply bind_OK in H as (v2 & _ & H).
  apply bind_OK in H as (v3 & _ & H). apply bind_OK in H as (s1 & H1 & H).
  apply update_m_writes in H1
    as (I1 & I2 & I3 & I4 & I5 & I6 & I7 & I8 & I9 & I10).
  apply update_W_writes in H as (h & -> & Hlen & Hh).
  cbn in *. rewrite I1, I2, I3, I4, I5, I7, I8, I9.
  repeat (split; [reflexivity|]).
  split; [|split; [|split]].
  - intros a Ha1 Ha2 Ha3. repeat (case_decide; try congruence).
  - exact I10.
  - rewrite Hlen, I6. reflexivity.
  - intros l Hl. rewrite Hh by (rewrite I5; exact Hl). rewrite I6. reflexivity.
Qed.

(** X1. When [W] is an array of its own (neither the array of [W0] nor that of
    [inv_W0]) and so is [S], [update] leaves the prior hyperparameters as
    they are. *)
Lemma update_keeps_priors s s' :
  update s = OK s' ->
  ten s W <> ten s W0 -> ten s W <> ten s inv_W0 -> S_private s ->
  vec s' alpha0 = vec s alpha0 /\ vec s' beta0 = vec s beta0 /\
  vec s' nu0 = vec s nu0 /\ mat s' m0 = mat s m0 /\
  tensor s' W0 = tensor s W0 /\ tensor s' inv_W0 = tensor s inv_W0.
Proof.
  unfold update. intros H HW0 Hinv Hpriv.
  apply bind_OK in H as (s1 & H1 & H2).
  apply M_step_writes in H1
    as (_ & _ & _ & M4 & _ & _ & _ & M8 & M9 & _ & M11).
  apply E_step_writes in H2
    as (_ & _ & _ & E4 & E5 & E6 & _ & E8 & _).
  rewrite !E5, !M8, E6, M9 by discriminate.
  repeat (split; [reflexivity|]).
  unfold tensor, deref. rewrite !E4, !M4.
  rewrite !E8 by (rewrite M4; apply Hpriv; discriminate).
  rewrite !M11 by congruence. auto.
Qed.


(** ** Further properties of the engine *)

(** X3. An E-step writes the caches and the sufficient statistics only: the
    number of components, the prior and the posterior hyperparameters are
    after it what they were before. *)
Theorem E_step_keeps_hyperparameters s s' :
  E_step s = OK s' -> S_private s ->
  K s' = K s /\ dim s' = dim s /\ source s' = source s /\
  (forall a, a ∈ [alpha0; alpha; beta0; beta; nu0; nu] ->
             vec s' a = vec s a) /\
  (forall a, a ∈ [m0; m] -> mat s' a = mat s a) /\
  (forall a, a ∈ [W0; inv_W0; W] -> tensor s' a = tensor s a).
Proof.
  intros H Hpriv.
  apply E_step_writes in H as (F1 & F2 & F3 & F4 & F5 & F6 & _ & F8 & _).
  split; [exact F1|]. split; [exact F2|]. split; [exact F3|].
  split; [|split].
  - intros a Ha. apply F5; intros ->;
      repeat (apply elem_of_cons in Ha as [Ha|Ha]; [discriminate|]);
      inversion Ha.
  - intros a Ha. apply F6. intros ->.
    repeat (apply elem_of_cons in Ha as [Ha|Ha]; [discriminate|]).
    inversion Ha.
  - intros a Ha. unfold tensor, deref. rewrite F4.
    rewrite F8; [reflexivity|]. apply Hpriv. intros ->.
    repeat (apply elem_of_cons in Ha as [Ha|Ha]; [discriminate|]).
    inversion Ha.
Qed.

(** X4. An E-step on arrays that have an entry (a column) per component
    leaves them so. *)
Theorem E_step_keeps_shapes s s' :
  E_step s = OK s' -> aligned s -> S_private s ->
  aligned s' /\ S_private s'.
Proof. intros H1 H2 H3. eapply E_step_aligned; eassumption. Qed.

Lemma run_loop_index prune_ rel_tol abs_tol range lv i s' :
  run_loop prune_ rel_tol abs_tol range lv = OK (Some i, s') -> i ∈ range.
Proof.
  revert lv. induction range as [|j range IH]; intros lv; cbn.
  - discriminate.
  - intros H. apply bind_OK in H as (o & Ho & H).
    destruct o as [j' how s1 | lv1].
    + injection H as <- <-.
      unfold iteration in Ho.
      apply bind_OK in Ho as (ob & _ & Ho). apply bind_OK in Ho as (s1' & _ & Ho).
      apply bind_OK in Ho as (b & _ & Ho).
      destruct (convergence_test b ob rel_tol abs_tol);
        try (injection Ho as <- _; left).
      apply bind_OK in Ho as (? & _ & Ho). discriminate.
    + right. eauto.
Qed.

(** X5. The count that [run] returns is one of the passes it was allowed:
    between 1 and [iterations]. *)
Theorem run_count_in_range iterations prune_ rel_tol abs_tol s i s' :
  run iterations prune_ rel_tol abs_tol s = OK (Some i, s') ->
  1 <= i <= iterations.
Proof.
  unfold run. intros H. apply run_loop_index in H.
  apply elem_of_seq in H. lia.
Qed.

(** X6. The order of the tests in [run]: equality of the two bounds is exact
    convergence whatever the tolerances; a bound that went down is never
    convergence; and neither is an increase up to a bound of zero, unless
    the absolute test applies. *)
Theorem convergence_test_order b ob rel_tol abs_tol :
  (convergence_test b ob rel_tol abs_tol = exact <-> b == ob) /\
  ((b < ob)%Q -> convergence_test b ob rel_tol abs_tol = not_yet) /\
  (b == 0 -> (abs_tol <= 0)%Q -> ~ b == ob ->
   convergence_test b ob rel_tol abs_tol = not_yet).
Proof.
  unfold convergence_test. cbv zeta. split; [|split].
  - destruct (Qeq_bool b ob) eqn:E.
    + apply Qeqb_eq in E. split; auto.
    + apply Qeqb_neq in E. split; [|tauto].
      repeat match goal with
             | |- context [if ?c then _ else _] => destruct c
             end; discriminate.
  - intros Hlt.
    destruct (Qeq_bool b ob) eqn:E; [apply Qeqb_eq in E; lra|].
    destruct (Qltb 0 (b - ob)) eqn:E1; [|reflexivity].
    apply Qltb_lt in E1. lra.
  - intros Hz Ha Hne.
    destruct (Qeq_bool b ob) eqn:E; [apply Qeqb_eq in E; tauto|].
    destruct (Qltb 0 (b - ob)); [|reflexivity].
    destruct (Qltb (Qabs b) abs_tol) eqn:E2.
    + apply Qltb_lt in E2. pose proof (Qabs_nonneg b). lra.
    + unfold rel_test. apply Qeqb_eq in Hz. rewrite Hz. reflexivity.
Qed.

(** X7. [_check_K_vector] lets a one-dimensional array pass exactly when it
    has K entries, all of them above [min]; an array of any other rank
    is reported as not a vector. *)
Theorem check_K_vector_accepts h k name x min y :
  (_check_K_vector h k name (Nd1 x) min = OK y <->
   y = x /\ length x = k /\ Forall (fun e => (min < e)%Q) x) /\
  (forall q, _check_K_vector h k name (Nd0 q) min =
             Raise (ValueError "%s is not a vector but has shape %s"
                      [AStr name; AShape []])) /\
  (forall a, _check_K_vector h k name (Nd2 a) min =
             Raise (ValueError "%s is not a vector but has shape %s"
                      [AStr name; AShape (shape2 a)])).
Proof.
  split; [|split; reflexivity]. split.
  - unfold _check_K_vector. cbn.
    destruct (Nat.eqb_spec (length x) k) as [E|E]; cbn; [|discriminate].
    destruct (forallb (Qltb min) x) eqn:F; cbn; [|discriminate].
    intros [= <-]. split; [reflexivity|]. split; [exact E|].
    apply Forall_forall. intros e He. apply Qltb_lt.
    rewrite forallb_forall in F. apply F, list_elem_of_In, He.
  - intros (-> & E & F). apply check_K_vector_ok; assumption.
Qed.

(** X8. A float given for a prior vector ([alpha0], [beta0] or [nu0]) is
    copied to all K components, and checked after that: with no component
    at all any value passes, otherwise a value not above the minimum is
    refused under the name of the parameter. *)
Theorem scalar_prior_broadcast name dflt min s (kw : kwargs) x :
  kw !! name = Some (PyFloat x) ->
  ((min < x)%Q ->
   prior_K_vector name dflt min s kw = OK (repeat x (K s), delete name kw)) /\
  (K s = 0 -> prior_K_vector name dflt min s kw = OK ([], delete name kw)) /\
  ((x <= min)%Q -> 0 < K s ->
   prior_K_vector name dflt min s kw =
   Raise (ValueError "All elements of %s must exceed %g. %s=%s"
            [AStr name; ANum min; AStr name; AVec (repeat x (K s))])).
Proof.
  intros H. unfold prior_K_vector, pop. rewrite H. cbn -[_check_K_vector].
  split; [|split].
  - intros Hx. rewrite check_K_vector_ok; [reflexivity | apply repeat_length |].
    apply Forall_forall. intros e He. apply list_elem_of_In, repeat_spec in He.
    subst. exact Hx.
  - intros ->. reflexivity.
  - intros Hx HK. rewrite check_K_vector_min; [reflexivity | apply repeat_length |].
    apply Exists_exists. exists x. split; [|exact Hx].
    destruct (K s) as [|n]; [lia|]. left.
Qed.

(** X9. The M-step adds the effective counts to the priors: [nu = nu0 +
    N_comp], [alpha = alpha0 + N_comp] and [beta = beta0 + N_comp],
    entry by entry, and leaves [N_comp] and the priors as they are. *)
Theorem M_step_adds_counts s s' :
  M_step s = OK s' -> aligned s ->
  vec s' nu = zip_with Qplus (vec s nu0) (vec s N_comp) /\
  vec s' alpha = zip_with Qplus (vec s alpha0) (vec s N_comp) /\
  vec s' beta = zip_with Qplus (vec s beta0) (vec s N_comp) /\
  vec s' N_comp = vec s N_comp.
Proof.
  unfold M_step. intros H (E1 & _).
  apply bind_OK in H as (v1 & B1 & H). cbv zeta in H.
  apply bind_OK in H as (v2 & B2 & H). cbv zeta in H.
  apply bind_OK in H as (v3 & B3 & H).
  apply bind_OK in H as (s1 & H1 & H).
  apply update_m_writes in H1 as (_ & _ & _ & I4 & _).
  apply update_W_writes in H as (h & -> & _).
  cbn in B2, B3. repeat (rewrite decide_False in B2 by discriminate).
  repeat (rewrite decide_False in B3 by discriminate).
  unfold bcast in B1, B2, B3.
  rewrite decide_True in B1 by (rewrite !E1; reflexivity).
  rewrite decide_True in B2 by (rewrite !E1; reflexivity).
  rewrite decide_True in B3 by (rewrite !E1; reflexivity).
  injection B1 as <-. injection B2 as <-. injection B3 as <-.
  cbn. rewrite I4. cbn.
  repeat (rewrite decide_True by reflexivity).
  repeat (rewrite decide_False by discriminate).
  repeat (rewrite decide_True by reflexivity). auto.
Qed.


(** ** Which array [W] is bound to *)

Lemma prior_K_vector_kw name dflt min s (kw : kwargs) x kw' :
  prior_K_vector name dflt min s kw = OK (x, kw') -> kw' = delete name kw.
Proof.
  unfold prior_K_vector, pop. intros H.
  apply bind_OK in H as (v & _ & H). apply bind_OK in H as (y & _ & H).
  congruence.
Qed.

Lemma posterior_K_vector_kw name prior min s (kw : kwargs) x kw' :
  posterior_K_vector name prior min s kw = OK (x, kw') -> kw' = delete name kw.
Proof.
  unfold posterior_K_vector, pop. intros H.
  apply bind_OK in H as (y & _ & H). congruence.
Qed.

Lemma m0_param_kw s (kw : kwargs) v kw' :
  m0_param s kw = OK (v, kw') -> kw' = delete "m0" kw.
Proof.
  unfold m0_param, pop. intros H.
  destruct (default (Nd1 (zeros (dim s))) (kw !! "m0")); try discriminate;
    repeat (case_match; try discriminate); congruence.
Qed.

Lemma m_param_kw s (kw : kwargs) : (m_param s kw).2 = delete "m" kw.
Proof.
  unfold m_param, pop. destruct (default PyNone (kw !! "m")); reflexivity.
Qed.

(** What [W0_param] binds: [W0] and [inv_W0] to arrays that exist, and
    it takes nothing but ["W0"] from the keywords. *)
Lemma W0_param_locs s (kw : kwargs) s' kw' :
  W0_param s kw = OK (s', kw') ->
  (forall l, kw !! "W0" = Some (Nd3 l) -> l < length (heap s)) ->
  kw' = delete "W0" kw /\
  ten s' W0 < length (heap s') /\ ten s' inv_W0 < length (heap s') /\
  ten s' W0 <> ten s' inv_W0.
Proof.
  unfold W0_param, pop. intros H Hl.
  destruct (kw !! "W0") as [v|] eqn:E; cbn in H.
  - destruct v as [| | | |a|l]; try discriminate.
    + injection H as <- <-. cbn. rewrite !length_app. cbn.
      repeat (rewrite decide_True by reflexivity).
      repeat (rewrite decide_False by discriminate).
      repeat (rewrite decide_True by reflexivity).
      split; [reflexivity|]. lia.
    + case_decide; [|discriminate].
      apply bind_OK in H as (ia & _ & H). injection H as <- <-. cbn.
      rewrite !length_app. cbn.
      repeat (rewrite decide_True by reflexivity).
      repeat (rewrite decide_False by discriminate).
      repeat (rewrite decide_True by reflexivity).
      split; [reflexivity|]. lia.
    + case_decide; [|discriminate].
      apply bind_OK in H as (ia & _ & H). injection H as <- <-. cbn.
      rewrite !length_app. cbn.
      repeat (rewrite decide_True by reflexivity).
      repeat (rewrite decide_False by discriminate).
      repeat (rewrite decide_True by reflexivity).
      specialize (Hl l eq_refl).
      split; [reflexivity|]. lia.
  - injection H as <- <-. cbn. rewrite !length_app. cbn.
    repeat (rewrite decide_True by reflexivity).
    repeat (rewrite decide_False by discriminate).
    repeat (rewrite decide_True by reflexivity).
    split; [reflexivity|]. lia.
Qed.

(** Without a ["W"] among the keywords, [W_param] binds [W] to a copy of
    [W0] that it has just made. *)
Lemma W_param_copy s (kw : kwargs) s' kw' :
  W_param s kw = OK (s', kw') -> kw !! "W" = None ->
  ten s' W = length (heap s) /\ heap s' = heap s ++ [tensor s W0] /\
  ten s' W0 = ten s W0 /\ ten s' inv_W0 = ten s inv_W0 /\ ten s' S_ = ten s S_.
Proof.
  unfold W_param, alloc, pop. intros H E. rewrite E in H. cbn in H.
  case_decide; [|discriminate]. injection H as <- <-. cbn.
  rewrite decide_True by reflexivity.
  repeat (rewrite decide_False by discriminate). auto.
Qed.

Ltac svp_step_in H :=
  cbn -[prior_K_vector posterior_K_vector m0_param m_param check_mean_shape
       W0_param W_param] in H.

(** Where [set_variational_parameters] leaves [W] when no ["W"] is
    passed: on a copy of [W0] made after the arrays of [W0] and [inv_W0],
    the last array of the store. *)
Lemma svp_W_copy (kw : kwargs) s s' :
  set_variational_parameters [] kw s = OK s' ->
  kw !! "W" = None ->
  (forall l, kw !! "W0" = Some (Nd3 l) -> l < length (heap s)) ->
  ten s' W0 < ten s' W /\ ten s' inv_W0 < ten s' W /\
  S (ten s' W) = length (heap s') /\ tensor s' W = tensor s' W0.
Proof.
  intros H HW HW0. unfold set_variational_parameters in H. svp_step_in H.
  apply bind_OK in H as ([a0 kw1] & H1 & H). apply prior_K_vector_kw in H1.
  apply bind_OK in H as ([a kw2] & H2 & H). apply posterior_K_vector_kw in H2.
  apply bind_OK in H as ([b0 kw3] & H3 & H). apply prior_K_vector_kw in H3.
  apply bind_OK in H as ([b kw4] & H4 & H). apply posterior_K_vector_kw in H4.
  svp_step_in H.
  apply bind_OK in H as ([n0 kw5] & H5 & H). apply prior_K_vector_kw in H5.
  apply bind_OK in H as ([n kw6] & H6 & H). apply posterior_K_vector_kw in H6.
  apply bind_OK in H as ([vm0 kw7] & H7 & H). apply m0_param_kw in H7.
  pose proof (m_param_kw s kw7) as H8.
  destruct (m_param s kw7) as [vm kw8]. cbn [snd] in H8.
  apply bind_OK in H as (xm0 & _ & H). apply bind_OK in H as (xm & _ & H).
  svp_step_in H.
  apply bind_OK in H as ([s1 kw9] & H9 & H).
  apply bind_OK in H as ([s2 kw10] & H10 & H).
  destruct (negb (bool_decide (kw10 = ∅))); [discriminate|].
  injection H as <-.
  assert (Hkw : forall key, key = "W" \/ key = "W0" -> kw8 !! key = kw !! key).
  { intros key Hk. subst kw8 kw7 kw6 kw5 kw4 kw3 kw2 kw1.
    rewrite !lookup_delete_ne by (destruct Hk; subst; discriminate).
    reflexivity. }
  apply W0_param_locs in H9 as (-> & L1 & L2 & L3).
  2:{ cbn. intros l Hl. apply HW0. rewrite <- Hkw by auto. exact Hl. }
  apply W_param_copy in H10 as (C1 & C2 & C3 & C4 & _).
  2:{ rewrite lookup_delete_ne by discriminate. rewrite Hkw by auto. exact HW. }
  rewrite C1, C2, C3, C4, length_app. cbn [length].
  split; [exact L1|]. split; [exact L2|]. split; [lia|].
  unfold tensor, deref. rewrite C1, C2, C3.
  rewrite lookup_app_r by lia. rewrite Nat.sub_diag. cbn.
  rewrite lookup_app_l by exact L1. reflexivity.
Qed.

Lemma initialize_output_heap s :
  ten (_initialize_output s) S_ = length (heap s) /\
  length (heap (_initialize_output s)) = S (length (heap s)) /\
  (forall a, a <> S_ -> ten (_initialize_output s) a = ten s a) /\
  (forall l, l < length (heap s) ->
             heap (_initialize_output s) !! l = heap s !! l).
Proof.
  unfold _initialize_output, new_ten, alloc.
  cbn. destruct (source s); cbn; rewrite ?length_app; cbn;
    (split; [reflexivity|]; split; [lia|]; split;
     [intros a Ha; rewrite decide_False by exact Ha; reflexivity
     |intros l Hl; apply lookup_app_l, Hl]).
Qed.

(** X2. An engine made by [GaussianInference] without a ["W"] among the
    keywords never overwrites its priors: [W] is an array of its own, and
    so is [S], and every [update] leaves [alpha0], [beta0], [nu0], [m0],
    [W0] and [inv_W0] as they are. *)
Theorem constructed_engine_keeps_priors data components_ weights_
    (kw : kwargs) h s s' :
  GaussianInference_init data components_ weights_ kw h = OK s ->
  kw !! "W" = None ->
  (forall l, kw !! "W0" = Some (Nd3 l) -> l < length h) ->
  update s = OK s' ->
  ten s W <> ten s W0 /\ ten s W <> ten s inv_W0 /\ S_private s /\
  vec s' alpha0 = vec s alpha0 /\ vec s' beta0 = vec s beta0 /\
  vec s' nu0 = vec s nu0 /\ mat s' m0 = mat s m0 /\
  tensor s' W0 = tensor s W0 /\ tensor s' inv_W0 = tensor s inv_W0.
Proof.
  unfold GaussianInference_init. intros H HW HW0 Hu.
  apply bind_OK in H as (w & _ & H). cbv zeta in H.
  apply bind_OK in H as (s1 & H1 & H).
  apply svp_W_copy in H1 as (L1 & L2 & L3 & _); [|exact HW|exact HW0].
  apply E_step_writes in H as (_ & _ & _ & E4 & _).
  destruct (initialize_output_heap s1) as (I1 & I2 & I3 & I4).
  cbn in E4.
  assert (T : forall a, a <> S_ -> ten s a = ten s1 a).
  { intros a Ha. rewrite E4. apply I3, Ha. }
  assert (TS : ten s S_ = length (heap s1)) by (rewrite E4; exact I1).
  assert (P : S_private s).
  { intros a Ha. rewrite TS, (T a Ha).
    destruct a; try contradiction; lia. }
  assert (N1 : ten s W <> ten s W0) by (rewrite !T by discriminate; lia).
  assert (N2 : ten s W <> ten s inv_W0) by (rewrite !T by discriminate; lia).
  split; [exact N1|]. split; [exact N2|]. split; [exact P|].
  unfold update in Hu. apply bind_OK in Hu as (s2 & H1 & H2).
  apply M_step_writes in H1
    as (_ & _ & _ & M4 & _ & _ & _ & M8 & M9 & _ & M11).
  apply E_step_writes in H2
    as (_ & _ & _ & F4 & F5 & F6 & _ & F8 & _).
  rewrite !F5, !M8, F6, M9 by discriminate.
  repeat (split; [reflexivity|]).
  unfold tensor, deref. rewrite !F4, !M4.
  rewrite !F8 by (rewrite M4; apply P; discriminate).
  rewrite !M11 by congruence. auto.
Qed.

(** ** The means after an M-step *)

Lemma update_m_loop ks s s' :
  foldM (fun k s =>
    bk ← index (vec s beta) k;
    b0k ← index (vec s beta0) k;
    m0k ← index (mat s m0) k;
    nk_ ← index (vec s N_comp) k;
    xk ← index (mat s x_mean_comp) k;
    mm ← setitem (mat s m) k
           (vscale (1 / bk)%Q (vadd (vscale b0k m0k) (vscale nk_ xk)));
    OK (set_mat m mm s)) ks s = OK s' ->
  forall k,
    (k ∈ ks ->
     exists bk b0k m0k nk_ xk,
       vec s beta !! k = Some bk /\ vec s beta0 !! k = Some b0k /\
       mat s m0 !! k = Some m0k /\ vec s N_comp !! k = Some nk_ /\
       mat s x_mean_comp !! k = Some xk /\
       mat s' m !! k
       = Some (vscale (1 / bk)%Q (vadd (vscale b0k m0k) (vscale nk_ xk)))) /\
    (k ∉ ks -> mat s' m !! k = mat s m !! k).
Proof.
  revert s. induction ks as [|k0 ks IH]; intros s H k.
  - injection H as <-. split; [intros Hk; inversion Hk | reflexivity].
  - cbn [foldM] in H. apply bind_OK in H as (s1 & H1 & H).
    apply bind_OK in H1 as (bk & Eb & H1). apply bind_OK in H1 as (b0k & Eb0 & H1).
    apply bind_OK in H1 as (m0k & Em0 & H1). apply bind_OK in H1 as (nk_ & En & H1).
    apply bind_OK in H1 as (xk & Ex & H1). apply bind_OK in H1 as (mm & Em & H1).
    injection H1 as <-.
    unfold setitem in Em. case_decide as Hlt; [|discriminate].
    injection Em as <-.
    unfold index in Eb, Eb0, Em0, En, Ex.
    destruct (vec s beta !! k0) as [?|] eqn:Fb; [|discriminate].
    destruct (vec s beta0 !! k0) as [?|] eqn:Fb0; [|discriminate].
    destruct (mat s m0 !! k0) as [?|] eqn:Fm0; [|discriminate].
    destruct (vec s N_comp !! k0) as [?|] eqn:Fn; [|discriminate].
    destruct (mat s x_mean_comp !! k0) as [?|] eqn:Fx; [|discriminate].
    injection Eb as ->. injection Eb0 as ->. injection Em0 as ->.
    injection En as ->. injection Ex as ->.
    specialize (IH _ H k). cbn in IH.
    repeat (case_decide; try congruence).
    destruct IH as [IH1 IH2].
    destruct (decide (k ∈ ks)) as [Hin|Hnin].
    + split; [intros _; exact (IH1 Hin)|].
      intros Hn. exfalso. apply Hn. right. exact Hin.
    + split.
      * intros Hk. apply elem_of_cons in Hk as [->|Hk]; [|contradiction].
        exists bk, b0k, m0k, nk_, xk.
        repeat (split; [assumption|]).
        rewrite (IH2 Hnin). apply list_lookup_insert_eq, Hlt.
      * intros Hn. rewrite (IH2 Hnin).
        apply list_lookup_insert_ne. intros ->. apply Hn. left.
Qed.

(** X10. After an M-step every mean is the weighted average of its prior and
    of the mean of the component's samples, divided by the new [beta]:
    [m_k = (beta0_k m0_k + N_k xbar_k) / (beta0_k + N_k)]. *)
Theorem M_step_means s s' k :
  M_step s = OK s' -> aligned s -> k < K s ->
  exists b0k m0k nk_ xk,
    vec s beta0 !! k = Some b0k /\ mat s m0 !! k = Some m0k /\
    vec s N_comp !! k = Some nk_ /\ mat s x_mean_comp !! k = Some xk /\
    mat s' m !! k
    = Some (vscale (1 / (b0k + nk_))%Q
              (vadd (vscale b0k m0k) (vscale nk_ xk))).
Proof.
  unfold M_step. intros H (E1 & _) Hk.
  apply bind_OK in H as (v1 & B1 & H). cbv zeta in H.
  apply bind_OK in H as (v2 & B2 & H). cbv zeta in H.
  apply bind_OK in H as (v3 & B3 & H).
  apply bind_OK in H as (s1 & H1 & H).
  apply update_W_writes in H as (h & -> & _).
  cbn in B3. repeat (rewrite decide_False in B3 by discriminate).
  unfold bcast in B3.
  rewrite decide_True in B3 by (rewrite !E1; reflexivity).
  injection B3 as <-.
  unfold _update_m in H1. apply update_m_loop with (k := k) in H1 as [H1 _].
  destruct H1 as (bk & b0k & m0k & nk_ & xk & Fb & Fb0 & Fm0 & Fn & Fx & Fm).
  { cbn. apply elem_of_seq. lia. }
  cbn in Fb, Fb0, Fm0, Fn, Fx.
  repeat (case_decide; try congruence).
  apply lookup_zip_with_Some in Fb as (x & y & -> & Fx' & Fy').
  rewrite Fb0 in Fx'. rewrite Fn in Fy'. injection Fx' as <-. injection Fy' as <-.
  exists b0k, m0k, nk_, xk. cbn. auto.
Qed.

(** ** The mixture that [make_mixture] returns *)

Lemma make_mixture_counts s l b b' :
  foldM (make_component s) l b = OK b' ->
  Forall (fun w => 0 < w)%Q (b_weights b) ->
  length (b_components b) = length (b_weights b) ->
  Forall (fun w => 0 < w)%Q (b_weights b') /\
  length (b_components b') = length (b_weights b') /\
  length (b_components b') + length (skipped b')
  = length (b_components b) + length (skipped b) + length l.
Proof.
  revert b. induction l as [|[k w] l IH]; intros b H Hpos Hlen.
  - injection H as <-. cbn. split; [exact Hpos|]. split; [exact Hlen | lia].
  - cbn [foldM] in H. apply bind_OK in H as (b1 & H1 & H).
    assert (Forall (fun w => 0 < w)%Q (b_weights b1) /\
            length (b_components b1) = length (b_weights b1) /\
            length (b_components b1) + length (skipped b1)
            = length (b_components b) + length (skipped b) + 1) as (P1 & P2 & P3).
    { unfold make_component in H1.
      apply bind_OK in H1 as (ak & _ & H1).
      destruct (Qle_bool (ak - 1) 0) eqn:Ea.
      { injection H1 as <-. cbn. rewrite length_app. cbn.
        split; [exact Hpos|]. split; [exact Hlen | lia]. }
      apply bind_OK in H1 as (nuk & _ & H1).
      destruct (Qle_bool nuk (of_nat (dim s))).
      { injection H1 as <-. cbn. rewrite length_app. cbn.
        split; [exact Hpos|]. split; [exact Hlen | lia]. }
      destruct (mode_component s k nuk w).
      - injection H1 as <-. cbn. rewrite !length_app. cbn.
        split; [|split; lia].
        apply Forall_app. split; [exact Hpos|]. constructor; [|constructor].
        destruct (Qlt_le_dec 0 (ak - 1)) as [?|Hle]; [assumption|].
        apply Qle_bool_iff in Hle. congruence.
      - injection H1 as <-. cbn. rewrite length_app. cbn.
        split; [exact Hpos|]. split; [exact Hlen | lia]. }
    destruct (IH b1 H P1 P2) as (Q1 & Q2 & Q3).
    split; [exact Q1|]. split; [exact Q2|]. cbn [length]. lia.
Qed.

(** X12. Every weight of the mixture is positive, there is a weight for every
    component, and each component of the engine is either in the mixture
    or among the skipped ones that the last report lists. *)
Theorem make_mixture_weights s mix out :
  make_mixture s = OK (mix, out) ->
  Forall (fun w => 0 < w)%Q (weights mix) /\
  length (components mix) = length (weights mix) /\
  length (components mix) <= length (tensor s W) /\
  (length (components mix) < length (tensor s W) ->
   exists ks, last out = Some (have_been_skipped ks) /\
              length (components mix) + length ks = length (tensor s W)).
Proof.
  unfold make_mixture. intros H. apply bind_OK in H as (b & Hb & H).
  apply make_mixture_counts in Hb as (P1 & P2 & P3);
    [|constructor|reflexivity].
  cbn in P3. rewrite length_imap in P3.
  injection H as <- <-. cbn.
  split; [exact P1|]. split; [exact P2|]. split; [lia|].
  intros Hlt. destruct (skipped b) as [|k0 ks] eqn:E; [cbn in P3; lia|].
  exists (k0 :: ks). rewrite last_snoc. split; [reflexivity | lia].
Qed.


End Engine.


(** * A run on concrete data *)

(** The section's parameters at one instance: the inverse and the
    determinant of a one-by-one matrix, functions in place of [digamma],
    [ln] and [exp], and the smallest positive double for [tiny]. *)
Definition inv1 (a : matrix) : result matrix :=
  match a with
  | [[x]] => if Qeq_bool x 0 then Raise LinAlgError else OK [[Qred (1 / x)]]
  | _ => Raise LinAlgError
  end.

Definition det1 (a : matrix) : Q :=
  match a with
  | [[x]] => Qred x
  | _ => 0%Q
  end.

Definition flat (x : Q) : Q := 0%Q.

Definition exp1 (x : Q) : Q :=
  Qred (if Qle_bool x 0 then 1 / (1 - x) else 1 + x).

Definition pi1 : Q := (355 # 113)%Q.

Definition tiny1 : Q := (1 # 2 ^ 1074)%Q.

(** A stand-in for the bound: the total of [alpha]. *)
Definition bound1 (s : State) : result Q := OK (vsum (vec s alpha)).

(** A second one, negative and increasing with [alpha]. *)
Definition bound2 (s : State) : result Q := OK (- (1 / vsum (vec s alpha)))%Q.

Definition unwrap {A} (d : A) (r : result A) : A :=
  match r with
  | OK a => a
  | Raise _ => d
  end.

Definition nowhere : State := blank 0 0 (Samples [] None) [].

(** [GaussianInference([[1.]], 1, alpha0=1., beta0=1., nu0=1.)] *)
Definition unit_priors : kwargs :=
  {[ "alpha0" := PyFloat 1; "beta0" := PyFloat 1; "nu0" := PyFloat 1 ]}.

Definition state0 : State :=
  unwrap nowhere
    (GaussianInference_init inv1 det1 flat flat exp1 pi1 tiny1
       [[1%Q]] 1 None unit_priors []).

Definition state1 : State :=
  unwrap nowhere (update inv1 det1 flat flat exp1 pi1 tiny1 state0).

Definition state2 : State :=
  unwrap nowhere (update inv1 det1 flat flat exp1 pi1 tiny1 state1).

Definition lv0 : loop_vars := {| old_K := None; bound := None; self := state0 |}.

Definition lv1 : loop_vars :=
  {| old_K := Some 1; bound := Some 2%Q; self := state1 |}.

(** [GaussianInference([[0.], [1.], [5.]], 2, alpha0=1., beta0=1., nu0=1.)] *)
Definition two_components : State :=
  unwrap nowhere
    (GaussianInference_init inv1 det1 flat flat exp1 pi1 tiny1
       [[0%Q]; [1%Q]; [5%Q]] 2 None unit_priors []).

(** [A = numpy.ones((1, 1, 1)); GaussianInference([[1.]], 1, W0=A, W=A)] *)
Definition same_array : kwargs := {[ "W0" := Nd3 0; "W" := Nd3 0 ]}.

Definition aliased0 : State :=
  unwrap nowhere
    (GaussianInference_init inv1 det1 flat flat exp1 pi1 tiny1
       [[1%Q]] 1 None same_array [ [[[1%Q]]] ]).

Definition aliased1 : State :=
  unwrap nowhere (update inv1 det1 flat flat exp1 pi1 tiny1 aliased0).

Definition after_E_step : State :=
  unwrap nowhere (E_step det1 flat flat exp1 pi1 tiny1 two_components).






Lemma two_components_aligned : aligned two_components /\ S_private two_components.
Proof.
  split; [split; [|split; [|split]]|].
  - intros []; vm_compute; reflexivity.
  - intros []; vm_compute; reflexivity.
  - intros []; vm_compute; reflexivity.
  - intros []; vm_compute; repeat constructor.
  - intros [] H; vm_compute; congruence.
Qed.

(** ** The claims at these data *)

Lemma approximate_convergence_rule_witness :
  iteration inv1 det1 flat flat exp1 pi1 tiny1 bound1 0 (3 # 4) (1 # 100) 1 lv0
    = OK (Return 1 approximate state1)
  <-> (0 < 2 - 1 /\
       ((Qabs 2 < 1 # 100 /\ Qabs (2 - 1) < 1 # 100) \/
        (1 # 100 <= Qabs 2 /\ ~ 2 == 0 /\ Qabs ((2 - 1) / 2) < 3 # 4)))%Q.
Proof.
  apply (approximate_convergence_rule inv1 det1 flat flat exp1 pi1 tiny1
           bound1 0 (3 # 4) (1 # 100) 1 lv0 1 state1 2);
    vm_compute; reflexivity.
Defined.

(** The rule of C1 read on the baseline, as the claim has it, holds here
    (the bound rose from -1 to -1/2, and half of the baseline is below the
    relative tolerance 3/4), yet the pass does not return: the code
    divides by the new bound. *)
Lemma approximate_convergence_not_on_baseline :
  baseline bound2 lv0 = OK (-1)%Q /\
  update inv1 det1 flat flat exp1 pi1 tiny1 (self lv0) = OK state1 /\
  bound2 state1 = OK (-1 # 2)%Q /\
  (0 < (-1 # 2) - -1)%Q /\
  (Qabs (((-1 # 2) - -1) / -1) < 3 # 4)%Q /\
  iteration inv1 det1 flat flat exp1 pi1 tiny1 bound2 0 (3 # 4) (1 # 1000) 1 lv0
  = OK (Next {| old_K := Some 1; bound := Some (-1 # 2)%Q; self := state1 |}).
Proof.
  repeat apply conj; vm_compute; reflexivity.
Qed.


Lemma run_returns_witness :
  run inv1 det1 flat flat exp1 pi1 tiny1 bound1 2 0 (1 # 100) (1 # 100) state0
  = OK (Some 2, state2).
Proof.
  apply (proj1 (run_returns inv1 det1 flat flat exp1 pi1 tiny1 bound1
                  0 (1 # 100) (1 # 100) 2 state0) 2 lv1 2%Q state2 2%Q);
    [lia | vm_compute; reflexivity ..].
Defined.

Lemma prune_compacts_witness :
  let s := two_components in
  let ks := components_to_survive 1 s in
  ascending_from 0 ks /\
  (forall k, k ∈ ks <->
             exists x, vec s N_comp !! k = Some x /\ (1 <= x)%Q) /\
  exists c,
    compact 1 s = OK c /\
    prune det1 flat flat exp1 pi1 tiny1 1 s
    = E_step det1 flat flat exp1 pi1 tiny1 c /\
    K c = length ks /\ K c <= K s /\
    arrays_map (fun A => select ks) s c /\
    (forall A (a : list A), select ks a `sublist_of` a).
Proof.
  apply (proj1 (proj2 (prune_compacts inv1 det1 flat flat exp1 pi1 tiny1
                         bound1 1 two_components
                         (proj1 two_components_aligned)
                         (proj2 two_components_aligned)))).
  vm_compute. discriminate.
Defined.

Lemma validation_names_offending_array_witness :
  GaussianInference_init inv1 det1 flat flat exp1 pi1 tiny1
    [[0%Q]; [1%Q]; [5%Q]] 2 None {[ "alpha0" := Nd1 [1%Q] ]} []
  = Raise (ValueError "len(%s)=%d does not match K=%d"
             [AStr "alpha0"; AInt 1; AInt 2]).
Proof.
  apply (proj2 (proj2 (proj2 (validation_names_offending_array
                                inv1 det1 flat flat exp1 pi1 tiny1 bound1)))
           [[0%Q]; [1%Q]; [5%Q]] 2 None {[ "alpha0" := Nd1 [1%Q] ]} [] [1%Q]).
  - discriminate.
  - reflexivity.
  - vm_compute. lia.
Defined.

Lemma make_mixture_mode_witness :
  exists mix out,
    make_mixture inv1 state1 = OK (mix, out) /\
    components mix = (mode_mixture inv1 state1).*1 /\
    weights mix = (mode_mixture inv1 state1).*2.
Proof.
  destruct (make_mixture_mode inv1 state1) as (mix & out & H1 & H2 & H3 & _).
  - vm_compute. lia.
  - vm_compute. lia.
  - exists mix, out. auto.
Defined.



(** C10. [update] does write to a prior array: with [W0] and [W] given as
    one array object, which the constructor binds to both without a copy
    (the default for [W] is [W0.copy()]), [_update_W] stores the new
    posterior matrices into the array of [W0], while [inv_W0] stays as it
    was computed from the old one.  In every such state [W0] reads as [W]
    after an update. *)
Theorem update_overwrites_aliased_W0 :
  GaussianInference_init inv1 det1 flat flat exp1 pi1 tiny1
    [[1%Q]] 1 None same_array [ [[[1%Q]]] ] = OK aliased0 /\
  update inv1 det1 flat flat exp1 pi1 tiny1 aliased0 = OK aliased1 /\
  ten aliased0 W = ten aliased0 W0 /\
  tensor aliased0 W0 = [[[1%Q]]] /\
  tensor aliased0 inv_W0 = [[[1%Q]]] /\
  tensor aliased1 W0 = [[[(100001 # 100002)%Q]]] /\
  tensor aliased1 inv_W0 = [[[1%Q]]] /\
  forall inv det digamma ln exp pi tiny s s',
    update inv det digamma ln exp pi tiny s = OK s' ->
    ten s W = ten s W0 -> tensor s' W0 = tensor s' W.
Proof.
  repeat apply conj; try (vm_compute; reflexivity).
  intros inv det digamma ln exp pi tiny s s' H Hal.
  unfold update in H. apply bind_OK in H as (s1 & H1 & H2).
  apply M_step_writes in H1 as (_ & _ & _ & M4 & _).
  apply E_step_writes in H2 as (_ & _ & _ & E4 & _).
  unfold tensor. rewrite E4, M4, Hal. reflexivity.
Qed.


(** ** The further properties at these data *)

Lemma state0_aligned : aligned state0 /\ S_private state0.
Proof.
  split; [split; [|split; [|split]]|].
  - intros []; vm_compute; reflexivity.
  - intros []; vm_compute; reflexivity.
  - intros []; vm_compute; reflexivity.
  - intros []; vm_compute; repeat constructor.
  - intros [] H; vm_compute; congruence.
Qed.

Definition after_M_step : State := unwrap nowhere (M_step inv1 state0).

Lemma update_keeps_priors_witness :
  vec state1 alpha0 = vec state0 alpha0 /\ vec state1 beta0 = vec state0 beta0 /\
  vec state1 nu0 = vec state0 nu0 /\ mat state1 m0 = mat state0 m0 /\
  tensor state1 W0 = tensor state0 W0 /\
  tensor state1 inv_W0 = tensor state0 inv_W0.
Proof.
  apply (update_keeps_priors inv1 det1 flat flat exp1 pi1 tiny1 state0 state1).
  - vm_compute. reflexivity.
  - vm_compute. discriminate.
  - vm_compute. discriminate.
  - exact (proj2 state0_aligned).
Defined.

Lemma E_step_keeps_hyperparameters_witness :
  K after_E_step = K two_components /\
  dim after_E_step = dim two_components /\
  source after_E_step = source two_components /\
  (forall a, a ∈ [alpha0; alpha; beta0; beta; nu0; nu] ->
             vec after_E_step a = vec two_components a) /\
  (forall a, a ∈ [m0; m] -> mat after_E_step a = mat two_components a) /\
  (forall a, a ∈ [W0; inv_W0; W] ->
             tensor after_E_step a = tensor two_components a).
Proof.
  apply (E_step_keeps_hyperparameters det1 flat flat exp1 pi1 tiny1
           two_components after_E_step).
  - vm_compute. reflexivity.
  - exact (proj2 two_components_aligned).
Defined.

Lemma E_step_keeps_shapes_witness :
  aligned after_E_step /\ S_private after_E_step.
Proof.
  apply (E_step_keeps_shapes inv1 det1 flat flat exp1 pi1 tiny1 bound1
           two_components after_E_step).
  - vm_compute. reflexivity.
  - exact (proj1 two_components_aligned).
  - exact (proj2 two_components_aligned).
Defined.

Lemma run_count_in_range_witness : 1 <= 2 <= 2.
Proof.
  apply (run_count_in_range inv1 det1 flat flat exp1 pi1 tiny1 bound1
           2 0 (1 # 100) (1 # 100) state0 2 state2).
  vm_compute. reflexivity.
Defined.

Lemma scalar_prior_broadcast_witness :
  ((0 < 3)%Q ->
   prior_K_vector "alpha0" (1 # 100000) 0 two_components
     {[ "alpha0" := PyFloat 3 ]}
   = OK (repeat 3%Q (K two_components), delete "alpha0" {[ "alpha0" := PyFloat 3 ]})) /\
  (K two_components = 0 ->
   prior_K_vector "alpha0" (1 # 100000) 0 two_components
     {[ "alpha0" := PyFloat 3 ]}
   = OK ([], delete "alpha0" {[ "alpha0" := PyFloat 3 ]})) /\
  ((3 <= 0)%Q -> 0 < K two_components ->
   prior_K_vector "alpha0" (1 # 100000) 0 two_components
     {[ "alpha0" := PyFloat 3 ]}
   = Raise (ValueError "All elements of %s must exceed %g. %s=%s"
              [AStr "alpha0"; ANum 0; AStr "alpha0";
               AVec (repeat 3%Q (K two_components))])).
Proof.
  apply (scalar_prior_broadcast "alpha0" (1 # 100000) 0 two_components
           {[ "alpha0" := PyFloat 3 ]} 3).
  reflexivity.
Defined.

Lemma M_step_adds_counts_witness :
  vec after_M_step nu = zip_with Qplus (vec state0 nu0) (vec state0 N_comp) /\
  vec after_M_step alpha
  = zip_with Qplus (vec state0 alpha0) (vec state0 N_comp) /\
  vec after_M_step beta
  = zip_with Qplus (vec state0 beta0) (vec state0 N_comp) /\
  vec after_M_step N_comp = vec state0 N_comp.
Proof.
  apply (M_step_adds_counts inv1 state0 after_M_step).
  - vm_compute. reflexivity.
  - exact (proj1 state0_aligned).
Defined.

Lemma constructed_engine_keeps_priors_witness :
  ten state0 W <> ten state0 W0 /\ ten state0 W <> ten state0 inv_W0 /\
  S_private state0 /\
  vec state1 alpha0 = vec state0 alpha0 /\ vec state1 beta0 = vec state0 beta0 /\
  vec state1 nu0 = vec state0 nu0 /\ mat state1 m0 = mat state0 m0 /\
  tensor state1 W0 = tensor state0 W0 /\
  tensor state1 inv_W0 = tensor state0 inv_W0.
Proof.
  apply (constructed_engine_keeps_priors inv1 det1 flat flat exp1 pi1 tiny1
           [[1%Q]] 1 None unit_priors [] state0 state1).
  - vm_compute. reflexivity.
  - reflexivity.
  - intros l H. vm_compute in H. discriminate.
  - vm_compute. reflexivity.
Defined.

Lemma M_step_means_witness :
  exists b0k m0k nk_ xk,
    vec state0 beta0 !! 0 = Some b0k /\ mat state0 m0 !! 0 = Some m0k /\
    vec state0 N_comp !! 0 = Some nk_ /\
    mat state0 x_mean_comp !! 0 = Some xk /\
    mat after_M_step m !! 0
    = Some (vscale (1 / (b0k + nk_))%Q
              (vadd (vscale b0k m0k) (vscale nk_ xk))).
Proof.
  apply (M_step_means inv1 state0 after_M_step 0).
  - vm_compute. reflexivity.
  - exact (proj1 state0_aligned).
  - vm_compute. lia.
Defined.

Lemma make_mixture_weights_witness :
  Forall (fun w => 0 < w)%Q [1%Q] /\
  length [ {| mu := [1 # 2]; sigma := [[3 # 2]] |} ] = length [1%Q] /\
  1 <= length (tensor state1 W) /\
  (1 < length (tensor state1 W) ->
   exists ks, last (@nil report) = Some (have_been_skipped ks) /\
              1 + length ks = length (tensor state1 W)).
Proof.
  apply (make_mixture_weights inv1 state1
           {| components := [ {| mu := [1 # 2]; sigma := [[3 # 2]] |} ];
              weights := [1%Q] |} []).
  vm_compute. reflexivity.
Defined.


(** * The history of a chain

    [pypmc/_tools/_chain.py]: the class [_hist] that stores the points a
    chain visits run by run, and the base class [_Chain] that owns one. *)

Module Chain.

(** A numpy array of points: one-dimensional (a single point), or
    two-dimensional with its number of columns (which an array without
    rows has as well). *)
Inductive ndarray :=
| A1 (v : vector)
| A2 (cols : nat) (a : matrix).

(** [a[lo:hi]] for bounds that are not negative; a slice is clipped to
    the array. *)
Definition slice {A} (a : list A) (lo hi : nat) : list A :=
  take (hi - lo) (drop lo a).

Definition nd_slice (p : ndarray) (lo hi : nat) : ndarray :=
  match p with
  | A1 v => A1 (slice v lo hi)
  | A2 c a => A2 c (slice a lo hi)
  end.

(** [l[i]] for a Python list and an [int]: a negative index counts from
    the end. *)
Definition pyindex {A} (l : list A) (i : Z) : result A :=
  let n := Z.of_nat (length l) in
  let j := if (i <? 0)%Z then (i + n)%Z else i in
  if (j <? 0)%Z then Raise IndexError
  else index l (Z.to_nat j).

(** [np.empty((n, d))]: [n] rows of [d] entries; what they hold is
    whatever the memory [mem] held. *)
Definition np_empty (mem : nat -> nat -> Q) (n d : nat) : matrix :=
  map (fun i => map (mem i) (seq 0 d)) (seq 0 n).

(** [np.vstack((x, y))] for a [y] of two dimensions: a one-dimensional
    [x] counts as one row, and the columns have to agree. *)
Definition vstack (x : ndarray) (cols : nat) (y : matrix) : result ndarray :=
  let '(c, rows) := match x with
                    | A1 v => (length v, [v])
                    | A2 c a => (c, a)
                    end in
  if decide (c = cols) then OK (A2 c (rows ++ y))
  else Raise (ValueError
    "all the input array dimensions except for the concatenation axis must match exactly" []).

Record hist := {
  _dim : nat;
  _points : ndarray;
  _memleft : nat;
  _slice_for_run_nr : list (nat * nat);
  _accept_counts : list Z;
}.

(** [_hist.__init__(initial_point, prealloc_for)] *)
Definition hist_init (mem : nat -> nat -> Q) (initial_point : vector)
    (prealloc_for : Z) : hist :=
  let d := length initial_point in
  if (prealloc_for <=? 0)%Z
  then {| _dim := d; _points := A1 initial_point; _memleft := 0;
          _slice_for_run_nr := [(0, 1)]; _accept_counts := [0%Z] |}
  else
    let n := Z.to_nat prealloc_for in
    {| _dim := d;
       _points := A2 d (<[0 := initial_point]> (np_empty mem (n + 1) d));
       _memleft := n;
       _slice_for_run_nr := [(0, 1)]; _accept_counts := [0%Z] |}.

(** [get_all_points]: [self._points[:self._slice_for_run_nr[-1][1]]] *)
Definition get_all_points (h : hist) : result ndarray :=
  last_ ← pyindex (_slice_for_run_nr h) (-1);
  OK (nd_slice (_points h) 0 last_.2).

(** [get_run_points(run_nr)] *)
Definition get_run_points (h : hist) (run_nr : Z) : result ndarray :=
  requested_slice ← pyindex (_slice_for_run_nr h) run_nr;
  OK (nd_slice (_points h) requested_slice.1 requested_slice.2).

(** [get_run_accept_count(run_nr)] *)
Definition get_run_accept_count (h : hist) (run_nr : Z) : result Z :=
  pyindex (_accept_counts h) run_nr.

(** [get_all_accept_count]: [sum(self._accept_counts)] *)
Definition get_all_accept_count (h : hist) : Z :=
  foldr Z.add 0%Z (_accept_counts h).

(** [_append_accept_count(accept_count)] *)
Definition _append_accept_count (accept_count : Z) (h : hist) : hist :=
  {| _dim := _dim h; _points := _points h; _memleft := _memleft h;
     _slice_for_run_nr := _slice_for_run_nr h;
     _accept_counts := _accept_counts h ++ [accept_count] |}.

(** [_alloc(new_points_len)], for a number of points: the history it
    leaves, and the bounds of the slice of [_points] it returns a
    reference to.  The slice of the new run is recorded before
    [get_all_points] is called. *)
Definition _alloc (mem : nat -> nat -> Q) (new_points_len : nat) (h : hist)
    : result (hist * (nat * nat)) :=
  last_ ← pyindex (_slice_for_run_nr h) (-1);
  let new_points_start := last_.2 in
  let new_points_stop := new_points_start + new_points_len in
  let h := {| _dim := _dim h; _points := _points h; _memleft := _memleft h;
              _slice_for_run_nr :=
                _slice_for_run_nr h ++ [(new_points_start, new_points_stop)];
              _accept_counts := _accept_counts h |} in
  h ← (if _memleft h <? new_points_len
       then
         all ← get_all_points h;
         p ← vstack all (_dim h) (np_empty mem new_points_len (_dim h));
         OK {| _dim := _dim h; _points := p; _memleft := 0;
               _slice_for_run_nr := _slice_for_run_nr h;
               _accept_counts := _accept_counts h |}
       else
         OK {| _dim := _dim h; _points := _points h;
               _memleft := _memleft h - new_points_len;
               _slice_for_run_nr := _slice_for_run_nr h;
               _accept_counts := _accept_counts h |});
  OK (h, (new_points_start, new_points_stop)).

(** The base class [_Chain]. *)
Record chain := {
  prealloc_for : Z;
  current : vector;
  hist_ : hist;
}.

(** [_Chain.__init__(start, prealloc_for)] *)
Definition Chain_init (mem : nat -> nat -> Q) (start : vector)
    (prealloc : Z) : chain :=
  {| prealloc_for := prealloc; current := start;
     hist_ := hist_init mem start prealloc |}.

(** [_Chain.clear] *)
Definition clear (mem : nat -> nat -> Q) (c : chain) : chain :=
  {| prealloc_for := prealloc_for c; current := current c;
     hist_ := hist_init mem (current c) (prealloc_for c) |}.

(** ** The shape of a history *)

(** Slices that follow one another from [start] on. *)
Fixpoint contiguous (start : nat) (slices : list (nat * nat)) : Prop :=
  match slices with
  | [] => True
  | (a, b) :: rest => a = start /\ a <= b /\ contiguous b rest
  end.

(** Where the last of the slices stops; [start] when there is none. *)
Definition stop_of (start : nat) (slices : list (nat * nat)) : nat :=
  match last slices with
  | Some sl => sl.2
  | None => start
  end.

(** Where the last run stops. *)
Definition last_stop (h : hist) : nat := stop_of 0 (_slice_for_run_nr h).

(** A history whose points are a two-dimensional array of [_dim]
    columns: the runs follow one another from the initial point on, and
    the rows behind them are at least the memory that is counted as
    left. *)
Definition wf (h : hist) : Prop :=
  exists rows,
    _points h = A2 (_dim h) rows /\
    Forall (fun row => length row = _dim h) rows /\
    _slice_for_run_nr h <> [] /\
    contiguous 0 (_slice_for_run_nr h) /\
    last_stop h + _memleft h <= length rows.

Lemma pyindex_last {A} (l : list A) :
  pyindex l (-1) = match last l with
                   | Some x => OK x
                   | None => Raise IndexError
                   end.
Proof.
  unfold pyindex. cbn zeta. change (-1 <? 0)%Z with true. cbn match.
  destruct l as [|x l] using rev_ind; [reflexivity|].
  rewrite last_snoc, length_app. cbn [length].
  replace (-1 + Z.of_nat (length l + 1))%Z with (Z.of_nat (length l)) by lia.
  destruct (Z.ltb_spec (Z.of_nat (length l)) 0); [lia|].
  rewrite Nat2Z.id. unfold index.
  rewrite lookup_app_r by lia. rewrite Nat.sub_diag. reflexivity.
Qed.

Lemma pyindex_nat {A} (l : list A) (i : nat) :
  pyindex l (Z.of_nat i) = index l i.
Proof.
  unfold pyindex. cbn zeta.
  destruct (Z.ltb_spec (Z.of_nat i) 0); [lia|].
  destruct (Z.ltb_spec (Z.of_nat i) 0); [lia|].
  rewrite Nat2Z.id. reflexivity.
Qed.

Lemma np_empty_shape mem n d :
  length (np_empty mem n d) = n /\
  Forall (fun row => length row = d) (np_empty mem n d).
Proof.
  unfold np_empty. split.
  - rewrite length_map. apply length_seq.
  - apply Forall_forall. intros row Hrow.
    apply list_elem_of_fmap in Hrow as (i & -> & _).
    rewrite length_map. apply length_seq.
Qed.

Lemma stop_of_cons start x y rest :
  stop_of start ((x, y) :: rest) = stop_of y rest.
Proof.
  destruct rest as [|z rest]; [reflexivity|].
  unfold stop_of. rewrite last_cons_cons.
  destruct (last (z :: rest)) eqn:E; [reflexivity|].
  apply last_None in E. discriminate.
Qed.

Lemma stop_of_snoc start slices a b :
  stop_of start (slices ++ [(a, b)]) = b.
Proof. unfold stop_of. rewrite last_snoc. reflexivity. Qed.

Lemma contiguous_snoc start slices a b :
  contiguous start (slices ++ [(a, b)]) <->
  contiguous start slices /\ a = stop_of start slices /\ a <= b.
Proof.
  revert start. induction slices as [|[x y] rest IH]; intros start.
  - cbn. unfold stop_of. cbn. tauto.
  - cbn [contiguous app]. rewrite IH, stop_of_cons. tauto.
Qed.

Lemma contiguous_le start slices :
  contiguous start slices -> start <= stop_of start slices.
Proof.
  revert start. induction slices as [|[x y] rest IH]; intros start.
  - intros _. unfold stop_of. cbn. lia.
  - cbn [contiguous]. intros (-> & Hxy & Hc). rewrite stop_of_cons.
    specialize (IH _ Hc). lia.
Qed.

Lemma contiguous_stops start slices i sl :
  contiguous start slices -> slices !! i = Some sl ->
  start <= sl.1 /\ sl.1 <= sl.2 /\ sl.2 <= stop_of start slices.
Proof.
  revert start i. induction slices as [|[x y] rest IH]; intros start i.
  - intros _ H. discriminate.
  - cbn [contiguous]. intros (-> & Hxy & Hc) H. rewrite stop_of_cons.
    pose proof (contiguous_le _ _ Hc) as Hle.
    destruct i as [|i]; cbn in H.
    + injection H as <-. cbn. lia.
    + specialize (IH y i Hc H). lia.
Qed.

Lemma take_add_slice {A} (l : list A) a n :
  take (a + n) l = take a l ++ slice l a (a + n).
Proof.
  unfold slice. replace (a + n - a) with n by lia.
  revert l. induction a as [|a IH]; intros l; cbn.
  - rewrite drop_0. reflexivity.
  - destruct l as [|x l]; cbn; [rewrite take_nil; reflexivity|].
    f_equal. apply IH.
Qed.

Lemma slice_take {A} (l : list A) a b k :
  b <= k -> slice (take k l) a b = slice l a b.
Proof.
  intros Hb. unfold slice. rewrite skipn_firstn_comm, take_take.
  f_equal. lia.
Qed.

Lemma slice_length {A} (l : list A) a n :
  a + n <= length l -> length (slice l a (a + n)) = n.
Proof.
  intros H. unfold slice. rewrite length_take, length_drop. lia.
Qed.

Lemma slice_0 {A} (l : list A) b : slice l 0 b = take b l.
Proof. unfold slice. rewrite drop_0, Nat.sub_0_r. reflexivity. Qed.

Lemma last_of_nonempty {A} (l : list A) : l <> [] -> exists x, last l = Some x.
Proof.
  intros H. destruct (last l) as [x|] eqn:E; [eauto|].
  apply last_None in E. contradiction.
Qed.

(** What [_alloc] leaves of the rows: as wide as before, the old points
    in their places, and room for the new run. *)
Lemma alloc_rows mem n h rows0 :
  _points h = A2 (_dim h) rows0 ->
  Forall (fun row => length row = _dim h) rows0 ->
  _slice_for_run_nr h <> [] ->
  last_stop h + _memleft h <= length rows0 ->
  exists rows' ml',
    _alloc mem n h
    = OK ({| _dim := _dim h; _points := A2 (_dim h) rows'; _memleft := ml';
             _slice_for_run_nr :=
               _slice_for_run_nr h ++ [(last_stop h, last_stop h + n)];
             _accept_counts := _accept_counts h |},
          (last_stop h, last_stop h + n)) /\
    Forall (fun row => length row = _dim h) rows' /\
    take (last_stop h) rows' = take (last_stop h) rows0 /\
    last_stop h + n + ml' <= length rows'.
Proof.
  intros Hp Hall Hne Hcap.
  destruct (last_of_nonempty _ Hne) as [sl Hsl].
  assert (Hstop : last_stop h = sl.2).
  { unfold last_stop, stop_of. rewrite Hsl. reflexivity. }
  unfold _alloc. rewrite pyindex_last, Hsl. cbn [mbind result_bind].
  cbv zeta. cbn [_memleft _dim _points _slice_for_run_nr _accept_counts].
  rewrite <- Hstop.
  destruct (Nat.ltb_spec (_memleft h) n) as [Hlt|Hge].
  - unfold get_all_points.
    cbn [_memleft _dim _points _slice_for_run_nr _accept_counts].
    rewrite pyindex_last, last_snoc. cbn [mbind result_bind snd].
    rewrite Hp. cbn [nd_slice]. rewrite slice_0.
    unfold vstack. rewrite decide_True by reflexivity.
    cbn [mbind result_bind].
    exists (take (last_stop h + n) rows0 ++ np_empty mem n (_dim h)), 0.
    split; [reflexivity|]. split; [|split].
    + apply Forall_app. split; [apply Forall_take, Hall|].
      apply np_empty_shape.
    + rewrite take_app_le by (rewrite length_take; lia).
      rewrite take_take. f_equal. lia.
    + rewrite length_app, length_take.
      rewrite (proj1 (np_empty_shape mem n (_dim h))). lia.
  - cbn [mbind result_bind]. rewrite Hp.
    exists rows0, (_memleft h - n).
    split; [reflexivity|]. split; [exact Hall|]. split; [reflexivity|]. lia.
Qed.

(** X13. A history made with memory allocated in advance holds the initial
    point as its only run, has the memory at hand that was asked for and
    no accepted step. *)
Theorem hist_init_prealloc mem initial_point n :
  (0 < n)%Z ->
  wf (hist_init mem initial_point n) /\
  get_all_points (hist_init mem initial_point n)
  = OK (A2 (length initial_point) [initial_point]) /\
  get_run_points (hist_init mem initial_point n) (-1)
  = OK (A2 (length initial_point) [initial_point]) /\
  _memleft (hist_init mem initial_point n) = Z.to_nat n /\
  get_all_accept_count (hist_init mem initial_point n) = 0%Z.
Proof.
  intros Hn. unfold hist_init.
  destruct (Z.leb_spec n 0) as [?|_]; [lia|].
  assert (Hrows : <[0 := initial_point]>
                    (np_empty mem (Z.to_nat n + 1) (length initial_point))
                  = initial_point
                    :: map (fun i => map (mem i) (seq 0 (length initial_point)))
                         (seq 1 (Z.to_nat n))).
  { unfold np_empty. rewrite Nat.add_1_r. reflexivity. }
  rewrite Hrows. split; [|repeat apply conj; reflexivity].
  eexists. split; [reflexivity|]. cbn.
  split; [|split; [discriminate|split; [lia|]]].
  - constructor; [reflexivity|].
    apply Forall_forall. intros row Hrow.
    apply list_elem_of_fmap in Hrow as (i & -> & _).
    rewrite length_map. apply length_seq.
  - unfold last_stop, stop_of. cbn. rewrite length_map, length_seq. lia.
Qed.

(** X14. [_alloc(n)] on such a history never fails.  It records the new run
    right behind the last one, returns a slice of exactly [n] rows for
    it, keeps every point and every run stored so far as it is, and
    leaves a history of the same kind. *)
Theorem alloc_appends_run mem n h :
  wf h ->
  exists h' all rows,
    _alloc mem n h = OK (h', (last_stop h, last_stop h + n)) /\
    wf h' /\
    _slice_for_run_nr h'
    = _slice_for_run_nr h ++ [(last_stop h, last_stop h + n)] /\
    _accept_counts h' = _accept_counts h /\
    get_all_points h = OK (A2 (_dim h) all) /\
    get_run_points h' (-1) = OK (A2 (_dim h) rows) /\
    length rows = n /\
    get_all_points h' = OK (A2 (_dim h) (all ++ rows)) /\
    forall i : nat,
      i < length (_slice_for_run_nr h) ->
      get_run_points h' (Z.of_nat i) = get_run_points h (Z.of_nat i).
Proof.
  intros (rows0 & Hp & Hall & Hne & Hc & Hcap).
  destruct (alloc_rows mem n h rows0 Hp Hall Hne Hcap)
    as (rows' & ml' & Ha & Hall' & Hpre & Hcap').
  destruct (last_of_nonempty _ Hne) as [sl Hsl].
  assert (Hstop : last_stop h = sl.2).
  { unfold last_stop, stop_of. rewrite Hsl. reflexivity. }
  eexists _, (take (last_stop h) rows0),
    (slice rows' (last_stop h) (last_stop h + n)).
  split; [exact Ha|].
  split; [|split; [reflexivity|split; [reflexivity|]]].
  { exists rows'. cbn. split; [reflexivity|]. split; [exact Hall'|].
    split; [intros E; apply app_eq_nil in E as [_ E]; discriminate|].
    split.
    - apply contiguous_snoc. split; [exact Hc|]. split; [reflexivity | lia].
    - unfold last_stop in *. cbn. rewrite stop_of_snoc. lia. }
  split.
  { unfold get_all_points. rewrite pyindex_last, Hsl. cbn [mbind result_bind].
    rewrite Hp. cbn [nd_slice]. rewrite slice_0, Hstop. reflexivity. }
  split.
  { unfold get_run_points. cbn. rewrite pyindex_last, last_snoc. reflexivity. }
  split; [apply slice_length; lia|].
  split.
  { unfold get_all_points. cbn. rewrite pyindex_last, last_snoc.
    cbn [mbind result_bind snd nd_slice]. rewrite slice_0.
    rewrite take_add_slice, Hpre. reflexivity. }
  intros i Hi. unfold get_run_points. cbn. rewrite !pyindex_nat.
  unfold index. rewrite lookup_app_l by exact Hi.
  destruct (_slice_for_run_nr h !! i) as [[a b]|] eqn:E; [|reflexivity].
  cbn [mbind result_bind]. rewrite Hp. cbn [nd_slice fst snd]. do 2 f_equal.
  destruct (contiguous_stops _ _ _ _ Hc E) as (_ & _ & Hb). cbn in Hb.
  fold (last_stop h) in Hb.
  rewrite <- (slice_take rows' a b (last_stop h) Hb), Hpre.
  apply slice_take, Hb.
Qed.

(** X15. A history made without memory in advance keeps the initial point as
    a one-dimensional array.  Its first run turns the points into rows
    if it brings at least [D - 1] points for a point of [D] coordinates;
    a shorter run that is not empty cannot be stacked on the point and
    raises; a run of no points is recorded and changes nothing else. *)
Theorem alloc_without_prealloc mem mem' initial_point z n :
  (z <= 0)%Z ->
  get_all_points (hist_init mem initial_point z)
  = OK (A1 (take 1 initial_point)) /\
  (n = 0 ->
   exists h', _alloc mem' n (hist_init mem initial_point z) = OK (h', (1, 1)) /\
              _points h' = A1 initial_point /\
              _slice_for_run_nr h' = [(0, 1); (1, 1)]) /\
  (0 < n -> length initial_point <= n + 1 ->
   exists h', _alloc mem' n (hist_init mem initial_point z)
              = OK (h', (1, 1 + n)) /\
              wf h' /\
              get_all_points h'
              = OK (A2 (length initial_point)
                      (initial_point
                       :: np_empty mem' n (length initial_point)))) /\
  (0 < n -> n + 1 < length initial_point ->
   _alloc mem' n (hist_init mem initial_point z)
   = Raise (ValueError
       "all the input array dimensions except for the concatenation axis must match exactly" [])).
Proof.
  intros Hz. unfold hist_init.
  destruct (Z.leb_spec z 0) as [_|?]; [|lia].
  split; [reflexivity|]. split; [|split].
  - intros ->. eexists. split; [reflexivity|]. split; reflexivity.
  - intros Hn Hlen. unfold _alloc. rewrite pyindex_last.
    cbn -[Nat.ltb slice np_empty get_all_points vstack].
    destruct (Nat.ltb_spec 0 n) as [_|?]; [|lia].
    unfold get_all_points. cbn -[slice np_empty vstack].
    rewrite pyindex_last. cbn -[slice np_empty vstack].
    rewrite slice_0, take_ge by lia. unfold vstack.
    rewrite decide_True by reflexivity. cbn -[slice np_empty].
    eexists. split; [reflexivity|]. split.
    + eexists. cbn -[np_empty]. split; [reflexivity|].
      split; [constructor; [reflexivity | apply np_empty_shape]|].
      split; [discriminate|]. split; [lia|].
      unfold last_stop, stop_of. cbn -[np_empty].
      rewrite (proj1 (np_empty_shape mem' n (length initial_point))). lia.
    + unfold get_all_points. cbn -[slice np_empty]. rewrite pyindex_last.
      cbn -[slice np_empty].
      rewrite slice_0. rewrite take_ge; [reflexivity|]. cbn -[np_empty].
      rewrite (proj1 (np_empty_shape mem' n (length initial_point))). lia.
  - intros Hn Hlen. unfold _alloc. rewrite pyindex_last.
    cbn -[Nat.ltb slice np_empty get_all_points vstack].
    destruct (Nat.ltb_spec 0 n) as [_|?]; [|lia].
    unfold get_all_points. cbn -[slice np_empty vstack].
    rewrite pyindex_last. cbn -[slice np_empty vstack].
    rewrite slice_0. unfold vstack.
    rewrite decide_False; [reflexivity|]. rewrite length_take. lia.
Qed.

Lemma pyindex_neg {A} (l : list A) k :
  1 <= k ->
  (k <= length l ->
   pyindex l (- Z.of_nat k) = pyindex l (Z.of_nat (length l - k))) /\
  (length l < k -> pyindex l (- Z.of_nat k) = Raise IndexError).
Proof.
  intros Hk. unfold pyindex. cbn zeta.
  destruct (Z.ltb_spec (- Z.of_nat k) 0) as [_|?]; [|lia].
  destruct (Z.ltb_spec (Z.of_nat (length l - k)) 0); [lia|].
  destruct (Z.ltb_spec (- Z.of_nat k + Z.of_nat (length l)) 0).
  - split; [intros; exfalso; lia | reflexivity].
  - split; [|intros; exfalso; lia]. intros Hle.
    destruct (Z.ltb_spec (Z.of_nat (length l - k)) 0); [exfalso; lia|].
    f_equal. lia.
Qed.

(** X16. [run_nr] counts backwards when negative: [-k] is the [k]-th run
    from the end, and there is no run before the first. *)
Theorem run_nr_counts_backwards h k :
  1 <= k ->
  (k <= length (_slice_for_run_nr h) ->
   get_run_points h (- Z.of_nat k)
   = get_run_points h (Z.of_nat (length (_slice_for_run_nr h) - k))) /\
  (length (_slice_for_run_nr h) < k ->
   get_run_points h (- Z.of_nat k) = Raise IndexError) /\
  (k <= length (_accept_counts h) ->
   get_run_accept_count h (- Z.of_nat k)
   = get_run_accept_count h (Z.of_nat (length (_accept_counts h) - k))) /\
  (length (_accept_counts h) < k ->
   get_run_accept_count h (- Z.of_nat k) = Raise IndexError).
Proof.
  intros Hk.
  destruct (pyindex_neg (_slice_for_run_nr h) k Hk) as [P1 P2].
  destruct (pyindex_neg (_accept_counts h) k Hk) as [P3 P4].
  unfold get_run_points, get_run_accept_count.
  split; [|split; [|split]]; intros H.
  - rewrite (P1 H). reflexivity.
  - rewrite (P2 H). reflexivity.
  - exact (P3 H).
  - exact (P4 H).
Qed.

(** X17. The accepted steps add up: [_append_accept_count(c)] raises the
    total by [c], makes [c] the count of the last run, and keeps the
    counts of the runs before it and all the points. *)
Theorem append_accept_count_total c h :
  get_all_accept_count (_append_accept_count c h)
  = (get_all_accept_count h + c)%Z /\
  get_run_accept_count (_append_accept_count c h) (-1) = OK c /\
  (forall i : nat,
     i < length (_accept_counts h) ->
     get_run_accept_count (_append_accept_count c h) (Z.of_nat i)
     = get_run_accept_count h (Z.of_nat i)) /\
  get_all_points (_append_accept_count c h) = get_all_points h.
Proof.
  split; [|split; [|split]].
  - unfold get_all_accept_count. cbn.
    induction (_accept_counts h) as [|x l IH]; cbn; lia.
  - unfold get_run_accept_count. cbn. rewrite pyindex_last, last_snoc.
    reflexivity.
  - intros i Hi. unfold get_run_accept_count. cbn. rewrite !pyindex_nat.
    unfold index. rewrite lookup_app_l by exact Hi. reflexivity.
  - reflexivity.
Qed.

(** ** A history of points in the plane *)

Definition zeroed (i j : nat) : Q := 0%Q.

Definition hist0 : hist := hist_init zeroed [1%Q; 2%Q] 3.

Lemma hist0_wf : wf hist0.
Proof.
  eexists. split; [reflexivity|]. cbn.
  split; [repeat constructor|]. split; [discriminate|].
  split; [lia|]. vm_compute. lia.
Qed.

Lemma hist_init_prealloc_witness :
  wf (hist_init zeroed [1%Q; 2%Q] 3) /\
  get_all_points (hist_init zeroed [1%Q; 2%Q] 3)
  = OK (A2 (length [1%Q; 2%Q]) [[1%Q; 2%Q]]) /\
  get_run_points (hist_init zeroed [1%Q; 2%Q] 3) (-1)
  = OK (A2 (length [1%Q; 2%Q]) [[1%Q; 2%Q]]) /\
  _memleft (hist_init zeroed [1%Q; 2%Q] 3) = Z.to_nat 3 /\
  get_all_accept_count (hist_init zeroed [1%Q; 2%Q] 3) = 0%Z.
Proof.
  apply (hist_init_prealloc zeroed [1%Q; 2%Q] 3). reflexivity.
Defined.

Lemma alloc_appends_run_witness :
  exists h' all rows,
    _alloc zeroed 5 hist0 = OK (h', (last_stop hist0, last_stop hist0 + 5)) /\
    wf h' /\
    _slice_for_run_nr h'
    = _slice_for_run_nr hist0 ++ [(last_stop hist0, last_stop hist0 + 5)] /\
    _accept_counts h' = _accept_counts hist0 /\
    get_all_points hist0 = OK (A2 (_dim hist0) all) /\
    get_run_points h' (-1) = OK (A2 (_dim hist0) rows) /\
    length rows = 5 /\
    get_all_points h' = OK (A2 (_dim hist0) (all ++ rows)) /\
    forall i : nat,
      i < length (_slice_for_run_nr hist0) ->
      get_run_points h' (Z.of_nat i) = get_run_points hist0 (Z.of_nat i).
Proof.
  apply (alloc_appends_run zeroed 5 hist0). exact hist0_wf.
Defined.

Lemma alloc_without_prealloc_witness :
  _alloc zeroed 1 (hist_init zeroed [1%Q; 2%Q; 3%Q; 4%Q] 0)
  = Raise (ValueError
      "all the input array dimensions except for the concatenation axis must match exactly" []).
Proof.
  apply (proj2 (proj2 (proj2 (alloc_without_prealloc zeroed zeroed
                                [1%Q; 2%Q; 3%Q; 4%Q] 0 1 ltac:(reflexivity))))).
  - lia.
  - vm_compute. lia.
Defined.

Lemma run_nr_counts_backwards_witness :
  (1 <= length (_slice_for_run_nr hist0) ->
   get_run_points hist0 (- Z.of_nat 1)
   = get_run_points hist0 (Z.of_nat (length (_slice_for_run_nr hist0) - 1))) /\
  (length (_slice_for_run_nr hist0) < 1 ->
   get_run_points hist0 (- Z.of_nat 1) = Raise IndexError) /\
  (1 <= length (_accept_counts hist0) ->
   get_run_accept_count hist0 (- Z.of_nat 1)
   = get_run_accept_count hist0
       (Z.of_nat (length (_accept_counts hist0) - 1))) /\
  (length (_accept_counts hist0) < 1 ->
   get_run_accept_count hist0 (- Z.of_nat 1) = Raise IndexError).
Proof.
  apply (run_nr_counts_backwards hist0 1). lia.
Defined.

End Chain.
